(** * GibRAM: sessions, distance kernels, durability framing and expiry scheduling

  A shallow embedding of the parts of the GibRAM server that its
  specification makes checkable statements about:

  - [Types]: [pkg/types] sessions: quotas, usage counters, expiry;
  - [Simd]: [pkg/simd] distance kernels over binary32 vectors;
  - [Codec]: [pkg/codec] binary framing of WAL entries and snapshot headers;
  - [Backup]: the WAL entry and snapshot file formats of [pkg/backup];
  - [Engine]: [pkg/engine] heap-based session cleanup scheduler.

  Go's [int] and [int64] are modelled as [Z] with the 64-bit two's
  complement wrap-around written out; [float32] and [float64] as IEEE-754
  values with round-to-nearest-even operations. *)

(** Beside these:

  - [Errors]: [pkg/types] structured error codes and their classes;
  - [Codec] also holds the envelopes; [Graph], [Pb] and [Converters] hold
    the records of [pkg/types] and their wire forms;
  - [Heap]: [container/heap] over its interface; [Scheduler]: the scheduler
    with the heap entries behind pointers, as [UpdateSession],
    [RemoveSession] and [cleanup] use them. *)

From Stdlib Require Import ZArith Lia Bool Strings.Byte.
From Stdlib Require Import Floats.SpecFloat.
From stdpp Require Import base gmap strings list.

Local Open Scope Z_scope.

(** ** Machine integers *)

Module GoInt.

Definition int64_min : Z := - 2 ^ 63.
Definition int64_max : Z := 2 ^ 63 - 1.

(** The values of an [int64] (and of [int] on 64-bit targets). *)
Definition in_int64 (z : Z) : Prop := int64_min <= z <= int64_max.

(** Two's complement reduction of an unbounded result to 64 bits. *)
Definition wrap64 (z : Z) : Z := (z + 2 ^ 63) mod 2 ^ 64 - 2 ^ 63.

Definition add64 (a b : Z) : Z := wrap64 (a + b).
Definition sub64 (a b : Z) : Z := wrap64 (a - b).

End GoInt.

(** ** Sessions ([pkg/types], session.go) *)

Module Types.
Import GoInt.

(** Quota errors. A [nil] error is [None]. *)
Inductive error : Set :=
| ErrEntityQuotaExceeded
| ErrRelationshipQuotaExceeded
| ErrDocumentQuotaExceeded
| ErrMemoryQuotaExceeded.

(** The session record. The mutex [mu] is left out: every method holds it
    for its whole body, so each method is one atomic step on the record. *)
Record Session : Type := mkSession {
  ID : string;
  CreatedAt : Z;
  LastAccess : Z;
  TTL : Z;
  IdleTTL : Z;
  MaxEntities : Z;
  MaxRelationships : Z;
  MaxDocuments : Z;
  MaxMemoryBytes : Z;
  EntityCount : Z;
  RelationshipCount : Z;
  DocumentCount : Z;
  MemoryBytes : Z
}.

(** [NewSession id], with [now] the reading of the clock. *)
Definition NewSession (id : string) (now : Z) : Session :=
  mkSession id now now 0 0 0 0 0 0 0 0 0 0.

Definition with_LastAccess (v : Z) (s : Session) : Session :=
  mkSession (ID s) (CreatedAt s) v (TTL s) (IdleTTL s)
    (MaxEntities s) (MaxRelationships s) (MaxDocuments s) (MaxMemoryBytes s)
    (EntityCount s) (RelationshipCount s) (DocumentCount s) (MemoryBytes s).

Definition with_TTL (v : Z) (s : Session) : Session :=
  mkSession (ID s) (CreatedAt s) (LastAccess s) v (IdleTTL s)
    (MaxEntities s) (MaxRelationships s) (MaxDocuments s) (MaxMemoryBytes s)
    (EntityCount s) (RelationshipCount s) (DocumentCount s) (MemoryBytes s).

Definition with_IdleTTL (v : Z) (s : Session) : Session :=
  mkSession (ID s) (CreatedAt s) (LastAccess s) (TTL s) v
    (MaxEntities s) (MaxRelationships s) (MaxDocuments s) (MaxMemoryBytes s)
    (EntityCount s) (RelationshipCount s) (DocumentCount s) (MemoryBytes s).

Definition with_EntityCount (v : Z) (s : Session) : Session :=
  mkSession (ID s) (CreatedAt s) (LastAccess s) (TTL s) (IdleTTL s)
    (MaxEntities s) (MaxRelationships s) (MaxDocuments s) (MaxMemoryBytes s)
    v (RelationshipCount s) (DocumentCount s) (MemoryBytes s).

Definition with_RelationshipCount (v : Z) (s : Session) : Session :=
  mkSession (ID s) (CreatedAt s) (LastAccess s) (TTL s) (IdleTTL s)
    (MaxEntities s) (MaxRelationships s) (MaxDocuments s) (MaxMemoryBytes s)
    (EntityCount s) v (DocumentCount s) (MemoryBytes s).

Definition with_DocumentCount (v : Z) (s : Session) : Session :=
  mkSession (ID s) (CreatedAt s) (LastAccess s) (TTL s) (IdleTTL s)
    (MaxEntities s) (MaxRelationships s) (MaxDocuments s) (MaxMemoryBytes s)
    (EntityCount s) (RelationshipCount s) v (MemoryBytes s).

Definition with_MemoryBytes (v : Z) (s : Session) : Session :=
  mkSession (ID s) (CreatedAt s) (LastAccess s) (TTL s) (IdleTTL s)
    (MaxEntities s) (MaxRelationships s) (MaxDocuments s) (MaxMemoryBytes s)
    (EntityCount s) (RelationshipCount s) (DocumentCount s) v.

(** [Touch], with [now] the reading of the clock. *)
Definition Touch (now : Z) (s : Session) : Session := with_LastAccess now s.

Definition SetTTL (ttl : Z) (s : Session) : Session := with_TTL ttl s.
Definition SetIdleTTL (idleTTL : Z) (s : Session) : Session := with_IdleTTL idleTTL s.

Definition SetQuotas (maxEntities maxRelationships maxDocuments maxMemoryBytes : Z)
    (s : Session) : Session :=
  mkSession (ID s) (CreatedAt s) (LastAccess s) (TTL s) (IdleTTL s)
    maxEntities maxRelationships maxDocuments maxMemoryBytes
    (EntityCount s) (RelationshipCount s) (DocumentCount s) (MemoryBytes s).

(** *** Quota checks *)

Definition CheckEntityQuota (s : Session) (count : Z) : option error :=
  if (0 <? MaxEntities s) && (MaxEntities s <? add64 (EntityCount s) count)
  then Some ErrEntityQuotaExceeded else None.

Definition CheckRelationshipQuota (s : Session) (count : Z) : option error :=
  if (0 <? MaxRelationships s)
     && (MaxRelationships s <? add64 (RelationshipCount s) count)
  then Some ErrRelationshipQuotaExceeded else None.

Definition CheckDocumentQuota (s : Session) (count : Z) : option error :=
  if (0 <? MaxDocuments s) && (MaxDocuments s <? add64 (DocumentCount s) count)
  then Some ErrDocumentQuotaExceeded else None.

Definition CheckMemoryQuota (s : Session) (bytes : Z) : option error :=
  if (0 <? MaxMemoryBytes s) && (MaxMemoryBytes s <? add64 (MemoryBytes s) bytes)
  then Some ErrMemoryQuotaExceeded else None.

(** *** Usage counters *)

Definition IncrementEntity (count : Z) (s : Session) : Session :=
  with_EntityCount (add64 (EntityCount s) count) s.

Definition DecrementEntity (count : Z) (s : Session) : Session :=
  let c := sub64 (EntityCount s) count in
  with_EntityCount (if c <? 0 then 0 else c) s.

Definition IncrementRelationship (count : Z) (s : Session) : Session :=
  with_RelationshipCount (add64 (RelationshipCount s) count) s.

Definition DecrementRelationship (count : Z) (s : Session) : Session :=
  let c := sub64 (RelationshipCount s) count in
  with_RelationshipCount (if c <? 0 then 0 else c) s.

Definition IncrementDocument (count : Z) (s : Session) : Session :=
  with_DocumentCount (add64 (DocumentCount s) count) s.

Definition DecrementDocument (count : Z) (s : Session) : Session :=
  let c := sub64 (DocumentCount s) count in
  with_DocumentCount (if c <? 0 then 0 else c) s.

Definition AddMemory (bytes : Z) (s : Session) : Session :=
  with_MemoryBytes (add64 (MemoryBytes s) bytes) s.

Definition SubMemory (bytes : Z) (s : Session) : Session :=
  let c := sub64 (MemoryBytes s) bytes in
  with_MemoryBytes (if c <? 0 then 0 else c) s.

(** *** Expiry *)

(** [IsExpired], with [now] the reading of the clock. *)
Definition IsExpired (s : Session) (now : Z) : bool :=
  if (0 <? TTL s) && (add64 (CreatedAt s) (TTL s) <? now) then true
  else if (0 <? IdleTTL s) && (add64 (LastAccess s) (IdleTTL s) <? now) then true
  else false.

Definition GetExpireAt (s : Session) : Z :=
  let expireAt := 0 in
  let expireAt := if 0 <? TTL s then add64 (CreatedAt s) (TTL s) else expireAt in
  if 0 <? IdleTTL s then
    let idleExpire := add64 (LastAccess s) (IdleTTL s) in
    if (expireAt =? 0) || (idleExpire <? expireAt) then idleExpire else expireAt
  else expireAt.

(** [GetTTLRemaining], with [now] the reading of the clock. *)
Definition GetTTLRemaining (s : Session) (now : Z) : Z :=
  let expireAt := GetExpireAt s in
  if expireAt =? 0 then -1
  else
    let remaining := sub64 expireAt now in
    if remaining <? 0 then 0 else remaining.

(** *** The four quota-limited resources, uniformly *)

Inductive Resource : Set := Entities | Relationships | Documents | Memory.

#[global] Instance Resource_eq_dec : EqDecision Resource.
Proof. solve_decision. Defined.

Definition quota_max (r : Resource) (s : Session) : Z :=
  match r with
  | Entities => MaxEntities s
  | Relationships => MaxRelationships s
  | Documents => MaxDocuments s
  | Memory => MaxMemoryBytes s
  end.

Definition usage (r : Resource) (s : Session) : Z :=
  match r with
  | Entities => EntityCount s
  | Relationships => RelationshipCount s
  | Documents => DocumentCount s
  | Memory => MemoryBytes s
  end.

Definition quota_error (r : Resource) : error :=
  match r with
  | Entities => ErrEntityQuotaExceeded
  | Relationships => ErrRelationshipQuotaExceeded
  | Documents => ErrDocumentQuotaExceeded
  | Memory => ErrMemoryQuotaExceeded
  end.

Definition CheckQuota (r : Resource) : Session -> Z -> option error :=
  match r with
  | Entities => CheckEntityQuota
  | Relationships => CheckRelationshipQuota
  | Documents => CheckDocumentQuota
  | Memory => CheckMemoryQuota
  end.

Definition Increment (r : Resource) : Z -> Session -> Session :=
  match r with
  | Entities => IncrementEntity
  | Relationships => IncrementRelationship
  | Documents => IncrementDocument
  | Memory => AddMemory
  end.

Definition Decrement (r : Resource) : Z -> Session -> Session :=
  match r with
  | Entities => DecrementEntity
  | Relationships => DecrementRelationship
  | Documents => DecrementDocument
  | Memory => SubMemory
  end.

(** A call of one of the eight counter methods. *)
Inductive counter_op : Set :=
| OpIncrement (r : Resource) (count : Z)
| OpDecrement (r : Resource) (count : Z).

Definition apply_op (s : Session) (o : counter_op) : Session :=
  match o with
  | OpIncrement r count => Increment r count s
  | OpDecrement r count => Decrement r count s
  end.

Definition run_ops (ops : list counter_op) (s : Session) : Session :=
  foldl apply_op s ops.

Definition counters_nonneg (s : Session) : Prop :=
  forall r, 0 <= usage r s.

(** An increment is in range when its amount is non-negative and the sum
    still fits the counter. Decrements carry no condition. *)
Definition op_in_range (s : Session) (o : counter_op) : Prop :=
  match o with
  | OpIncrement r count => 0 <= count /\ usage r s + count <= int64_max
  | OpDecrement _ _ => True
  end.

Fixpoint ops_in_range (s : Session) (ops : list counter_op) : Prop :=
  match ops with
  | [] => True
  | o :: ops' => op_in_range s o /\ ops_in_range (apply_op s o) ops'
  end.

(** The deadlines that are set: the absolute one when [TTL > 0], the idle one
    when [IdleTTL > 0]. *)
Definition deadlines (s : Session) : list Z :=
  (if 0 <? TTL s then [CreatedAt s + TTL s] else [])
  ++ (if 0 <? IdleTTL s then [LastAccess s + IdleTTL s] else []).

(** The earliest of some deadlines, [0] when there is none. *)
Definition earliest (ds : list Z) : Z :=
  match ds with
  | [] => 0
  | d :: ds' => foldl Z.min d ds'
  end.

End Types.

(** ** Distance kernels ([pkg/simd])

    distance.go with the widened functions of distance_amd64.go, the build
    for amd64. On the other targets distance_generic.go makes the widened
    functions the scalar ones and the flag is never set. *)

Module Simd.
Import GoInt.

(** *** IEEE-754 binary32 and binary64

    Values are [spec_float]s in canonical form; every operation rounds to
    nearest, ties to even, as Go's arithmetic on [float32] and [float64]
    does. A product and the sum that uses it are rounded one after the
    other (the language lets a compiler fuse them; the amd64 compiler does
    not at its default level). *)

Definition float32 : Set := spec_float.
Definition float64 : Set := spec_float.

Definition f32_zero : float32 := S754_zero false.
Definition f32_add : float32 -> float32 -> float32 := SFadd 24 128.
Definition f32_sub : float32 -> float32 -> float32 := SFsub 24 128.
Definition f32_mul : float32 -> float32 -> float32 := SFmul 24 128.
Definition f32_div : float32 -> float32 -> float32 := SFdiv 24 128.
Definition f32_eqb : float32 -> float32 -> bool := SFeqb.

Definition f64_zero : float64 := S754_zero false.
Definition f64_sub : float64 -> float64 -> float64 := SFsub 53 1024.
Definition f64_mul : float64 -> float64 -> float64 := SFmul 53 1024.
Definition f64_leb : float64 -> float64 -> bool := SFleb.
Definition f64_ltb : float64 -> float64 -> bool := SFltb.

(** [math.Sqrt]. *)
Definition math_Sqrt : float64 -> float64 := SFsqrt 53 1024.

(** The conversion [float64(x)] of a [float32]: exact, the value is only
    brought to the canonical form of the wider format. *)
Definition float64_of_float32 (x : float32) : float64 :=
  match x with
  | S754_finite s m e => binary_normalize 53 1024 (cond_Zopp s (Zpos m)) e s
  | _ => x
  end.

(** The conversion [float32(x)] of a [float64]: rounds, and overflows to an
    infinity (the language leaves the overflow to the implementation; this
    is amd64's CVTSD2SS). *)
Definition float32_of_float64 (x : float64) : float32 :=
  match x with
  | S754_finite s m e => binary_normalize 24 128 (cond_Zopp s (Zpos m)) e s
  | _ => x
  end.

(** The conversion [int64(x)] of a [float64]: the fraction is discarded.
    Out of range, and for NaN and the infinities, the language leaves the
    result to the implementation; amd64's CVTTSD2SQ gives the least
    [int64]. *)
Definition int64_of_float64 (x : float64) : Z :=
  match x with
  | S754_zero _ => 0
  | S754_finite s m e =>
      let t := cond_Zopp s (match e with
                            | Z0 => Zpos m
                            | Zpos p => Zpos m * 2 ^ Zpos p
                            | Zneg p => Zpos m / 2 ^ Zpos p
                            end) in
      if (int64_min <=? t) && (t <=? int64_max) then t else int64_min
  | _ => int64_min
  end.

(** The conversion [float64(i)] of an [int64]: rounds to the nearest
    binary64. *)
Definition float64_of_int64 (i : Z) : float64 := binary_normalize 53 1024 i 0 false.

(** The constants [0.5] and [1.5]. *)
Definition f64_0_5 : float64 := binary_normalize 53 1024 1 (-1) false.
Definition f64_1_5 : float64 := binary_normalize 53 1024 3 (-1) false.

(** *** Slices and loops

    A slice is a list; an index expression [a[i]] out of range panics,
    which is [None]. *)

Definition index (a : list float32) (i : nat) : option float32 := a !! i.

(** A loop whose index runs over [idxs], threading the loop state; a panic
    in the body ends it. *)
Fixpoint for_each {S : Type} (idxs : list nat) (body : S -> nat -> option S)
    (st : S) : option S :=
  match idxs with
  | [] => Some st
  | i :: idxs' =>
      match body st i with
      | Some st' => for_each idxs' body st'
      | None => None
      end
  end.

(** [for i := range a] *)
Definition range_of (a : list float32) : list nat := seq 0 (length a).

(** The values of [i] in [for ; i+8 <= n; i += 8]. *)
Definition block_starts (n : nat) : list nat :=
  (fun k => 8 * k)%nat <$> seq 0 (n / 8).

(** The values of [i] in the following [for ; i < n; i++]. *)
Definition tail_indices (n : nat) : list nat :=
  seq (8 * (n / 8)) (n - 8 * (n / 8)).

(** The values of [j] in [for j := 0; j < 8; j++]. *)
Definition lanes : list nat := seq 0 8.

(** *** Cosine similarity *)

(** The loop state [dot, normA, normB]. *)
Record cos_acc : Set := mkCosAcc { dot : float32; normA : float32; normB : float32 }.

Definition cos_acc0 : cos_acc := mkCosAcc f32_zero f32_zero f32_zero.

(** The three updates at index [i]. *)
Definition cos_body (a b : list float32) (st : cos_acc) (i : nat) : option cos_acc :=
  ai ← index a i;
  bi ← index b i;
  Some (mkCosAcc (f32_add (dot st) (f32_mul ai bi))
                 (f32_add (normA st) (f32_mul ai ai))
                 (f32_add (normB st) (f32_mul bi bi))).

Definition cosineSimilarityScalar (a b : list float32) : option float32 :=
  if negb (length a =? length b)%nat then Some f32_zero
  else
    st ← for_each (range_of a) (cos_body a b) cos_acc0;
    if f32_eqb (normA st) f32_zero || f32_eqb (normB st) f32_zero then Some f32_zero
    else
      Some (f32_div (dot st)
              (f32_mul (float32_of_float64 (math_Sqrt (float64_of_float32 (normA st))))
                       (float32_of_float64 (math_Sqrt (float64_of_float32 (normB st)))))).

(** [fastSqrt] (distance_amd64.go). The integer [i] is obtained from [x] by
    the numeric conversion [int64(x)], and [y] from [i] by the numeric
    conversion [float64(i)]. *)
Definition fastSqrt (x : float64) : float64 :=
  if f64_leb x f64_zero then f64_zero
  else
    let half := f64_mul x f64_0_5 in
    let i := sub64 0x5fe6eb50c7b537a9 (Z.shiftr (int64_of_float64 x) 1) in
    let y := float64_of_int64 i in
    let y := f64_mul y (f64_sub f64_1_5 (f64_mul (f64_mul half y) y)) in
    f64_mul x y.

Definition float32Sqrt (x : float32) : float32 :=
  float32_of_float64 (fastSqrt (float64_of_float32 x)).

(** The inner loop over the eight lanes of the block starting at [i]. *)
Definition cos_block (a b : list float32) (st : cos_acc) (i : nat) : option cos_acc :=
  for_each lanes (fun st j => cos_body a b st (i + j)%nat) st.

(** [cosineSimilarityAVX2] of distance_amd64.go. *)
Definition cosineSimilarityAVX2 (a b : list float32) : option float32 :=
  let n := length a in
  if negb (n =? length b)%nat then Some f32_zero
  else
    st ← for_each (block_starts n) (cos_block a b) cos_acc0;
    st ← for_each (tail_indices n) (cos_body a b) st;
    if f32_eqb (normA st) f32_zero || f32_eqb (normB st) f32_zero then Some f32_zero
    else Some (f32_div (dot st) (f32_mul (float32Sqrt (normA st)) (float32Sqrt (normB st)))).

(** [CosineSimilarity]; [hasAVX2] is the flag set at start-up from the CPU's
    features. *)
Definition CosineSimilarity (hasAVX2 : bool) (a b : list float32) : option float32 :=
  if negb (length a =? length b)%nat then Some f32_zero
  else if hasAVX2 && (8 <=? length a)%nat then cosineSimilarityAVX2 a b
  else cosineSimilarityScalar a b.

(** *** Euclidean distance *)

Definition euclid_body (a b : list float32) (sum : float32) (i : nat) : option float32 :=
  ai ← index a i;
  bi ← index b i;
  let diff := f32_sub ai bi in
  Some (f32_add sum (f32_mul diff diff)).

Definition euclideanDistanceScalar (a b : list float32) : option float32 :=
  if negb (length a =? length b)%nat then Some f32_zero
  else
    sum ← for_each (range_of a) (euclid_body a b) f32_zero;
    Some (float32_of_float64 (math_Sqrt (float64_of_float32 sum))).

Definition euclideanDistanceAVX2 (a b : list float32) : option float32 :=
  let n := length a in
  if negb (n =? length b)%nat then Some f32_zero
  else
    sum ← for_each (block_starts n)
            (fun sum i => for_each lanes (fun sum j => euclid_body a b sum (i + j)%nat) sum)
            f32_zero;
    sum ← for_each (tail_indices n) (euclid_body a b) sum;
    Some (float32Sqrt sum).

Definition EuclideanDistance (hasAVX2 : bool) (a b : list float32) : option float32 :=
  if negb (length a =? length b)%nat then Some f32_zero
  else if hasAVX2 && (8 <=? length a)%nat then euclideanDistanceAVX2 a b
  else euclideanDistanceScalar a b.

(** *** Dot product *)

Definition dot_body (a b : list float32) (sum : float32) (i : nat) : option float32 :=
  ai ← index a i;
  bi ← index b i;
  Some (f32_add sum (f32_mul ai bi)).

Definition dotProductScalar (a b : list float32) : option float32 :=
  if negb (length a =? length b)%nat then Some f32_zero
  else for_each (range_of a) (dot_body a b) f32_zero.

Definition dotProductAVX2 (a b : list float32) : option float32 :=
  let n := length a in
  if negb (n =? length b)%nat then Some f32_zero
  else
    sum ← for_each (block_starts n)
            (fun sum i => for_each lanes (fun sum j => dot_body a b sum (i + j)%nat) sum)
            f32_zero;
    for_each (tail_indices n) (dot_body a b) sum.

Definition DotProduct (hasAVX2 : bool) (a b : list float32) : option float32 :=
  if negb (length a =? length b)%nat then Some f32_zero
  else if hasAVX2 && (8 <=? length a)%nat then dotProductAVX2 a b
  else dotProductScalar a b.

(** The three updates of the cosine loops, on a pair of components. *)
Definition cos_step (st : cos_acc) (xy : float32 * float32) : cos_acc :=
  mkCosAcc (f32_add (dot st) (f32_mul xy.1 xy.2))
           (f32_add (normA st) (f32_mul xy.1 xy.1))
           (f32_add (normB st) (f32_mul xy.2 xy.2)).

(** The end of both cosine functions, for the square root [sqrt]. *)
Definition cos_finish (sqrt : float32 -> float32) (st : cos_acc) : float32 :=
  if f32_eqb (normA st) f32_zero || f32_eqb (normB st) f32_zero then f32_zero
  else f32_div (dot st) (f32_mul (sqrt (normA st)) (sqrt (normB st))).

(** The square root of the scalar path. *)
Definition scalarSqrt (x : float32) : float32 :=
  float32_of_float64 (math_Sqrt (float64_of_float32 x)).

(** *** Squared norm, as the cosine loops accumulate it *)

Definition sq_norm (a : list float32) : float32 :=
  foldl (fun acc x => f32_add acc (f32_mul x x)) f32_zero a.

(** A zero of either sign. *)
Definition is_zero (x : float32) : Prop := exists s, x = S754_zero s.

(** The constant [1], and the tolerance [1e-5] as the nearest binary64. *)
Definition f32_one : float32 := binary_normalize 24 128 1 0 false.
Definition tolerance : float64 :=
  SFdiv 53 1024 (binary_normalize 53 1024 1 0 false) (binary_normalize 53 1024 100000 0 false).

(** [|x - y| < 1e-5], computed in binary64. *)
Definition within_tolerance (x y : float32) : bool :=
  f64_ltb (SFabs (f64_sub (float64_of_float32 x) (float64_of_float32 y))) tolerance.

(** The first vector of the standard basis of dimension 8. *)
Definition unit8 : list float32 := f32_one :: replicate 7 f32_zero.

(** *** L2 norm *)

Definition norm_body (a : list float32) (sum : float32) (i : nat) : option float32 :=
  ai ← index a i;
  Some (f32_add sum (f32_mul ai ai)).

Definition l2NormScalar (a : list float32) : option float32 :=
  sum ← for_each (range_of a) (norm_body a) f32_zero;
  Some (float32_of_float64 (math_Sqrt (float64_of_float32 sum))).

Definition l2NormAVX2 (a : list float32) : option float32 :=
  let n := length a in
  sum ← for_each (block_starts n)
          (fun sum i => for_each lanes (fun sum j => norm_body a sum (i + j)%nat) sum)
          f32_zero;
  sum ← for_each (tail_indices n) (norm_body a) sum;
  Some (float32Sqrt sum).

Definition L2Norm (hasAVX2 : bool) (a : list float32) : option float32 :=
  if hasAVX2 && (8 <=? length a)%nat then l2NormAVX2 a else l2NormScalar a.

(** *** What the loops compute, as folds over the components *)

(** The sum of the products of the components, as the dot-product loops
    accumulate it. *)
Definition dot_sum (a b : list float32) : float32 :=
  foldl (fun acc xy => f32_add acc (f32_mul xy.1 xy.2)) f32_zero (zip a b).

(** The sum of the squared differences, as the distance loops accumulate
    it. *)
Definition sq_dist (a b : list float32) : float32 :=
  foldl (fun acc xy => f32_add acc (f32_mul (f32_sub xy.1 xy.2) (f32_sub xy.1 xy.2)))
    f32_zero (zip a b).

(** A number, of either sign: not a NaN and not an infinity. *)
Definition is_finite (x : float32) : Prop :=
  match x with
  | S754_zero _ | S754_finite _ _ _ => True
  | S754_infinity _ | S754_nan => False
  end.

End Simd.

(** ** Bytes and fixed-width integers ([encoding/binary]) *)

Module Bytes.

Definition byte : Set := Byte.byte.

#[global] Instance byte_eq_dec : EqDecision byte := Byte.byte_eq_dec.

Definition Z_of_byte (b : byte) : Z := Z.of_N (Byte.to_N b).

(** The conversion [byte(v)] of an unsigned integer: its low eight bits. *)
Definition byte_of_Z (v : Z) : byte :=
  match Byte.of_N (Z.to_N (v mod 256)) with
  | Some b => b
  | None => Byte.x00
  end.

(** [PutUintN] of [binary.LittleEndian], for [n] bytes:
    [b[0] = byte(v); b[1] = byte(v >> 8); ...]. *)
Fixpoint put_le (n : nat) (v : Z) : list byte :=
  match n with
  | O => []
  | S n' => byte_of_Z v :: put_le n' (Z.shiftr v 8)
  end.

(** [UintN] of [binary.LittleEndian]: [b[0] | b[1]<<8 | ...]. *)
Fixpoint get_le (bs : list byte) : Z :=
  match bs with
  | [] => 0
  | b :: bs' => Z.lor (Z_of_byte b) (Z.shiftl (get_le bs') 8)
  end.

(** [binary.BigEndian]: the same bytes, most significant first. *)
Definition put_be (n : nat) (v : Z) : list byte := rev (put_le n v).
Definition get_be (bs : list byte) : Z := get_le (rev bs).

Inductive ByteOrder : Set := LittleEndian | BigEndian.

Definition put_uint (bo : ByteOrder) (n : nat) (v : Z) : list byte :=
  match bo with LittleEndian => put_le n v | BigEndian => put_be n v end.

Definition get_uint (bo : ByteOrder) (bs : list byte) : Z :=
  match bo with LittleEndian => get_le bs | BigEndian => get_be bs end.

(** The conversion [uint64(x)] of an [int64] and back. *)
Definition uint64_of_int64 (x : Z) : Z := x mod 2 ^ 64.
Definition int64_of_uint64 (u : Z) : Z := GoInt.wrap64 u.

(** *** Readers ([io.Reader] over the bytes that are left) *)

Inductive io_error : Set := EOF | ErrUnexpectedEOF.

(** [io.ReadFull(r, buf)] with [len(buf) = n]: the bytes read and the rest of
    the input, [EOF] when nothing was read, [ErrUnexpectedEOF] when the
    input ended early. *)
Definition ReadFull (r : list byte) (n : nat) : io_error + (list byte * list byte) :=
  if (n <=? length r)%nat then inr (take n r, drop n r)
  else match r with
       | [] => inl EOF
       | _ :: _ => inl ErrUnexpectedEOF
       end.

End Bytes.

(** ** Binary framing of [pkg/codec] (codec.go) *)

Module Codec.
Import Bytes.

Inductive error : Set :=
| ErrMarshal
| ErrIO (e : io_error)
| ErrInvalidSnapshotMagic.

Record WALEntry : Set := mkWALEntry { Op : byte; Payload : list byte }.

(** [EncodeWALEntry(op, payload)]; [marshalled] is what [json.Marshal(payload)]
    returned, [None] for its error. The frame is
    [[1 byte op][4 bytes length][payload]]. *)
Definition EncodeWALEntry (op : byte) (marshalled : option (list byte))
    : error + list byte :=
  match marshalled with
  | None => inl ErrMarshal
  | Some payloadBytes =>
      inr (op :: put_le 4 (Z.of_nat (length payloadBytes) mod 2 ^ 32) ++ payloadBytes)
  end.

(** [DecodeWALEntry(r)], with the rest of the input. *)
Definition DecodeWALEntry (r : list byte) : error + (WALEntry * list byte) :=
  match ReadFull r 1 with
  | inl e => inl (ErrIO e)
  | inr (op, r) =>
      match ReadFull r 4 with
      | inl e => inl (ErrIO e)
      | inr (len, r) =>
          let length := get_le len in
          match ReadFull r (Z.to_nat length) with
          | inl e => inl (ErrIO e)
          | inr (payload, r) =>
              inr (mkWALEntry (hd Byte.x00 op) payload, r)
          end
      end
  end.

Record SnapshotHeader : Set := mkSnapshotHeader {
  Magic : Z;
  Version : Z;
  VectorDim : Z;
  DocCount : Z;
  TUCount : Z;
  EntCount : Z;
  RelCount : Z;
  CommCount : Z;
  QueryCount : Z;
  CreatedAt : Z
}.

(** ["GIB2"] *)
Definition SnapshotMagic : Z := 0x47494232.

(** [EncodeSnapshotHeader]: 64 bytes, little-endian. *)
Definition EncodeSnapshotHeader (h : SnapshotHeader) : list byte :=
  put_le 4 (Magic h) ++ put_le 2 (Version h) ++ put_le 2 (VectorDim h)
  ++ put_le 8 (DocCount h) ++ put_le 8 (TUCount h) ++ put_le 8 (EntCount h)
  ++ put_le 8 (RelCount h) ++ put_le 8 (CommCount h) ++ put_le 8 (QueryCount h)
  ++ put_le 8 (uint64_of_int64 (CreatedAt h)).

(** [buf[i:j]] *)
Definition slice (buf : list byte) (i j : nat) : list byte := take (j - i) (drop i buf).

(** [DecodeSnapshotHeader(r)]. *)
Definition DecodeSnapshotHeader (r : list byte) : error + SnapshotHeader :=
  match ReadFull r 64 with
  | inl e => inl (ErrIO e)
  | inr (buf, _) =>
      let h := mkSnapshotHeader
                 (get_le (slice buf 0 4))
                 (get_le (slice buf 4 6))
                 (get_le (slice buf 6 8))
                 (get_le (slice buf 8 16))
                 (get_le (slice buf 16 24))
                 (get_le (slice buf 24 32))
                 (get_le (slice buf 32 40))
                 (get_le (slice buf 40 48))
                 (get_le (slice buf 48 56))
                 (int64_of_uint64 (get_le (slice buf 56 64))) in
      if negb (Magic h =? SnapshotMagic) then inl ErrInvalidSnapshotMagic
      else inr h
  end.

(** *** Envelopes *)

Definition CodecType : Set := byte.
Definition CodecJSON : CodecType := Byte.x00.
Definition CodecProtobuf : CodecType := Byte.x01.

(** The errors of [EncodeEnvelope] and [DecodeEnvelope]: that of
    [proto.Marshal] or [proto.Unmarshal], that of a read, and the two made
    with [errors.New]. *)
Inductive envelope_error : Set :=
| ErrProto
| ErrRead (e : io_error)
| ErrFrameTooLarge
| ErrLegacyJSON.

(** [64*1024*1024] *)
Definition maxFrame : Z := 64 * 1024 * 1024.

Section Envelope.

(** [pb.Envelope] with [proto.Marshal] and [proto.Unmarshal]; [None] is the
    library's error. *)
Variable Envelope : Type.
Variable Marshal : Envelope -> option (list byte).
Variable Unmarshal : list byte -> option Envelope.

(** [EncodeEnvelope(env)]: [[1 byte codec][4 bytes length][payload]], the
    length big-endian. *)
Definition EncodeEnvelope (env : Envelope) : envelope_error + list byte :=
  match Marshal env with
  | None => inl ErrProto
  | Some data =>
      inr (CodecProtobuf :: put_be 4 (Z.of_nat (length data) mod 2 ^ 32) ++ data)
  end.

(** [DecodeEnvelope(r)]: the envelope or the error, with the codec type
    that is returned beside either, and the rest of the input. *)
Definition DecodeEnvelope (r : list byte)
    : (envelope_error * CodecType) + (Envelope * CodecType * list byte) :=
  match ReadFull r 1 with
  | inl e => inl (ErrRead e, Byte.x00)
  | inr (codecByte, r) =>
      let codecType := hd Byte.x00 codecByte in
      match ReadFull r 4 with
      | inl e => inl (ErrRead e, codecType)
      | inr (len, r) =>
          let length := get_be len in
          if maxFrame <? length then inl (ErrFrameTooLarge, codecType)
          else
            match ReadFull r (Z.to_nat length) with
            | inl e => inl (ErrRead e, codecType)
            | inr (payload, r) =>
                if decide (codecType = CodecProtobuf) then
                  match Unmarshal payload with
                  | None => inl (ErrProto, codecType)
                  | Some env => inr (env, codecType, r)
                  end
                else inl (ErrLegacyJSON, codecType)
            end
      end
  end.

End Envelope.

(** The fields of a header as the struct types them: [uint32], [uint16],
    [uint64] and [int64]. *)
Definition header_in_range (h : SnapshotHeader) : Prop :=
  0 <= Magic h < 2 ^ 32 /\ 0 <= Version h < 2 ^ 16 /\ 0 <= VectorDim h < 2 ^ 16 /\
  0 <= DocCount h < 2 ^ 64 /\ 0 <= TUCount h < 2 ^ 64 /\ 0 <= EntCount h < 2 ^ 64 /\
  0 <= RelCount h < 2 ^ 64 /\ 0 <= CommCount h < 2 ^ 64 /\ 0 <= QueryCount h < 2 ^ 64 /\
  GoInt.in_int64 (CreatedAt h).

End Codec.

(** ** The records of [pkg/types] (types.go) and their wire forms

    A nil slice or map and an empty one are not told apart. Field names
    carry the name of their struct. *)

Module Graph.

Record Document : Type := mkDocument {
  Document_ID : Z;
  Document_ExternalID : string;
  Document_Filename : string;
  Document_Status : string;
  Document_Attrs : gmap string string;
  Document_CreatedAt : Z
}.

Record TextUnit : Type := mkTextUnit {
  TextUnit_ID : Z;
  TextUnit_ExternalID : string;
  TextUnit_DocumentID : Z;
  TextUnit_Content : string;
  TextUnit_EntityIDs : list Z;
  TextUnit_TokenCount : Z;
  TextUnit_CreatedAt : Z
}.

Record Entity : Type := mkEntity {
  Entity_ID : Z;
  Entity_ExternalID : string;
  Entity_Title : string;
  Entity_Type : string;
  Entity_Description : string;
  Entity_Attrs : gmap string string;
  Entity_TextUnitIDs : list Z;
  Entity_CreatedAt : Z
}.

Record Relationship : Type := mkRelationship {
  Relationship_ID : Z;
  Relationship_ExternalID : string;
  Relationship_SourceID : Z;
  Relationship_TargetID : Z;
  Relationship_Type : string;
  Relationship_Description : string;
  Relationship_Weight : Simd.float32;
  Relationship_TextUnitIDs : list Z;
  Relationship_CreatedAt : Z
}.

Record Community : Type := mkCommunity {
  Community_ID : Z;
  Community_ExternalID : string;
  Community_Title : string;
  Community_Level : Z;
  Community_EntityIDs : list Z;
  Community_RelationshipIDs : list Z;
  Community_Summary : string;
  Community_FullContent : string;
  Community_CreatedAt : Z
}.

(** [AddEntityID], [AddTextUnitID]: append unless present. *)
Fixpoint contains (ids : list Z) (id : Z) : bool :=
  match ids with
  | [] => false
  | x :: ids' => if x =? id then true else contains ids' id
  end.

Definition add_id (ids : list Z) (id : Z) : list Z :=
  if contains ids id then ids else ids ++ [id].

(** [RemoveEntityID], [RemoveTextUnitID]: cut out the first occurrence. *)
Fixpoint remove_id (ids : list Z) (id : Z) : list Z :=
  match ids with
  | [] => []
  | x :: ids' => if x =? id then ids' else x :: remove_id ids' id
  end.

Definition TextUnit_AddEntityID (entityID : Z) (t : TextUnit) : TextUnit :=
  mkTextUnit (TextUnit_ID t) (TextUnit_ExternalID t) (TextUnit_DocumentID t)
    (TextUnit_Content t) (add_id (TextUnit_EntityIDs t) entityID)
    (TextUnit_TokenCount t) (TextUnit_CreatedAt t).

Definition TextUnit_RemoveEntityID (entityID : Z) (t : TextUnit) : TextUnit :=
  mkTextUnit (TextUnit_ID t) (TextUnit_ExternalID t) (TextUnit_DocumentID t)
    (TextUnit_Content t) (remove_id (TextUnit_EntityIDs t) entityID)
    (TextUnit_TokenCount t) (TextUnit_CreatedAt t).

End Graph.

(** The messages of [proto/gibrampb], with the fields that the converters
    of codec.go write and read. *)
Module Pb.

Record Document : Type := mkDocument {
  Document_Id : Z;
  Document_ExternalId : string;
  Document_Filename : string;
  Document_Status : string;
  Document_CreatedAt : Z
}.

Record TextUnit : Type := mkTextUnit {
  TextUnit_Id : Z;
  TextUnit_ExternalId : string;
  TextUnit_DocumentId : Z;
  TextUnit_Content : string;
  TextUnit_TokenCount : Z;
  TextUnit_EntityIds : list Z;
  TextUnit_CreatedAt : Z
}.

Record Entity : Type := mkEntity {
  Entity_Id : Z;
  Entity_ExternalId : string;
  Entity_Title : string;
  Entity_Type : string;
  Entity_Description : string;
  Entity_TextunitIds : list Z;
  Entity_CreatedAt : Z
}.

Record Relationship : Type := mkRelationship {
  Relationship_Id : Z;
  Relationship_ExternalId : string;
  Relationship_SourceId : Z;
  Relationship_TargetId : Z;
  Relationship_Type : string;
  Relationship_Description : string;
  Relationship_Weight : Simd.float32;
  Relationship_CreatedAt : Z
}.

Record Community : Type := mkCommunity {
  Community_Id : Z;
  Community_ExternalId : string;
  Community_Title : string;
  Community_Summary : string;
  Community_FullContent : string;
  Community_Level : Z;
  Community_EntityIds : list Z;
  Community_RelationshipIds : list Z;
  Community_CreatedAt : Z
}.

End Pb.

(** ** The type converters of [pkg/codec] (codec.go) *)

Module Converters.

(** The conversion [int32(x)] of an [int]. *)
Definition int32 (x : Z) : Z := (x + 2 ^ 31) mod 2 ^ 32 - 2 ^ 31.

Definition DocumentToProto (doc : Graph.Document) : Pb.Document :=
  Pb.mkDocument (Graph.Document_ID doc) (Graph.Document_ExternalID doc)
    (Graph.Document_Filename doc) (Graph.Document_Status doc)
    (Graph.Document_CreatedAt doc).

Definition ProtoToDocument (doc : Pb.Document) : Graph.Document :=
  Graph.mkDocument (Pb.Document_Id doc) (Pb.Document_ExternalId doc)
    (Pb.Document_Filename doc) (Pb.Document_Status doc) ∅
    (Pb.Document_CreatedAt doc).

Definition TextUnitToProto (tu : Graph.TextUnit) : Pb.TextUnit :=
  Pb.mkTextUnit (Graph.TextUnit_ID tu) (Graph.TextUnit_ExternalID tu)
    (Graph.TextUnit_DocumentID tu) (Graph.TextUnit_Content tu)
    (int32 (Graph.TextUnit_TokenCount tu)) (Graph.TextUnit_EntityIDs tu)
    (Graph.TextUnit_CreatedAt tu).

Definition ProtoToTextUnit (tu : Pb.TextUnit) : Graph.TextUnit :=
  Graph.mkTextUnit (Pb.TextUnit_Id tu) (Pb.TextUnit_ExternalId tu)
    (Pb.TextUnit_DocumentId tu) (Pb.TextUnit_Content tu) (Pb.TextUnit_EntityIds tu)
    (Pb.TextUnit_TokenCount tu) (Pb.TextUnit_CreatedAt tu).

Definition EntityToProto (ent : Graph.Entity) : Pb.Entity :=
  Pb.mkEntity (Graph.Entity_ID ent) (Graph.Entity_ExternalID ent) (Graph.Entity_Title ent)
    (Graph.Entity_Type ent) (Graph.Entity_Description ent) (Graph.Entity_TextUnitIDs ent)
    (Graph.Entity_CreatedAt ent).

Definition ProtoToEntity (ent : Pb.Entity) : Graph.Entity :=
  Graph.mkEntity (Pb.Entity_Id ent) (Pb.Entity_ExternalId ent) (Pb.Entity_Title ent)
    (Pb.Entity_Type ent) (Pb.Entity_Description ent) ∅ (Pb.Entity_TextunitIds ent)
    (Pb.Entity_CreatedAt ent).

Definition RelationshipToProto (rel : Graph.Relationship) : Pb.Relationship :=
  Pb.mkRelationship (Graph.Relationship_ID rel) (Graph.Relationship_ExternalID rel)
    (Graph.Relationship_SourceID rel) (Graph.Relationship_TargetID rel)
    (Graph.Relationship_Type rel) (Graph.Relationship_Description rel)
    (Graph.Relationship_Weight rel) (Graph.Relationship_CreatedAt rel).

Definition ProtoToRelationship (rel : Pb.Relationship) : Graph.Relationship :=
  Graph.mkRelationship (Pb.Relationship_Id rel) (Pb.Relationship_ExternalId rel)
    (Pb.Relationship_SourceId rel) (Pb.Relationship_TargetId rel)
    (Pb.Relationship_Type rel) (Pb.Relationship_Description rel)
    (Pb.Relationship_Weight rel) [] (Pb.Relationship_CreatedAt rel).

Definition CommunityToProto (comm : Graph.Community) : Pb.Community :=
  Pb.mkCommunity (Graph.Community_ID comm) (Graph.Community_ExternalID comm)
    (Graph.Community_Title comm) (Graph.Community_Summary comm)
    (Graph.Community_FullContent comm) (int32 (Graph.Community_Level comm))
    (Graph.Community_EntityIDs comm) (Graph.Community_RelationshipIDs comm)
    (Graph.Community_CreatedAt comm).

Definition ProtoToCommunity (comm : Pb.Community) : Graph.Community :=
  Graph.mkCommunity (Pb.Community_Id comm) (Pb.Community_ExternalId comm)
    (Pb.Community_Title comm) (Pb.Community_Level comm) (Pb.Community_EntityIds comm)
    (Pb.Community_RelationshipIds comm) (Pb.Community_Summary comm)
    (Pb.Community_FullContent comm) (Pb.Community_CreatedAt comm).

End Converters.

(** ** xxHash64 (seed 0), the checksum of WAL entries

    The XXH64 algorithm as published, with the five primes, the four lanes
    over stripes of 32 bytes, and the tail in words of 8 and 4 bytes and
    single bytes. All arithmetic is modulo [2 ^ 64]. *)

Module XXHash.
Import Bytes.

Definition mask64 (z : Z) : Z := z mod 2 ^ 64.

Definition prime1 : Z := 0x9E3779B185EBCA87.
Definition prime2 : Z := 0xC2B2AE3D27D4EB4F.
Definition prime3 : Z := 0x165667B19E3779F9.
Definition prime4 : Z := 0x85EBCA77C2B2AE63.
Definition prime5 : Z := 0x27D4EB2F165667C5.

Definition rotl64 (x : Z) (r : Z) : Z :=
  mask64 (Z.lor (Z.shiftl x r) (Z.shiftr x (64 - r))).

Definition round (acc input : Z) : Z :=
  mask64 (rotl64 (mask64 (acc + input * prime2)) 31 * prime1).

Definition mergeRound (acc val : Z) : Z :=
  mask64 (Z.lxor acc (round 0 val) * prime1 + prime4).

(** The four lanes over the 32-byte stripes; [fuel] bounds the number of stripes. *)
Fixpoint stripes (fuel : nat) (bs : list byte) (v1 v2 v3 v4 : Z)
    : Z * Z * Z * Z * list byte :=
  match fuel with
  | O => (v1, v2, v3, v4, bs)
  | S fuel' =>
      if (32 <=? length bs)%nat then
        stripes fuel' (drop 32 bs)
          (round v1 (get_le (take 8 bs)))
          (round v2 (get_le (take 8 (drop 8 bs))))
          (round v3 (get_le (take 8 (drop 16 bs))))
          (round v4 (get_le (take 8 (drop 24 bs))))
      else (v1, v2, v3, v4, bs)
  end.

(** The tail of fewer than 32 bytes: words of 8, one word of 4, single bytes. *)
Fixpoint finalize (fuel : nat) (bs : list byte) (h : Z) : Z :=
  match fuel with
  | O => h
  | S fuel' =>
      if (8 <=? length bs)%nat then
        let k1 := round 0 (get_le (take 8 bs)) in
        finalize fuel' (drop 8 bs)
          (mask64 (rotl64 (Z.lxor h k1) 27 * prime1 + prime4))
      else if (4 <=? length bs)%nat then
        finalize fuel' (drop 4 bs)
          (mask64 (rotl64 (Z.lxor h (mask64 (get_le (take 4 bs) * prime1))) 23 * prime2
                   + prime3))
      else
        match bs with
        | [] => h
        | b :: bs' =>
            finalize fuel' bs'
              (mask64 (rotl64 (Z.lxor h (mask64 (Z_of_byte b * prime5))) 11 * prime1))
        end
  end.

Definition avalanche (h : Z) : Z :=
  let h := Z.lxor h (Z.shiftr h 33) in
  let h := mask64 (h * prime2) in
  let h := Z.lxor h (Z.shiftr h 29) in
  let h := mask64 (h * prime3) in
  Z.lxor h (Z.shiftr h 32).

Definition xxHash64 (bs : list byte) : Z :=
  let n := length bs in
  let '(h, rest) :=
    if (32 <=? n)%nat then
      let '(v1, v2, v3, v4, rest) :=
        stripes n bs (mask64 (prime1 + prime2)) prime2 0 (mask64 (0 - prime1)) in
      let h := mask64 (rotl64 v1 1 + rotl64 v2 7 + rotl64 v3 12 + rotl64 v4 18) in
      (mergeRound (mergeRound (mergeRound (mergeRound h v1) v2) v3) v4, rest)
    else (prime5, bs) in
  avalanche (finalize n rest (mask64 (h + Z.of_nat n))).

End XXHash.

(** ** WAL entries and snapshot files of [pkg/backup]

    The WAL writer and the snapshot writer and reader of [pkg/backup] are
    exercised by backup_test.go and critical_test.go; their format is taken
    from sections 4.4, 4.5 and 6 of the specification. *)

Module Backup.
Import Bytes XXHash.

(** Modelled from the spec: the WAL entry of [pkg/backup] (the record behind
    [WAL.Append(type, key, payload)]), with the fields of the entry layout of
    section 4.4. The type is kept as its byte on disk (Insert, Update, Delete
    and Checkpoint are four distinct bytes). *)
Record WALEntry : Set := mkWALEntry {
  EntryType : byte;
  LSN : Z;
  Timestamp : Z;
  Key : list byte;
  Payload : list byte
}.

(** Modelled from the spec: the ranges of the fields of a WAL entry: the LSN
    is a [u64], the timestamp a count of unix nanoseconds in an [int64], and
    the two lengths fit their four bytes. *)
Definition entry_in_range (e : WALEntry) : Prop :=
  0 <= LSN e < 2 ^ 64 /\
  GoInt.in_int64 (Timestamp e) /\
  Z.of_nat (length (Key e)) < 2 ^ 32 /\
  Z.of_nat (length (Payload e)) < 2 ^ 32.

(** Modelled from the spec: the bytes of a WAL entry before its checksum,
    [[1 byte type][8 bytes LSN][8 bytes unix-nanos timestamp][4 bytes key-len]
    [key bytes][4 bytes payload-len][payload bytes]]. The byte order [bo] of
    the integers is not fixed by the specification. *)
Definition entry_body (bo : ByteOrder) (e : WALEntry) : list byte :=
  [EntryType e]
  ++ put_uint bo 8 (LSN e)
  ++ put_uint bo 8 (uint64_of_int64 (Timestamp e))
  ++ put_uint bo 4 (Z.of_nat (length (Key e)))
  ++ Key e
  ++ put_uint bo 4 (Z.of_nat (length (Payload e)))
  ++ Payload e.

(** Modelled from the spec: the WAL entry encoder of [pkg/backup]: the body
    followed by [[8 bytes xxHash64 over all preceding bytes of this entry]]. *)
Definition encodeEntry (bo : ByteOrder) (e : WALEntry) : list byte :=
  let body := entry_body bo e in
  body ++ put_uint bo 8 (xxHash64 body).

(** Modelled from the spec: what ends the reading of entries: a short tail,
    which is no error ([truncated tails are expected after crashes]), and
    [WALCorrupt] on a checksum mismatch. *)
Inductive decode_error : Set :=
| ShortTail      (* the input ends inside the entry *)
| WALCorrupt.    (* the stored checksum is not that of the bytes read *)

(** Take [n] bytes off the input, if it has that many. *)
Definition read_bytes (n : nat) (r : list byte) : option (list byte * list byte) :=
  if (n <=? length r)%nat then Some (take n r, drop n r) else None.

(** Modelled from the spec: the WAL entry decoder of [pkg/backup] (one step
    of [ReadEntries]): reads the fields in the order of the layout, verifies
    the checksum over all bytes read before it, and returns the entry with the
    rest of the input. *)
Definition decodeEntry (bo : ByteOrder) (r : list byte)
    : decode_error + (WALEntry * list byte) :=
  match read_bytes 1 r with
  | None => inl ShortTail
  | Some (ty, r1) =>
  match read_bytes 8 r1 with
  | None => inl ShortTail
  | Some (lsn, r2) =>
  match read_bytes 8 r2 with
  | None => inl ShortTail
  | Some (ts, r3) =>
  match read_bytes 4 r3 with
  | None => inl ShortTail
  | Some (klen, r4) =>
  match read_bytes (Z.to_nat (get_uint bo klen)) r4 with
  | None => inl ShortTail
  | Some (key, r5) =>
  match read_bytes 4 r5 with
  | None => inl ShortTail
  | Some (plen, r6) =>
  match read_bytes (Z.to_nat (get_uint bo plen)) r6 with
  | None => inl ShortTail
  | Some (payload, r7) =>
  match read_bytes 8 r7 with
  | None => inl ShortTail
  | Some (sum, rest) =>
      let body := ty ++ lsn ++ ts ++ klen ++ key ++ plen ++ payload in
      if get_uint bo sum =? xxHash64 body then
        inr (mkWALEntry (hd Byte.x00 ty) (get_uint bo lsn)
               (int64_of_uint64 (get_uint bo ts)) key payload, rest)
      else inl WALCorrupt
  end end end end end end end end.

(** Modelled from the spec: the magic of snapshot files, [GRAM]. *)
Definition magic : list byte := ["G"; "R"; "A"; "M"]%byte.

(** Modelled from the spec: the errors of the snapshot reader. *)
Inductive snapshot_error : Set :=
| ErrOpen            (* the file cannot be opened *)
| ErrInvalidMagic    (* the first four bytes are missing or are not the magic *)
| SnapshotCorrupt.   (* the input ends before the header is complete *)

(** Modelled from the spec: an open snapshot reader of [pkg/backup]: the
    fixed-size header that follows the magic (version, timestamp,
    LSN-at-prepare, rolling checksum placeholder, flags; the specification
    gives the header's size as 48 to 64 bytes and not the width of its
    fields, so they are kept as read) and the compressed stream that is left
    to read. *)
Record SnapshotReader : Set := mkSnapshotReader {
  header_fields : list byte;
  stream : list byte
}.

(** Modelled from the spec: the snapshot writer of [pkg/backup], as the bytes
    of the file it commits: [4-byte magic GRAM, fixed-size header, then a
    gzip-compressed stream of named sections] and the footer; [fields] are
    the [header_size - 4] bytes of the header after the magic, [body] the
    compressed stream and the footer. *)
Definition snapshot_file (fields body : list byte) : list byte :=
  magic ++ fields ++ body.

Section Snapshot.

(** The size of the header, magic included. *)
Variable header_size : nat.

(** Modelled from the spec: [NewSnapshotReader] of [pkg/backup]:
    [open, read+validate magic, read header]; [file] is the content of the
    file at the path, [None] when there is no such file. *)
Definition NewSnapshotReader (file : option (list byte))
    : snapshot_error + SnapshotReader :=
  match file with
  | None => inl ErrOpen
  | Some bytes =>
      match read_bytes 4 bytes with
      | None => inl ErrInvalidMagic
      | Some (m, r) =>
          if bool_decide (m = magic) then
            match read_bytes (header_size - 4) r with
            | None => inl SnapshotCorrupt
            | Some (fields, body) => inr (mkSnapshotReader fields body)
            end
          else inl ErrInvalidMagic
      end
  end.

End Snapshot.

End Backup.

(** ** The cleanup scheduler ([pkg/engine], cleanup_scheduler.go) *)

Module Engine.
Import Types.

Record sessionExpiry : Type := mkSessionExpiry {
  sessionID : string;
  expireAt : Z;
  index : Z
}.

Definition with_index (i : Z) (e : sessionExpiry) : sessionExpiry :=
  mkSessionExpiry (sessionID e) (expireAt e) i.

(** [expiryHeap], a slice of entries. An index out of range panics, which
    is [None]. *)
Abbreviation expiryHeap := (list sessionExpiry).

Definition Len (h : expiryHeap) : nat := length h.

Definition Less (h : expiryHeap) (i j : nat) : option bool :=
  a ← h !! i;
  b ← h !! j;
  Some (expireAt a <? expireAt b).

Definition Swap (h : expiryHeap) (i j : nat) : option expiryHeap :=
  a ← h !! i;
  b ← h !! j;
  Some (<[j := with_index (Z.of_nat j) a]> (<[i := with_index (Z.of_nat i) b]> h)).

Definition Push (h : expiryHeap) (item : sessionExpiry) : expiryHeap :=
  h ++ [with_index (Z.of_nat (length h)) item].

(** The method [Pop]: the last entry and the slice without it. *)
Definition Pop (h : expiryHeap) : option (sessionExpiry * expiryHeap) :=
  item ← h !! (length h - 1)%nat;
  Some (with_index (-1) item, take (length h - 1) h).

(** [down] of [container/heap]; every iteration moves [i] to a child, so
    [fuel] iterations with [n <= i + fuel] are never used up. *)
Fixpoint down (fuel : nat) (h : expiryHeap) (i n : nat) : option expiryHeap :=
  match fuel with
  | O => Some h
  | S fuel' =>
      let j1 := (2 * i + 1)%nat in
      if (n <=? j1)%nat then Some h
      else
        let j2 := (j1 + 1)%nat in
        match (if (j2 <? n)%nat then Less h j2 j1 else Some false) with
        | None => None
        | Some right_less =>
            let j := if right_less then j2 else j1 in
            match Less h j i with
            | None => None
            | Some less =>
                if negb less then Some h
                else
                  match Swap h i j with
                  | None => None
                  | Some h' => down fuel' h' j n
                  end
            end
        end
  end.

(** [heap.Pop] of [container/heap]. *)
Definition heap_Pop (h : expiryHeap) : option (sessionExpiry * expiryHeap) :=
  let n := (Len h - 1)%nat in
  h ← Swap h 0 n;
  h ← down n h 0 n;
  Pop h.

(** The scheduler: the heap and the keys of [heapIndex]. The values of
    [heapIndex] are the heap's own entries and [cleanup] never reads them. *)
Record SessionCleanupScheduler : Type := mkScheduler {
  heap : expiryHeap;
  heapIndex : gset string
}.

(** The first loop of [cleanup]: pop while the root is due. One entry
    leaves the heap per iteration, so [fuel = Len] iterations are enough. *)
Fixpoint collect (fuel : nat) (now : Z) (s : SessionCleanupScheduler)
    (toRemove : list string) : option (SessionCleanupScheduler * list string) :=
  match fuel with
  | O => Some (s, toRemove)
  | S fuel' =>
      match heap s !! 0%nat with
      | Some root =>
          if expireAt root <=? now then
            '(expiry, h) ← heap_Pop (heap s);
            collect fuel' now
              (mkScheduler h (heapIndex s ∖ {[sessionID expiry]}))
              (toRemove ++ [sessionID expiry])
          else Some (s, toRemove)
      | None => Some (s, toRemove)
      end
  end.

(** One iteration of the second loop of [cleanup]; [now] is the clock as
    [IsExpired] reads it. *)
Definition evict_one (now : Z) (sessions : gmap string Session) (sessionID : string)
    : gmap string Session :=
  match sessions !! sessionID with
  | Some sess => if IsExpired sess now then delete sessionID sessions else sessions
  | None => sessions
  end.

(** The second loop of [cleanup], from its [k]-th iteration on. The engine's
    lock keeps the keys of the map, but the sessions themselves are guarded
    by their own locks: [env k] is what other goroutines did to the sessions
    before the [k]-th check, [clock k] the time that check reads. *)
Fixpoint evict (clock : nat -> Z)
    (env : nat -> gmap string Session -> gmap string Session)
    (k : nat) (toRemove : list string) (sessions : gmap string Session)
    : gmap string Session :=
  match toRemove with
  | [] => sessions
  | sessionID :: toRemove' =>
      evict clock env (S k) toRemove' (evict_one (clock k) (env k sessions) sessionID)
  end.

(** The sessions as the [j]-th check after [k] sees them. *)
Fixpoint seen_at (clock : nat -> Z)
    (env : nat -> gmap string Session -> gmap string Session)
    (k : nat) (toRemove : list string) (sessions : gmap string Session) (j : nat)
    : gmap string Session :=
  match j, toRemove with
  | O, _ => env k sessions
  | S j', sessionID :: toRemove' =>
      seen_at clock env (S k) toRemove'
        (evict_one (clock k) (env k sessions) sessionID) j'
  | S _, [] => sessions
  end.

(** [cleanup]: [now] is the clock at entry, [sessions] the engine's map when
    [cleanup] takes the engine's lock. *)
Definition cleanup (now : Z) (clock : nat -> Z)
    (env : nat -> gmap string Session -> gmap string Session)
    (s : SessionCleanupScheduler) (sessions : gmap string Session)
    : option (SessionCleanupScheduler * gmap string Session) :=
  '(s', toRemove) ← collect (Len (heap s)) now s [];
  Some (s', evict clock env 0 toRemove sessions).

(** The interference the engine's lock allows: the keys stay. *)
Definition keeps_keys (env : nat -> gmap string Session -> gmap string Session) : Prop :=
  forall k m, dom (env k m) = dom m.

(** [c] is a child of [p] in the implicit binary tree of the slice. *)
Definition child (p c : nat) : Prop := (c = 2 * p + 1 \/ c = 2 * p + 2)%nat.

(** Heap order on the first [n] entries: no child expires before its
    parent. *)
Definition heap_ordered (h : expiryHeap) (n : nat) : Prop :=
  forall p c a b,
    child p c -> (c < n)%nat ->
    h !! p = Some a -> h !! c = Some b -> expireAt a <= expireAt b.

(** Heap order but for the entry at [i], which may expire after its
    children; the parent of [i] expires no later than the children of [i]. *)
Definition down_inv (h : expiryHeap) (i n : nat) : Prop :=
  (forall p c a b,
     child p c -> (c < n)%nat -> p <> i ->
     h !! p = Some a -> h !! c = Some b -> expireAt a <= expireAt b) /\
  (forall p c a b,
     child p i -> child i c -> (c < n)%nat ->
     h !! p = Some a -> h !! c = Some b -> expireAt a <= expireAt b).

(** What identifies an entry, whatever its position. *)
Definition ident (e : sessionExpiry) : string * Z := (sessionID e, expireAt e).

(** *** An example *)

(** A scheduler tracking three sessions, and the engine's sessions: [a] and
    [b] with an idle TTL of 50 last touched at 100, [c] with none. At check
    1 another goroutine has just touched [b]. *)
Definition example_scheduler : SessionCleanupScheduler :=
  mkScheduler
    [mkSessionExpiry "a" 150 0; mkSessionExpiry "c" 900 1; mkSessionExpiry "b" 150 2]
    {["a"; "b"; "c"]}.

Definition example_sessions : gmap string Session :=
  <["a" := SetIdleTTL 50 (NewSession "a" 100)]>
    (<["b" := SetIdleTTL 50 (NewSession "b" 100)]>
       (<["c" := NewSession "c" 100]> ∅)).

Definition example_env (k : nat) (m : gmap string Session) : gmap string Session :=
  match k with
  | 1%nat => alter (Touch 200) "b" m
  | _ => m
  end.

Definition example_clock (k : nat) : Z := 201 + Z.of_nat k.

End Engine.

(** ** Structured errors of [pkg/types] (errors.go) *)

Module Errors.

(** [type ErrorCode int] *)
Definition ErrorCode : Set := Z.

Definition ErrOK : ErrorCode := 0.
Definition ErrBadRequest : ErrorCode := 1000.
Definition ErrUnauthorized : ErrorCode := 1001.
Definition ErrForbidden : ErrorCode := 1002.
Definition ErrNotFound : ErrorCode := 1003.
Definition ErrConflict : ErrorCode := 1004.
Definition ErrRateLimited : ErrorCode := 1005.
Definition ErrPayloadTooLarge : ErrorCode := 1006.
Definition ErrInvalidInput : ErrorCode := 1007.
Definition ErrInternal : ErrorCode := 2000.
Definition ErrUnavailable : ErrorCode := 2001.
Definition ErrTimeout : ErrorCode := 2002.
Definition ErrShuttingDown : ErrorCode := 2003.
Definition ErrInvalidVector : ErrorCode := 3000.
Definition ErrInvalidEntity : ErrorCode := 3001.
Definition ErrInvalidQuery : ErrorCode := 3002.
Definition ErrCorruptedData : ErrorCode := 3003.
Definition ErrInvalidDocument : ErrorCode := 3004.
Definition ErrInvalidTextUnit : ErrorCode := 3005.
Definition ErrInvalidRelation : ErrorCode := 3006.
Definition ErrInvalidCommunity : ErrorCode := 3007.

(** [ErrorCode.String]: the [switch], case by case. *)
Definition ErrorCode_String (e : ErrorCode) : string :=
  if e =? ErrOK then "OK"
  else if e =? ErrBadRequest then "BAD_REQUEST"
  else if e =? ErrUnauthorized then "UNAUTHORIZED"
  else if e =? ErrForbidden then "FORBIDDEN"
  else if e =? ErrNotFound then "NOT_FOUND"
  else if e =? ErrConflict then "CONFLICT"
  else if e =? ErrRateLimited then "RATE_LIMITED"
  else if e =? ErrPayloadTooLarge then "PAYLOAD_TOO_LARGE"
  else if e =? ErrInvalidInput then "INVALID_INPUT"
  else if e =? ErrInternal then "INTERNAL_ERROR"
  else if e =? ErrUnavailable then "UNAVAILABLE"
  else if e =? ErrTimeout then "TIMEOUT"
  else if e =? ErrShuttingDown then "SHUTTING_DOWN"
  else if e =? ErrInvalidVector then "INVALID_VECTOR"
  else if e =? ErrInvalidEntity then "INVALID_ENTITY"
  else if e =? ErrInvalidQuery then "INVALID_QUERY"
  else if e =? ErrCorruptedData then "CORRUPTED_DATA"
  else if e =? ErrInvalidDocument then "INVALID_DOCUMENT"
  else if e =? ErrInvalidTextUnit then "INVALID_TEXTUNIT"
  else if e =? ErrInvalidRelation then "INVALID_RELATION"
  else if e =? ErrInvalidCommunity then "INVALID_COMMUNITY"
  else "UNKNOWN".

Record GibRAMError : Set := mkGibRAMError {
  Code : ErrorCode;
  Message : string;
  Details : string
}.

(** [GibRAMError.Error]: ["[%s] %s: %s"] with details, ["[%s] %s"] without. *)
Definition Error (e : GibRAMError) : string :=
  if negb (String.eqb (Details e) EmptyString)
  then "[" +:+ ErrorCode_String (Code e) +:+ "] " +:+ Message e +:+ ": " +:+ Details e
  else "[" +:+ ErrorCode_String (Code e) +:+ "] " +:+ Message e.

Definition NewError (code : ErrorCode) (message : string) : GibRAMError :=
  mkGibRAMError code message EmptyString.

Definition NewErrorWithDetails (code : ErrorCode) (message details : string) : GibRAMError :=
  mkGibRAMError code message details.

Definition IsClientError (e : GibRAMError) : bool := (1000 <=? Code e) && (Code e <? 2000).
Definition IsServerError (e : GibRAMError) : bool := (2000 <=? Code e) && (Code e <? 3000).
Definition IsDataError (e : GibRAMError) : bool := (3000 <=? Code e) && (Code e <? 4000).

(** The codes that the [const] block names. *)
Definition named_codes : list ErrorCode :=
  [ErrOK; ErrBadRequest; ErrUnauthorized; ErrForbidden; ErrNotFound; ErrConflict;
   ErrRateLimited; ErrPayloadTooLarge; ErrInvalidInput;
   ErrInternal; ErrUnavailable; ErrTimeout; ErrShuttingDown;
   ErrInvalidVector; ErrInvalidEntity; ErrInvalidQuery; ErrCorruptedData;
   ErrInvalidDocument; ErrInvalidTextUnit; ErrInvalidRelation; ErrInvalidCommunity].

(** The number of the three classes that an error is in. *)
Definition classes (e : GibRAMError) : nat :=
  (Nat.b2n (IsClientError e) + Nat.b2n (IsServerError e) + Nat.b2n (IsDataError e))%nat.

End Errors.

(** ** [container/heap], over [heap.Interface]

    The functions of Go's [container/heap] that the scheduler calls, for any
    implementation of the interface. A method that panics returns [None].
    The loops take fuel: [up] moves [j] to its parent and [down] moves [i] to
    a child at every iteration. *)

Module Heap.

Class Interface (H X : Type) := {
  Len : H -> nat;
  Less : H -> nat -> nat -> option bool;
  Swap : H -> nat -> nat -> option H;
  Push : H -> X -> option H;
  Pop : H -> option (X * H)
}.

Section Generic.
Context {H X : Type} `{!Interface H X}.

Fixpoint up (fuel : nat) (h : H) (j : nat) : option H :=
  match fuel with
  | O => Some h
  | S fuel' =>
      let i := ((j - 1) / 2)%nat in
      if (i =? j)%nat then Some h
      else
        match Less h j i with
        | None => None
        | Some less =>
            if negb less then Some h
            else
              match Swap h i j with
              | None => None
              | Some h' => up fuel' h' i
              end
        end
  end.

(** [down(h, i0, n)], at the iteration that looks at [i]; the result is the
    heap and [i > i0]. *)
Fixpoint down (fuel : nat) (h : H) (i0 i n : nat) : option (H * bool) :=
  match fuel with
  | O => Some (h, (i0 <? i)%nat)
  | S fuel' =>
      let j1 := (2 * i + 1)%nat in
      if (n <=? j1)%nat then Some (h, (i0 <? i)%nat)
      else
        let j2 := (j1 + 1)%nat in
        match (if (j2 <? n)%nat then Less h j2 j1 else Some false) with
        | None => None
        | Some right_less =>
            let j := if right_less then j2 else j1 in
            match Less h j i with
            | None => None
            | Some less =>
                if negb less then Some (h, (i0 <? i)%nat)
                else
                  match Swap h i j with
                  | None => None
                  | Some h' => down fuel' h' i0 j n
                  end
            end
        end
  end.

(** [heap.Push] *)
Definition heap_Push (h : H) (x : X) : option H :=
  h ← Push h x;
  up (Len h) h (Len h - 1).

(** [if !down(h, i, n) { up(h, i) }], as in [heap.Fix] and [heap.Remove]. *)
Definition down_or_up (h : H) (i n : nat) : option H :=
  '(h, moved) ← down n h i i n;
  if negb moved then up (S i) h i else Some h.

(** [heap.Fix] *)
Definition heap_Fix (h : H) (i : nat) : option H := down_or_up h i (Len h).

(** [heap.Pop] *)
Definition heap_Pop (h : H) : option (X * H) :=
  let n := (Len h - 1)%nat in
  h ← Swap h 0 n;
  '(h, _) ← down n h 0 0 n;
  Pop h.

(** [heap.Remove] *)
Definition heap_Remove (h : H) (i : nat) : option (X * H) :=
  let n := (Len h - 1)%nat in
  h ← (if negb (n =? i)%nat then h ← Swap h i n; down_or_up h i n else Some h);
  Pop h.

End Generic.

End Heap.

(** ** The scheduler with its entries behind pointers

    [heapIndex] holds pointers to the entries of the heap, and [Swap] writes
    the index of an entry through its pointer: the entries live in a store,
    and the heap and [heapIndex] hold their addresses. *)

Module Scheduler.
Import GoInt Engine.

(** [expiryHeap] as a slice of entries is an implementation of the
    interface. *)
#[global] Instance value_heap : Heap.Interface expiryHeap sessionExpiry := {|
  Heap.Len := Len;
  Heap.Less := Less;
  Heap.Swap := Swap;
  Heap.Push h item := Some (Push h item);
  Heap.Pop := Pop
|}.

Abbreviation addr := nat.

(** The objects, and [expiryHeap] as a slice of pointers to them. *)
Record memHeap : Type := mkMemHeap {
  objects : gmap addr sessionExpiry;
  slots : list addr
}.

Definition with_expireAt (t : Z) (e : sessionExpiry) : sessionExpiry :=
  mkSessionExpiry (sessionID e) t (index e).

(** [h[i].expireAt < h[j].expireAt] *)
Definition mLess (h : memHeap) (i j : nat) : option bool :=
  a ← slots h !! i;
  x ← objects h !! a;
  b ← slots h !! j;
  y ← objects h !! b;
  Some (expireAt x <? expireAt y).

(** [h[i], h[j] = h[j], h[i]; h[i].index = i; h[j].index = j] *)
Definition mSwap (h : memHeap) (i j : nat) : option memHeap :=
  b ← slots h !! j;
  a ← slots h !! i;
  let s := <[j := a]> (<[i := b]> (slots h)) in
  x ← s !! i;
  ox ← objects h !! x;
  let m := <[x := with_index (Z.of_nat i) ox]> (objects h) in
  y ← s !! j;
  oy ← m !! y;
  Some (mkMemHeap (<[y := with_index (Z.of_nat j) oy]> m) s).

(** [Push]: [item.index = n], and the item is appended. *)
Definition mPush (h : memHeap) (item : addr) : option memHeap :=
  o ← objects h !! item;
  Some (mkMemHeap (<[item := with_index (Z.of_nat (length (slots h))) o]> (objects h))
          (slots h ++ [item])).

(** [Pop]: [item := old[n-1]; item.index = -1], and the slice loses its
    last entry. *)
Definition mPop (h : memHeap) : option (addr * memHeap) :=
  if (length (slots h) =? 0)%nat then None
  else
    item ← slots h !! (length (slots h) - 1)%nat;
    o ← objects h !! item;
    Some (item, mkMemHeap (<[item := with_index (-1) o]> (objects h))
                  (take (length (slots h) - 1) (slots h))).

#[global] Instance mem_heap : Heap.Interface memHeap addr := {|
  Heap.Len h := length (slots h);
  Heap.Less := mLess;
  Heap.Swap := mSwap;
  Heap.Push := mPush;
  Heap.Pop := mPop
|}.

(** [SessionCleanupScheduler]: [heap] and [heapIndex]. *)
Record PtrScheduler : Type := mkPtrScheduler {
  pheap : memHeap;
  pindex : gmap string addr
}.

(** [NewSessionCleanupScheduler]: nothing is tracked; [heap.Init] on the
    empty heap does nothing. *)
Definition NewSessionCleanupScheduler : PtrScheduler :=
  mkPtrScheduler (mkMemHeap ∅ []) ∅.

(** [heap.Fix(&s.heap, i)] and [heap.Remove(&s.heap, i)] for an [int]: at
    [-1], the index of an entry that was popped, [Fix] finds no child and no
    parent and returns; a negative index is out of range anywhere else. *)
Definition Fix_at (h : memHeap) (i : Z) : option memHeap :=
  if i =? -1 then Some h
  else if i <? 0 then None
  else Heap.heap_Fix h (Z.to_nat i).

Definition Remove_at (h : memHeap) (i : Z) : option (addr * memHeap) :=
  if i <? 0 then None else Heap.heap_Remove h (Z.to_nat i).

(** [UpdateSession(sessionID, expireAt)]; the new entry is allocated at an
    address that holds no object. *)
Definition UpdateSession (id : string) (t : Z) (s : PtrScheduler) : option PtrScheduler :=
  match pindex s !! id with
  | Some existing =>
      o ← objects (pheap s) !! existing;
      let h := mkMemHeap (<[existing := with_expireAt t o]> (objects (pheap s)))
                 (slots (pheap s)) in
      h ← Fix_at h (index o);
      Some (mkPtrScheduler h (pindex s))
  | None =>
      let expiry := fresh (dom (objects (pheap s))) in
      let h := mkMemHeap (<[expiry := mkSessionExpiry id t 0]> (objects (pheap s)))
                 (slots (pheap s)) in
      h ← Heap.heap_Push h expiry;
      Some (mkPtrScheduler h (<[id := expiry]> (pindex s)))
  end.

(** [RemoveSession(sessionID)] *)
Definition RemoveSession (id : string) (s : PtrScheduler) : option PtrScheduler :=
  match pindex s !! id with
  | Some expiry =>
      o ← objects (pheap s) !! expiry;
      '(_, h) ← Remove_at (pheap s) (index o);
      Some (mkPtrScheduler h (delete id (pindex s)))
  | None => Some s
  end.

(** The first loop of [cleanup], on the pointers: pop while the root is due,
    and take the session of every popped entry out of [heapIndex]. One entry
    leaves the heap per iteration, so as many iterations as the heap has
    entries are enough. *)
Fixpoint collect_expired (fuel : nat) (now : Z) (s : PtrScheduler)
    (toRemove : list string) : option (PtrScheduler * list string) :=
  match fuel with
  | O => Some (s, toRemove)
  | S fuel' =>
      if (length (slots (pheap s)) =? 0)%nat then Some (s, toRemove)
      else
        a ← slots (pheap s) !! 0%nat;
        o ← objects (pheap s) !! a;
        if expireAt o <=? now then
          '(expiry, h) ← Heap.heap_Pop (pheap s);
          e ← objects h !! expiry;
          collect_expired fuel' now
            (mkPtrScheduler h (delete (sessionID e) (pindex s)))
            (toRemove ++ [sessionID e])
        else Some (s, toRemove)
  end.

(** The entries of the heap, position by position. *)
Definition view (h : memHeap) : list sessionExpiry :=
  omap (fun a => objects h !! a) (slots h).

(** The expiry time that the scheduler holds for each session. *)
Definition expiries (s : PtrScheduler) : gmap string Z :=
  omap (fun a => expireAt <$> objects (pheap s) !! a) (pindex s).

(** The scheduler is well formed: the heap holds each entry once, every entry
    knows its position, [heapIndex] maps the id of every entry of the heap,
    and nothing else, to that entry, and no child expires before its
    parent. *)
Definition well_formed (s : PtrScheduler) : Prop :=
  NoDup (slots (pheap s)) /\
  (forall k a, slots (pheap s) !! k = Some a ->
     exists o, objects (pheap s) !! a = Some o /\ index o = Z.of_nat k) /\
  (forall id a, pindex s !! id = Some a <->
     a ∈ slots (pheap s) /\
     exists o, objects (pheap s) !! a = Some o /\ sessionID o = id) /\
  heap_ordered (view (pheap s)) (length (slots (pheap s))).

(** [getNextExpirationUnlocked] and [GetStats] *)
Definition getNextExpirationUnlocked (s : PtrScheduler) : option Z :=
  if (length (slots (pheap s)) =? 0)%nat then Some 0
  else
    a ← slots (pheap s) !! 0%nat;
    o ← objects (pheap s) !! a;
    Some (expireAt o).

Record SchedulerStats : Set := mkSchedulerStats {
  TrackedSessions : Z;
  NextExpiration : Z
}.

Definition GetStats (s : PtrScheduler) : option SchedulerStats :=
  next ← getNextExpirationUnlocked s;
  Some (mkSchedulerStats (Z.of_nat (length (slots (pheap s)))) next).

(** [time.Hour] and [time.Millisecond], in nanoseconds. *)
Definition Hour : Z := 3600 * 1000000000.
Definition Millisecond : Z := 1000000.

(** [getNextDelay]; [minDelay] is the field of that name and [now] the
    clock. *)
Definition getNextDelay (minDelay now : Z) (s : PtrScheduler) : option Z :=
  if (length (slots (pheap s)) =? 0)%nat then Some Hour
  else
    a ← slots (pheap s) !! 0%nat;
    o ← objects (pheap s) !! a;
    let delay := sub64 (expireAt o) now in
    Some (if delay <? minDelay then minDelay else delay).

(** Every entry knows its position. *)
Definition indexed (h : expiryHeap) : Prop :=
  forall k e, h !! k = Some e -> index e = Z.of_nat k.

(** Heap order on the first [n] entries but for the entry at [j], which may
    expire before its parent; the parent of [j] expires no later than the
    children of [j]. *)
Definition up_inv (h : expiryHeap) (j n : nat) : Prop :=
  (forall p c a b,
     child p c -> (c < n)%nat -> c <> j ->
     h !! p = Some a -> h !! c = Some b -> expireAt a <= expireAt b) /\
  (forall p c a b,
     child p j -> child j c -> (c < n)%nat ->
     h !! p = Some a -> h !! c = Some b -> expireAt a <= expireAt b).

(** Heap order on the first [n] entries but for the entry at [k], whose
    expiry time may be any. *)
Definition fix_inv (h : expiryHeap) (k n : nat) : Prop :=
  (forall p c a b,
     child p c -> (c < n)%nat -> p <> k -> c <> k ->
     h !! p = Some a -> h !! c = Some b -> expireAt a <= expireAt b) /\
  (forall p c a b,
     child p k -> child k c -> (c < n)%nat ->
     h !! p = Some a -> h !! c = Some b -> expireAt a <= expireAt b).

(** The objects of [h] are those of [m0], positions aside. *)
Definition frame (m0 : gmap addr sessionExpiry) (h : memHeap) : Prop :=
  forall x, ident <$> objects h !! x = ident <$> m0 !! x.

(** The heap of pointers [h] holds the entries [b], position by position:
    the pointers are those of [s0] in some order, each once, and every entry
    knows its position. *)
Definition holds (m0 : gmap addr sessionExpiry) (s0 : list addr)
    (h : memHeap) (b : expiryHeap) : Prop :=
  NoDup (slots h) /\ slots h ≡ₚ s0 /\
  Forall2 (fun a o => objects h !! a = Some o) (slots h) b /\
  indexed b /\ frame m0 h.

(** *** Sequences of calls *)

Inductive sched_op : Type :=
| OpUpdate (id : string) (t : Z)
| OpRemove (id : string).

Definition step (s : PtrScheduler) (op : sched_op) : option PtrScheduler :=
  match op with
  | OpUpdate id t => UpdateSession id t s
  | OpRemove id => RemoveSession id s
  end.

Fixpoint run (ops : list sched_op) (s : PtrScheduler) : option PtrScheduler :=
  match ops with
  | [] => Some s
  | op :: ops' => s' ← step s op; run ops' s'
  end.

(** What the calls say about the expiry time of each session. *)
Definition record (m : gmap string Z) (op : sched_op) : gmap string Z :=
  match op with
  | OpUpdate id t => <[id := t]> m
  | OpRemove id => delete id m
  end.

(** The scheduler after [UpdateSession] for three sessions. *)
Definition example_tracked : PtrScheduler :=
  default NewSessionCleanupScheduler
    (run [OpUpdate "a" 300; OpUpdate "b" 100; OpUpdate "c" 200] NewSessionCleanupScheduler).

End Scheduler.

(** * Properties *)

(** ** Machine integers *)

Module GoIntFacts.
Import GoInt.

Lemma wrap64_in_range z : in_int64 (wrap64 z).
Proof.
  unfold in_int64, wrap64, int64_min, int64_max.
  pose proof (Z.mod_pos_bound (z + 2 ^ 63) (2 ^ 64) ltac:(lia)). lia.
Qed.

Lemma wrap64_id z : in_int64 z -> wrap64 z = z.
Proof.
  unfold in_int64, wrap64, int64_min, int64_max. intros Hz.
  rewrite Z.mod_small by lia. lia.
Qed.

Lemma add64_exact a b : in_int64 (a + b) -> add64 a b = a + b.
Proof. apply wrap64_id. Qed.

Lemma sub64_exact a b : in_int64 (a - b) -> sub64 a b = a - b.
Proof. apply wrap64_id. Qed.

End GoIntFacts.

(** ** Sessions *)

Module TypesFacts.
Import GoInt GoIntFacts Types.

(** The four checks are one check, read at the resource's own fields. *)
Lemma CheckQuota_unfold r s d :
  CheckQuota r s d =
  if (0 <? quota_max r s) && (quota_max r s <? add64 (usage r s) d)
  then Some (quota_error r) else None.
Proof. destruct r; reflexivity. Qed.

(** In the machine's own arithmetic nothing is assumed of the sum: under a
    positive quota the check passes exactly when the wrapped sum is within
    the quota. *)
Lemma quota_check_machine (r : Resource) (s : Session) (d : Z) :
  0 < quota_max r s ->
  (CheckQuota r s d = None <-> add64 (usage r s) d <= quota_max r s).
Proof.
  intros Hpos. rewrite CheckQuota_unfold.
  destruct (Z.ltb_spec 0 (quota_max r s)) as [_|]; [|lia].
  destruct (Z.ltb_spec (quota_max r s) (add64 (usage r s) d)); simpl;
    split; intros; try lia; congruence.
Qed.

(** C2. With a positive quota [m], a current count [c] and a request for [d]
    more whose sum fits the machine integer, the pre-check succeeds exactly
    when [c + d <= m], and when it fails it fails with the quota error of
    that resource: a request that makes the count equal to the quota
    succeeds and one more fails. This holds for entities, relationships,
    documents and memory bytes alike. *)
Theorem quota_check_exact (r : Resource) (s : Session) (d : Z) :
  0 < quota_max r s ->
  in_int64 (usage r s + d) ->
  (CheckQuota r s d = None <-> usage r s + d <= quota_max r s) /\
  (quota_max r s < usage r s + d -> CheckQuota r s d = Some (quota_error r)) /\
  (usage r s + d = quota_max r s -> CheckQuota r s d = None) /\
  (usage r s + d = quota_max r s + 1 -> CheckQuota r s d = Some (quota_error r)).
Proof.
  intros Hpos Hfit. rewrite CheckQuota_unfold, (add64_exact _ _ Hfit).
  destruct (Z.ltb_spec 0 (quota_max r s)) as [_|]; [|lia].
  destruct (Z.ltb_spec (quota_max r s) (usage r s + d)); simpl;
    repeat split; intros; try lia; try congruence.
Qed.

(** Three entities under a quota of three: the third insert passes, a fourth
    is refused. *)
Lemma quota_check_exact_witness :
  let s := IncrementEntity 2 (SetQuotas 3 0 0 0 (NewSession "s1" 1000)) in
  CheckEntityQuota s 1 = None /\
  CheckEntityQuota (IncrementEntity 1 s) 1 = Some ErrEntityQuotaExceeded.
Proof.
  intros s. split.
  - apply (quota_check_exact Entities s 1); vm_compute; [reflexivity | split; discriminate | reflexivity].
  - apply (quota_check_exact Entities (IncrementEntity 1 s) 1);
      vm_compute; [reflexivity | split; discriminate | reflexivity].
Defined.

(** C10. A quota of zero is no limit: the check succeeds for every request,
    whatever the current count. *)
Theorem zero_quota_unlimited (r : Resource) (s : Session) (d : Z) :
  quota_max r s = 0 -> CheckQuota r s d = None.
Proof.
  intros Hzero. rewrite CheckQuota_unfold, Hzero. reflexivity.
Qed.

Lemma zero_quota_unlimited_witness :
  CheckMemoryQuota (AddMemory 4096 (NewSession "s1" 1000)) (2 ^ 40) = None.
Proof.
  apply (zero_quota_unlimited Memory (AddMemory 4096 (NewSession "s1" 1000)) (2 ^ 40)).
  reflexivity.
Defined.

(** Membership in the set deadlines, spelled out. *)
Lemma deadline_before s now :
  (exists d, d ∈ deadlines s /\ d < now) <->
  (0 < TTL s /\ CreatedAt s + TTL s < now) \/
  (0 < IdleTTL s /\ LastAccess s + IdleTTL s < now).
Proof.
  unfold deadlines.
  destruct (Z.ltb_spec 0 (TTL s)); destruct (Z.ltb_spec 0 (IdleTTL s)); simpl; split.
  all: try (intros (d & Hd & Hlt);
            rewrite ?elem_of_app, ?elem_of_cons, ?elem_of_nil in Hd; intuition lia).
  all: intros [[? ?]|[? ?]]; try lia.
  all: eexists; split; [|eassumption];
       rewrite ?elem_of_app, ?elem_of_cons, ?elem_of_nil; auto.
Qed.

(** C6. For a session whose creation time is a unix time (not negative) and
    whose deadlines fit the machine integer, the next-expiration time is the
    earlier of the deadlines that are set, [CreatedAt + TTL] when [TTL > 0]
    and [LastAccess + IdleTTL] when [IdleTTL > 0], and [0] when none is;
    and the session is expired at [now] exactly when one of the set
    deadlines is strictly before [now]. *)
Theorem expiry_is_earliest_deadline (s : Session) (now : Z) :
  0 <= CreatedAt s ->
  in_int64 (CreatedAt s + TTL s) ->
  in_int64 (LastAccess s + IdleTTL s) ->
  GetExpireAt s = earliest (deadlines s) /\
  (IsExpired s now = true <-> exists d, d ∈ deadlines s /\ d < now).
Proof.
  intros Hcreated Habs Hidle. split.
  - unfold GetExpireAt, deadlines, earliest.
    rewrite (add64_exact _ _ Habs), (add64_exact _ _ Hidle).
    destruct (Z.ltb_spec 0 (TTL s)); destruct (Z.ltb_spec 0 (IdleTTL s)); simpl;
      try reflexivity.
    destruct (Z.eqb_spec (CreatedAt s + TTL s) 0); [lia|]. simpl.
    destruct (Z.ltb_spec (LastAccess s + IdleTTL s) (CreatedAt s + TTL s)); lia.
  - rewrite deadline_before. unfold IsExpired.
    rewrite (add64_exact _ _ Habs), (add64_exact _ _ Hidle).
    destruct (Z.ltb_spec 0 (TTL s)); destruct (Z.ltb_spec 0 (IdleTTL s));
      destruct (Z.ltb_spec (CreatedAt s + TTL s) now);
      destruct (Z.ltb_spec (LastAccess s + IdleTTL s) now); simpl;
      split; try done; try lia; intros; try (left; lia); try (right; lia).
Qed.

(** A session created at 1000 with a TTL of 500 and an idle TTL of 200, last
    touched at 1100: it expires at 1300, and is expired at 1301 but not at
    1300. *)
Lemma expiry_is_earliest_deadline_witness :
  let s := Touch 1100 (SetIdleTTL 200 (SetTTL 500 (NewSession "s1" 1000))) in
  GetExpireAt s = 1300 /\ IsExpired s 1301 = true /\ IsExpired s 1300 = false.
Proof.
  intros s.
  destruct (expiry_is_earliest_deadline s 1301) as [Hat _];
    [vm_compute; discriminate | split; vm_compute; discriminate ..|].
  split; [exact Hat|]. split; reflexivity.
Defined.

(** A counter other than the one an operation is for keeps its value. *)
Lemma usage_Increment r r' n s :
  usage r' (Increment r n s) = if decide (r = r') then add64 (usage r s) n else usage r' s.
Proof. destruct r, r'; reflexivity. Qed.

Lemma usage_Decrement r r' n s :
  usage r' (Decrement r n s) =
  if decide (r = r') then
    (if sub64 (usage r s) n <? 0 then 0 else sub64 (usage r s) n)
  else usage r' s.
Proof. destruct r, r'; reflexivity. Qed.

(** Every decrement clamps at zero, whatever it is asked to subtract. *)
Lemma Decrement_nonneg r n s : 0 <= usage r (Decrement r n s).
Proof.
  rewrite usage_Decrement. destruct (decide (r = r)); [|done].
  destruct (Z.ltb_spec (sub64 (usage r s) n) 0); lia.
Qed.

Lemma apply_op_nonneg s o :
  counters_nonneg s -> op_in_range s o -> counters_nonneg (apply_op s o).
Proof.
  intros Hs Ho r'. destruct o as [r n|r n]; simpl in *.
  - rewrite usage_Increment. destruct (decide (r = r')) as [<-|]; [|apply Hs].
    destruct Ho as [Hn Hfit]. pose proof (Hs r).
    rewrite add64_exact; [lia|]. unfold in_int64, int64_min, int64_max in *. lia.
  - rewrite usage_Decrement. destruct (decide (r = r')) as [<-|]; [|apply Hs].
    destruct (Z.ltb_spec (sub64 (usage r s) n) 0); lia.
Qed.

(** C9, as the code has it. Starting from counters that are not negative,
    after any sequence of Increment/Decrement/AddMemory/SubMemory calls in
    which every increment is by an amount that is not negative and does not
    overflow the counter, every counter is still not negative; and a
    decrement leaves its counter not negative whatever the amount and the
    counter's value before. *)
Theorem counters_nonneg_preserved (ops : list counter_op) (s : Session) :
  counters_nonneg s ->
  ops_in_range s ops ->
  counters_nonneg (run_ops ops s) /\
  (forall r n s', 0 <= usage r (Decrement r n s')).
Proof.
  intros Hs Hops. split; [|intros; apply Decrement_nonneg].
  revert s Hs Hops. induction ops as [|o ops IH]; intros s Hs Hops; [exact Hs|].
  destruct Hops as [Ho Hops]. apply IH; [apply apply_op_nonneg|]; assumption.
Qed.

Lemma counters_nonneg_preserved_witness :
  counters_nonneg
    (run_ops [OpIncrement Entities 2; OpDecrement Entities 5; OpIncrement Memory 64;
              OpDecrement Documents 1]
       (NewSession "s1" 1000)).
Proof.
  apply (counters_nonneg_preserved
           [OpIncrement Entities 2; OpDecrement Entities 5; OpIncrement Memory 64;
            OpDecrement Documents 1]
           (NewSession "s1" 1000)).
  - intros r; destruct r; vm_compute; discriminate.
  - vm_compute. repeat split; discriminate.
Defined.

(** C9, as stated, fails: an increment by a negative amount is not clamped. *)
Lemma negative_increment_not_clamped :
  counters_nonneg (NewSession "s1" 1000) /\
  ~ counters_nonneg (run_ops [OpIncrement Entities (-1)] (NewSession "s1" 1000)).
Proof.
  split.
  - intros r; destruct r; vm_compute; discriminate.
  - intros H. specialize (H Entities). vm_compute in H. apply H. reflexivity.
Qed.

(** *** More of session.go *)

(** X1. A request that passed the quota check never takes the count past a
    positive quota: the check and the increment compute the same sum, so
    this holds with no condition on the sizes involved. *)
Theorem checked_increment_within_quota (r : Resource) (s : Session) (d : Z) :
  0 < quota_max r s ->
  CheckQuota r s d = None ->
  usage r (Increment r d s) <= quota_max r s /\
  quota_max r (Increment r d s) = quota_max r s.
Proof.
  intros Hpos Hcheck. apply quota_check_machine in Hcheck; [|exact Hpos].
  split; [|destruct r; reflexivity].
  rewrite usage_Increment. destruct (decide (r = r)); [exact Hcheck | done].
Qed.

Lemma checked_increment_within_quota_witness :
  let s := IncrementDocument 4 (SetQuotas 0 0 5 0 (NewSession "s1" 1000)) in
  DocumentCount (IncrementDocument 1 s) <= 5.
Proof.
  intros s.
  apply (checked_increment_within_quota Documents s 1); reflexivity.
Defined.

(** X2. Counting some records in and the same number out leaves the session
    as it was, field for field, when the count was not negative, the amount
    is not negative and the sum fits the counter. *)
Theorem increment_then_decrement (r : Resource) (s : Session) (d : Z) :
  0 <= usage r s -> 0 <= d -> usage r s + d <= int64_max ->
  Decrement r d (Increment r d s) = s.
Proof.
  intros Hc Hd Hfit.
  assert (Hadd : add64 (usage r s) d = usage r s + d)
    by (apply add64_exact; unfold in_int64, int64_min, int64_max in *; lia).
  assert (Hsub : sub64 (usage r s + d) d = usage r s)
    by (rewrite sub64_exact;
        [lia | unfold in_int64, int64_min, int64_max in *; lia]).
  destruct s; destruct r; cbn in *;
    unfold DecrementEntity, IncrementEntity, DecrementRelationship,
      IncrementRelationship, DecrementDocument, IncrementDocument,
      SubMemory, AddMemory, with_EntityCount, with_RelationshipCount,
      with_DocumentCount, with_MemoryBytes; cbn;
    rewrite Hadd, Hsub;
    match goal with
    | |- context [?x <? 0] => destruct (Z.ltb_spec x 0); [lia | reflexivity]
    end.
Qed.

Lemma increment_then_decrement_witness :
  DecrementEntity 500 (IncrementEntity 500 (NewSession "s1" 1000)) = NewSession "s1" 1000.
Proof.
  apply (increment_then_decrement Entities (NewSession "s1" 1000) 500);
    vm_compute; discriminate.
Defined.

(** X3. The remaining TTL is [-1] exactly when the session has no expiry
    time, and is never negative otherwise, whatever the clock reads. *)
Theorem ttl_remaining_range (s : Session) (now : Z) :
  (GetTTLRemaining s now = -1 <-> GetExpireAt s = 0) /\
  (GetExpireAt s <> 0 -> 0 <= GetTTLRemaining s now).
Proof.
  unfold GetTTLRemaining. cbv zeta.
  destruct (Z.eqb_spec (GetExpireAt s) 0) as [Hz|Hnz].
  - split; [tauto | intros; congruence].
  - destruct (Z.ltb_spec (sub64 (GetExpireAt s) now) 0); split; try lia;
      split; intros; try lia; congruence.
Qed.






(** X5. Touching a session at [now] clears its idle expiry at [now] and
    leaves its absolute expiry as it was: after the touch the session is
    expired at [now] exactly when its absolute deadline is set and past. *)
Theorem touch_clears_idle_expiry_only (s : Session) (now : Z) :
  in_int64 (CreatedAt s + TTL s) ->
  in_int64 (now + IdleTTL s) ->
  (IsExpired (Touch now s) now = true <-> 0 < TTL s /\ CreatedAt s + TTL s < now).
Proof.
  intros Habs Hidle. unfold IsExpired, Touch. cbn.
  rewrite (add64_exact _ _ Habs), (add64_exact _ _ Hidle).
  destruct (Z.ltb_spec 0 (TTL s)); destruct (Z.ltb_spec 0 (IdleTTL s));
    destruct (Z.ltb_spec (CreatedAt s + TTL s) now);
    destruct (Z.ltb_spec (now + IdleTTL s) now); simpl;
    split; try done; try lia.
Qed.

Lemma touch_clears_idle_expiry_only_witness :
  let s := SetIdleTTL 200 (SetTTL 500 (NewSession "s1" 1000)) in
  IsExpired s 1400 = true /\ IsExpired (Touch 1400 s) 1400 = false /\
  IsExpired (Touch 1600 s) 1600 = true.
Proof.
  intros s. split; [reflexivity|]. split.
  - destruct (IsExpired (Touch 1400 s) 1400) eqn:H; [|reflexivity].
    apply (touch_clears_idle_expiry_only s 1400) in H;
      [vm_compute in H; destruct H as [_ H]; discriminate
      | vm_compute; split; discriminate ..].
  - apply (touch_clears_idle_expiry_only s 1600);
      vm_compute; split; try discriminate; reflexivity.
Defined.

End TypesFacts.

(** ** Structured errors *)

Module ErrorsFacts.
Import Errors.

Local Ltac split_code e :=
  repeat match goal with
         | |- context [Z.eqb e ?c] => destruct (Z.eqb_spec e c) as [->|?]
         | H : context [Z.eqb e ?c] |- _ => destruct (Z.eqb_spec e c) as [->|?]
         end.

(** A code has a name of its own exactly when the [const] block names it. *)
Lemma String_known (e : ErrorCode) : ErrorCode_String e <> "UNKNOWN" <-> e ∈ named_codes.
Proof.
  split.
  - unfold ErrorCode_String. split_code e; intros Hname;
      try (unfold named_codes; rewrite !elem_of_cons;
           solve [repeat first [left; reflexivity | right]]).
    done.
  - unfold named_codes. rewrite !elem_of_cons, elem_of_nil.
    intros H. repeat destruct H as [->|H]; try done.
Qed.

(** X12. [String] tells the named codes apart: two codes with the same name
    other than ["UNKNOWN"] are the same code, and the name is ["UNKNOWN"]
    exactly for the codes that the [const] block does not name. *)
Theorem error_code_names_distinct (e1 e2 : ErrorCode) :
  (ErrorCode_String e1 = "UNKNOWN" <-> e1 ∉ named_codes) /\
  (ErrorCode_String e1 = ErrorCode_String e2 ->
   ErrorCode_String e1 <> "UNKNOWN" -> e1 = e2).
Proof.
  split.
  - pose proof (String_known e1) as Hk. split.
    + intros Hu Hin. apply Hk in Hin. done.
    + intros Hnot. destruct (decide (ErrorCode_String e1 = "UNKNOWN")) as [|Hne]; [done|].
      apply Hk in Hne. done.
  - unfold ErrorCode_String. split_code e1; split_code e2; intros Heq Hne;
      first [reflexivity | discriminate Heq | done].
Qed.

Lemma error_code_names_distinct_witness :
  ErrorCode_String 1004 = ErrorCode_String ErrConflict /\
  ErrorCode_String 1004 <> "UNKNOWN" /\ 1004 = ErrConflict.
Proof.
  split; [reflexivity|]. split; [discriminate|].
  apply (error_code_names_distinct 1004 ErrConflict); [reflexivity | discriminate].
Defined.

(** X13. The three classes exclude each other; every code that the [const]
    block names, other than [ErrOK], is in exactly one of them, and [ErrOK]
    in none, whatever the message and the details. *)
Theorem error_classes_partition (e : GibRAMError) :
  (classes e <= 1)%nat /\
  (Code e ∈ named_codes -> Code e <> ErrOK -> classes e = 1%nat) /\
  (Code e = ErrOK -> classes e = 0%nat).
Proof.
  destruct e as [c m d]. unfold classes, IsClientError, IsServerError, IsDataError.
  cbn [Code]. split; [|split].
  - destruct (Z.leb_spec 1000 c), (Z.ltb_spec c 2000), (Z.leb_spec 2000 c),
      (Z.ltb_spec c 3000), (Z.leb_spec 3000 c), (Z.ltb_spec c 4000); simpl; lia.
  - unfold named_codes. rewrite !elem_of_cons, elem_of_nil.
    intros H Hok. repeat destruct H as [->|H]; done.
  - intros ->. reflexivity.
Qed.

Lemma error_classes_partition_witness :
  classes (NewError ErrTimeout "slow") = 1%nat.
Proof.
  apply (error_classes_partition (NewError ErrTimeout "slow")).
  - cbn [Code NewError]. unfold named_codes. rewrite !elem_of_cons.
    do 11 right. left. reflexivity.
  - discriminate.
Defined.

Lemma append_assoc (s t u : string) : (s +:+ t) +:+ u = s +:+ (t +:+ u).
Proof.
  induction s as [|c s IH]; [reflexivity|].
  change (String c ((s +:+ t) +:+ u) = String c (s +:+ (t +:+ u))). rewrite IH. reflexivity.
Qed.

(** X14. The text of an error starts with the text of the same error without
    details, and is that text exactly when the details are empty: an error
    made by [NewErrorWithDetails] with empty details reads as one made by
    [NewError]. *)
Theorem error_text_extends (code : ErrorCode) (message details : string) :
  Error (NewErrorWithDetails code message "") = Error (NewError code message) /\
  Error (NewError code message) = "[" +:+ ErrorCode_String code +:+ "] " +:+ message /\
  (details <> "" ->
   Error (NewErrorWithDetails code message details)
   = Error (NewError code message) +:+ ": " +:+ details).
Proof.
  split; [reflexivity|]. split; [reflexivity|].
  intros Hd. unfold Error, NewErrorWithDetails, NewError. cbn [Details Code Message].
  destruct (String.eqb_spec details EmptyString) as [->|_]; [done|]. cbn [negb String.eqb].
  rewrite !append_assoc. reflexivity.
Qed.

Lemma error_text_extends_witness :
  Error (NewErrorWithDetails ErrNotFound "Entity not found" "id 7")
  = "[NOT_FOUND] Entity not found: id 7".
Proof.
  pose proof (error_text_extends ErrNotFound "Entity not found" "id 7") as (_ & _ & H).
  rewrite H by discriminate. reflexivity.
Defined.

End ErrorsFacts.

(** ** Distance kernels *)

Module SimdFacts.
Import Simd.

(** *** Loops *)

Lemma for_each_app {S : Type} (l1 l2 : list nat) (body : S -> nat -> option S) st :
  for_each (l1 ++ l2) body st = for_each l1 body st ≫= for_each l2 body.
Proof.
  revert st. induction l1 as [|i l1 IH]; intros st; simpl; [reflexivity|].
  destruct (body st i); simpl; [apply IH | reflexivity].
Qed.

(** A loop over blocks whose body is a loop over lanes visits the indices
    of the blocks in order. *)
Lemma for_each_nested {S : Type} (starts js : list nat) (body : S -> nat -> option S) st :
  for_each starts (fun st i => for_each js (fun st j => body st (i + j)%nat) st) st =
  for_each (starts ≫= fun i => (fun j => (i + j)%nat) <$> js) body st.
Proof.
  revert st. induction starts as [|i starts IH]; intros st; [reflexivity|].
  cbn [for_each mbind list_bind]. rewrite for_each_app.
  assert (Hin : forall st, for_each js (fun st j => body st (i + j)%nat) st
                 = for_each ((fun j => (i + j)%nat) <$> js) body st).
  { clear. induction js as [|j js IHj]; intros st; simpl; [reflexivity|].
    destruct (body st (i + j)%nat); [apply IHj | reflexivity]. }
  rewrite Hin. destruct (for_each _ body st); simpl; [apply IH | reflexivity].
Qed.

(** The blocks of eight lanes cover [0 .. 8 * (n / 8)) in order ... *)
Lemma blocks_cover (m : nat) :
  ((fun k => 8 * k)%nat <$> seq 0 m) ≫= (fun i => (fun j => (i + j)%nat) <$> lanes)
  = seq 0 (8 * m).
Proof.
  induction m as [|m IH]; [reflexivity|].
  rewrite seq_S, fmap_app, bind_app, IH. cbn [fmap list_fmap mbind list_bind].
  rewrite app_nil_r. replace (8 * S m)%nat with (8 * m + 8)%nat by lia.
  rewrite seq_app. f_equal. unfold lanes. simpl.
  repeat (f_equal; try lia).
Qed.

(** ... and with the tail loop, every index of [0 .. n) once, in order. *)
Lemma blocks_then_tail (n : nat) :
  (block_starts n ≫= fun i => (fun j => (i + j)%nat) <$> lanes) ++ tail_indices n
  = seq 0 n.
Proof.
  unfold block_starts, tail_indices. rewrite blocks_cover.
  pose proof (Nat.div_mod_eq n 8) as Hn.
  pose proof (Nat.mod_upper_bound n 8 ltac:(lia)).
  rewrite <- seq_app. f_equal. lia.
Qed.

(** *** The cosine loops *)

Lemma cos_loop_from (pa pb a b : list float32) st :
  length pa = length pb -> length a = length b ->
  for_each (seq (length pa) (length a)) (cos_body (pa ++ a) (pb ++ b)) st
  = Some (foldl cos_step st (zip a b)).
Proof.
  revert pa pb b st. induction a as [|x a IH]; intros pa pb b st Hp Hab.
  - reflexivity.
  - destruct b as [|y b]; [discriminate|]. simpl in Hab.
    cbn [length seq for_each]. unfold cos_body at 1, index.
    rewrite (list_lookup_middle pa a x (length pa) eq_refl).
    rewrite (list_lookup_middle pb b y (length pa) Hp).
    cbn [mbind option_bind].
    specialize (IH (pa ++ [x]) (pb ++ [y]) b).
    rewrite !length_app, <- !app_assoc in IH. simpl in IH.
    replace (S (length pa)) with (length pa + 1)%nat by lia.
    apply IH; lia.
Qed.

(** Over vectors of one length, the scalar loop never panics and folds
    [cos_step] over the pairs of components. *)
Lemma cos_loop (a b : list float32) :
  length a = length b ->
  for_each (range_of a) (cos_body a b) cos_acc0 = Some (foldl cos_step cos_acc0 (zip a b)).
Proof. intros Hab. apply (cos_loop_from [] [] a b cos_acc0); [reflexivity | exact Hab]. Qed.

(** The two loops of the widened path do the same updates in the same
    order. *)
Lemma cos_loop_avx2 (a b : list float32) :
  length a = length b ->
  for_each (block_starts (length a)) (cos_block a b) cos_acc0
    ≫= for_each (tail_indices (length a)) (cos_body a b)
  = Some (foldl cos_step cos_acc0 (zip a b)).
Proof.
  intros Hab. unfold cos_block.
  rewrite (for_each_nested (block_starts (length a)) lanes (cos_body a b)).
  rewrite <- for_each_app, blocks_then_tail. apply cos_loop, Hab.
Qed.

Lemma length_eqb_false (a b : list float32) :
  length a = length b -> negb (length a =? length b)%nat = false.
Proof. intros ->. rewrite Nat.eqb_refl. reflexivity. Qed.

Lemma length_eqb_true (a b : list float32) :
  length a <> length b -> negb (length a =? length b)%nat = true.
Proof. intros Hne. apply Nat.eqb_neq in Hne. rewrite Hne. reflexivity. Qed.

(** Both cosine functions, for vectors of one length: the same sums, and
    then [math.Sqrt] in one and [fastSqrt] in the other. *)
Lemma cosineSimilarityScalar_eq (a b : list float32) :
  length a = length b ->
  cosineSimilarityScalar a b
  = Some (cos_finish scalarSqrt (foldl cos_step cos_acc0 (zip a b))).
Proof.
  intros Hab. unfold cosineSimilarityScalar.
  rewrite (length_eqb_false a b Hab), (cos_loop a b Hab). cbn [mbind option_bind].
  unfold cos_finish, scalarSqrt.
  destruct (f32_eqb _ _ || f32_eqb _ _); reflexivity.
Qed.

Lemma cosineSimilarityAVX2_eq (a b : list float32) :
  length a = length b ->
  cosineSimilarityAVX2 a b
  = Some (cos_finish float32Sqrt (foldl cos_step cos_acc0 (zip a b))).
Proof.
  intros Hab. unfold cosineSimilarityAVX2. cbv zeta.
  rewrite (length_eqb_false a b Hab).
  pose proof (cos_loop_avx2 a b Hab) as Hloop.
  destruct (for_each (block_starts (length a)) (cos_block a b) cos_acc0) as [st1|];
    [|discriminate]. cbn [mbind option_bind] in *.
  rewrite Hloop. cbn [mbind option_bind]. unfold cos_finish.
  destruct (f32_eqb _ _ || f32_eqb _ _); reflexivity.
Qed.

(** The sums of squares are the squared norms of the arguments. *)
Lemma normA_fold (a b : list float32) st :
  length a = length b ->
  normA (foldl cos_step st (zip a b))
  = foldl (fun acc x => f32_add acc (f32_mul x x)) (normA st) a.
Proof.
  revert b st. induction a as [|x a IH]; intros [|y b] st Hab; try discriminate;
    [reflexivity|].
  simpl. rewrite IH by (simpl in Hab; lia). reflexivity.
Qed.

Lemma normB_fold (a b : list float32) st :
  length a = length b ->
  normB (foldl cos_step st (zip a b))
  = foldl (fun acc y => f32_add acc (f32_mul y y)) (normB st) b.
Proof.
  revert b st. induction a as [|x a IH]; intros [|y b] st Hab; try discriminate;
    [reflexivity|].
  simpl. rewrite IH by (simpl in Hab; lia). reflexivity.
Qed.

(** The squared norm of a vector of zeros, of whatever signs, is [+0]. *)
Lemma sq_norm_zeros (a : list float32) : Forall is_zero a -> sq_norm a = f32_zero.
Proof.
  unfold sq_norm, f32_zero. intros Hz.
  induction Hz as [|x a [s ->] _ IH]; [reflexivity|].
  simpl. destruct s; exact IH.
Qed.

(** *** The claims *)

(** C5. The cosine similarity is [0], and so not NaN, whenever either
    argument is a vector of zeros or, more generally, has a squared norm
    that compares equal to zero: in the scalar function, in the widened one
    and in the public one whichever path it selects. The other argument is
    any vector at all, of any length and with any components, NaN and the
    infinities included. *)
Theorem cosine_zero_norm (hasAVX2 : bool) (a b : list float32) :
  Forall is_zero a \/ Forall is_zero b \/
  f32_eqb (sq_norm a) f32_zero = true \/ f32_eqb (sq_norm b) f32_zero = true ->
  cosineSimilarityScalar a b = Some f32_zero /\
  cosineSimilarityAVX2 a b = Some f32_zero /\
  CosineSimilarity hasAVX2 a b = Some f32_zero.
Proof.
  intros Hzero.
  assert (Hnorm : f32_eqb (sq_norm a) f32_zero = true \/
                  f32_eqb (sq_norm b) f32_zero = true).
  { destruct Hzero as [Hz|[Hz|[Hz|Hz]]]; auto.
    - left. rewrite (sq_norm_zeros a Hz). reflexivity.
    - right. rewrite (sq_norm_zeros b Hz). reflexivity. }
  clear Hzero.
  destruct (decide (length a = length b)) as [Hab|Hab].
  - assert (Hfin : forall sqrt,
              cos_finish sqrt (foldl cos_step cos_acc0 (zip a b)) = f32_zero).
    { intros sqrt. unfold cos_finish.
      rewrite (normA_fold a b _ Hab), (normB_fold a b _ Hab).
      change (foldl _ (normA cos_acc0) a) with (sq_norm a).
      change (foldl _ (normB cos_acc0) b) with (sq_norm b).
      destruct Hnorm as [-> | ->]; [reflexivity|].
      rewrite orb_true_r. reflexivity. }
    assert (Hs : cosineSimilarityScalar a b = Some f32_zero)
      by (rewrite (cosineSimilarityScalar_eq a b Hab), Hfin; reflexivity).
    assert (Hv : cosineSimilarityAVX2 a b = Some f32_zero)
      by (rewrite (cosineSimilarityAVX2_eq a b Hab), Hfin; reflexivity).
    split; [exact Hs|]. split; [exact Hv|].
    unfold CosineSimilarity. rewrite (length_eqb_false a b Hab).
    destruct (hasAVX2 && (8 <=? length a)%nat); assumption.
  - unfold cosineSimilarityScalar, cosineSimilarityAVX2, CosineSimilarity. cbv zeta.
    rewrite (length_eqb_true a b Hab). auto.
Qed.

(** The vector of eight zeros against a vector holding a NaN and an
    infinity. *)
Lemma cosine_zero_norm_witness :
  let v := [S754_nan; S754_infinity false] ++ replicate 6 f32_one in
  cosineSimilarityScalar (replicate 8 f32_zero) v = Some f32_zero /\
  cosineSimilarityAVX2 (replicate 8 f32_zero) v = Some f32_zero /\
  CosineSimilarity true (replicate 8 f32_zero) v = Some f32_zero.
Proof.
  intros v. apply (cosine_zero_norm true (replicate 8 f32_zero) v).
  left. repeat constructor; exists false; reflexivity.
Defined.

(** C8. On vectors of different lengths the three public functions return
    [0]: they do not panic, and no component is read. *)
Theorem mismatched_lengths_return_zero (hasAVX2 : bool) (a b : list float32) :
  length a <> length b ->
  CosineSimilarity hasAVX2 a b = Some f32_zero /\
  EuclideanDistance hasAVX2 a b = Some f32_zero /\
  DotProduct hasAVX2 a b = Some f32_zero.
Proof.
  intros Hne. unfold CosineSimilarity, EuclideanDistance, DotProduct.
  rewrite (length_eqb_true a b Hne). auto.
Qed.

Lemma mismatched_lengths_return_zero_witness :
  CosineSimilarity true unit8 [f32_one] = Some f32_zero /\
  EuclideanDistance true unit8 [f32_one] = Some f32_zero /\
  DotProduct true unit8 [f32_one] = Some f32_zero.
Proof.
  apply (mismatched_lengths_return_zero true unit8 [f32_one]). simpl. lia.
Defined.

(** What [fastSqrt] makes of [1]: about [-1.65e56], which no [float32]
    holds. *)
Lemma fastSqrt_one :
  fastSqrt (float64_of_float32 f32_one) = S754_finite true 7576580327473619 134 /\
  float32Sqrt f32_one = S754_infinity true /\
  scalarSqrt f32_one = f32_one.
Proof. repeat split; vm_compute; reflexivity. Qed.

(** C1, at the first basis vector of dimension 8 against itself. The scalar
    function returns [1]. The widened function, which the public function
    selects on a host with AVX2 and FMA, returns [0]: its square root of the
    squared norm [1] is minus infinity. The two results are not within
    [1e-5] of each other. *)
Theorem cosine_avx2_differs_from_scalar :
  cosineSimilarityScalar unit8 unit8 = Some f32_one /\
  cosineSimilarityAVX2 unit8 unit8 = Some f32_zero /\
  CosineSimilarity true unit8 unit8 = Some f32_zero /\
  CosineSimilarity false unit8 unit8 = Some f32_one /\
  within_tolerance f32_zero f32_one = false.
Proof. repeat split; vm_compute; reflexivity. Qed.

(** *** More of the kernels *)

(** A loop over [0 .. n) whose body reads both vectors at its index never
    panics on vectors of length [n], and is a fold over the pairs of
    components. *)
Lemma pair_loop_from {St : Type} (f : St -> float32 -> float32 -> St)
    (body : St -> nat -> option St) (pa pb a b : list float32) (st : St) :
  (forall st i, body st i
     = ai ← index (pa ++ a) i; bi ← index (pb ++ b) i; Some (f st ai bi)) ->
  length pa = length pb -> length a = length b ->
  for_each (seq (length pa) (length a)) body st
  = Some (foldl (fun st xy => f st xy.1 xy.2) st (zip a b)).
Proof.
  revert pa pb b body st. induction a as [|x a IH]; intros pa pb b body st Hbody Hp Hab.
  - reflexivity.
  - destruct b as [|y b]; [discriminate|]. simpl in Hab.
    cbn [length seq for_each]. rewrite Hbody. unfold index.
    rewrite (list_lookup_middle pa a x (length pa) eq_refl).
    rewrite (list_lookup_middle pb b y (length pa) Hp).
    cbn [mbind option_bind].
    specialize (IH (pa ++ [x]) (pb ++ [y]) b body (f st x y)).
    rewrite !length_app, <- !app_assoc in IH. simpl in IH.
    replace (S (length pa)) with (length pa + 1)%nat by lia.
    apply IH; [exact Hbody | lia | lia].
Qed.

Lemma pair_loop {St : Type} (f : St -> float32 -> float32 -> St)
    (body : St -> nat -> option St) (a b : list float32) (st : St) :
  (forall st i, body st i = ai ← index a i; bi ← index b i; Some (f st ai bi)) ->
  length a = length b ->
  for_each (seq 0 (length a)) body st
  = Some (foldl (fun st xy => f st xy.1 xy.2) st (zip a b)).
Proof. intros Hbody Hab. apply (pair_loop_from f body [] [] a b st Hbody eq_refl Hab). Qed.

(** The two loops of a widened function visit [0 .. n) in order, whatever
    the body. *)
Lemma widened_loops {St : Type} (body : St -> nat -> option St) (n : nat) (st : St) :
  for_each (block_starts n)
    (fun st i => for_each lanes (fun st j => body st (i + j)%nat) st) st
    ≫= for_each (tail_indices n) body
  = for_each (seq 0 n) body st.
Proof.
  rewrite (for_each_nested (block_starts n) lanes body).
  rewrite <- for_each_app, blocks_then_tail. reflexivity.
Qed.

Lemma dot_loop (a b : list float32) :
  length a = length b ->
  for_each (seq 0 (length a)) (dot_body a b) f32_zero = Some (dot_sum a b).
Proof.
  intros Hab.
  apply (pair_loop (fun acc x y => f32_add acc (f32_mul x y)) (dot_body a b) a b);
    [reflexivity | exact Hab].
Qed.

Lemma euclid_loop (a b : list float32) :
  length a = length b ->
  for_each (seq 0 (length a)) (euclid_body a b) f32_zero = Some (sq_dist a b).
Proof.
  intros Hab.
  apply (pair_loop (fun acc x y => f32_add acc (f32_mul (f32_sub x y) (f32_sub x y)))
           (euclid_body a b) a b); [reflexivity | exact Hab].
Qed.

Lemma norm_loop_from (pa a : list float32) (st : float32) :
  for_each (seq (length pa) (length a)) (norm_body (pa ++ a)) st
  = Some (foldl (fun acc x => f32_add acc (f32_mul x x)) st a).
Proof.
  revert pa st. induction a as [|x a IH]; intros pa st; [reflexivity|].
  cbn [length seq for_each]. unfold norm_body at 1, index.
  rewrite (list_lookup_middle pa a x (length pa) eq_refl). cbn [mbind option_bind].
  specialize (IH (pa ++ [x])). rewrite length_app, <- app_assoc in IH. simpl in IH.
  replace (S (length pa)) with (length pa + 1)%nat by lia. apply IH.
Qed.

Lemma norm_loop (a : list float32) :
  for_each (seq 0 (length a)) (norm_body a) f32_zero = Some (sq_norm a).
Proof. apply (norm_loop_from [] a f32_zero). Qed.

(** The scalar and the widened functions in closed form. *)
Lemma dotProductScalar_eq (a b : list float32) :
  length a = length b -> dotProductScalar a b = Some (dot_sum a b).
Proof.
  intros Hab. unfold dotProductScalar, range_of.
  rewrite (length_eqb_false a b Hab). apply dot_loop, Hab.
Qed.

Lemma dotProductAVX2_eq (a b : list float32) :
  length a = length b -> dotProductAVX2 a b = Some (dot_sum a b).
Proof.
  intros Hab. unfold dotProductAVX2. cbv zeta.
  rewrite (length_eqb_false a b Hab).
  pose proof (widened_loops (dot_body a b) (length a) f32_zero) as Hloops.
  rewrite (dot_loop a b Hab) in Hloops.
  destruct (for_each (block_starts (length a)) _ f32_zero) as [st|]; [|discriminate].
  exact Hloops.
Qed.

Lemma euclideanDistanceScalar_eq (a b : list float32) :
  length a = length b ->
  euclideanDistanceScalar a b = Some (scalarSqrt (sq_dist a b)).
Proof.
  intros Hab. unfold euclideanDistanceScalar, range_of.
  rewrite (length_eqb_false a b Hab), (euclid_loop a b Hab). reflexivity.
Qed.

Lemma euclideanDistanceAVX2_eq (a b : list float32) :
  length a = length b ->
  euclideanDistanceAVX2 a b = Some (float32Sqrt (sq_dist a b)).
Proof.
  intros Hab. unfold euclideanDistanceAVX2. cbv zeta.
  rewrite (length_eqb_false a b Hab).
  pose proof (widened_loops (euclid_body a b) (length a) f32_zero) as Hloops.
  rewrite (euclid_loop a b Hab) in Hloops.
  destruct (for_each (block_starts (length a)) _ f32_zero) as [st|]; [|discriminate].
  cbn [mbind option_bind] in *. rewrite Hloops. reflexivity.
Qed.

Lemma l2NormScalar_eq (a : list float32) : l2NormScalar a = Some (scalarSqrt (sq_norm a)).
Proof. unfold l2NormScalar, range_of. rewrite norm_loop. reflexivity. Qed.

Lemma l2NormAVX2_eq (a : list float32) : l2NormAVX2 a = Some (float32Sqrt (sq_norm a)).
Proof.
  unfold l2NormAVX2. cbv zeta.
  pose proof (widened_loops (norm_body a) (length a) f32_zero) as Hloops.
  rewrite norm_loop in Hloops.
  destruct (for_each (block_starts (length a)) _ f32_zero) as [st|]; [|discriminate].
  cbn [mbind option_bind] in *. rewrite Hloops. reflexivity.
Qed.

(** X6. The widened dot product is the scalar dot product: on every pair of
    vectors, of equal length or not, both return the same value, so the
    public function does not depend on the CPU flag. *)
Theorem dot_product_paths_agree (hasAVX2 : bool) (a b : list float32) :
  dotProductAVX2 a b = dotProductScalar a b /\
  DotProduct hasAVX2 a b = dotProductScalar a b.
Proof.
  assert (Hsame : dotProductAVX2 a b = dotProductScalar a b).
  { destruct (decide (length a = length b)) as [Hab|Hab].
    - rewrite (dotProductAVX2_eq a b Hab), (dotProductScalar_eq a b Hab). reflexivity.
    - unfold dotProductAVX2, dotProductScalar. cbv zeta.
      rewrite (length_eqb_true a b Hab). reflexivity. }
  split; [exact Hsame|]. unfold DotProduct.
  destruct (decide (length a = length b)) as [Hab|Hab].
  - rewrite (length_eqb_false a b Hab).
    destruct (hasAVX2 && (8 <=? length a)%nat); [exact Hsame | reflexivity].
  - rewrite (length_eqb_true a b Hab). unfold dotProductScalar.
    rewrite (length_eqb_true a b Hab). reflexivity.
Qed.

(** X7. No kernel panics: on any vectors, of any lengths, with either value
    of the CPU flag, the four public functions return a value; no index is
    ever out of range. *)
Theorem kernels_never_panic (hasAVX2 : bool) (a b : list float32) :
  is_Some (CosineSimilarity hasAVX2 a b) /\
  is_Some (EuclideanDistance hasAVX2 a b) /\
  is_Some (DotProduct hasAVX2 a b) /\
  is_Some (L2Norm hasAVX2 a).
Proof.
  split; [|split; [|split]].
  - unfold CosineSimilarity. destruct (decide (length a = length b)) as [Hab|Hab].
    + rewrite (length_eqb_false a b Hab), (cosineSimilarityAVX2_eq a b Hab),
        (cosineSimilarityScalar_eq a b Hab).
      destruct (hasAVX2 && _); eexists; reflexivity.
    + rewrite (length_eqb_true a b Hab). eexists; reflexivity.
  - unfold EuclideanDistance. destruct (decide (length a = length b)) as [Hab|Hab].
    + rewrite (length_eqb_false a b Hab), (euclideanDistanceAVX2_eq a b Hab),
        (euclideanDistanceScalar_eq a b Hab).
      destruct (hasAVX2 && _); eexists; reflexivity.
    + rewrite (length_eqb_true a b Hab). eexists; reflexivity.
  - unfold DotProduct. destruct (decide (length a = length b)) as [Hab|Hab].
    + rewrite (length_eqb_false a b Hab), (dotProductAVX2_eq a b Hab),
        (dotProductScalar_eq a b Hab).
      destruct (hasAVX2 && _); eexists; reflexivity.
    + rewrite (length_eqb_true a b Hab). eexists; reflexivity.
  - unfold L2Norm. rewrite l2NormAVX2_eq, l2NormScalar_eq.
    destruct (hasAVX2 && _); eexists; reflexivity.
Qed.

(** The difference of a number with itself is [+0]. *)
Lemma f32_sub_self (x : float32) : is_finite x -> f32_sub x x = f32_zero.
Proof.
  destruct x as [s|s| |s m e]; simpl; try done; intros _.
  - destruct s; reflexivity.
  - unfold f32_sub, SFsub.
    match goal with
    | |- binary_normalize _ _ (IntDef.Z.sub ?t ?t) _ _ = _ =>
        change (IntDef.Z.sub t t) with (Z.sub t t); rewrite (Z.sub_diag t)
    end.
    reflexivity.
Qed.

Lemma sq_dist_self (a : list float32) : Forall is_finite a -> sq_dist a a = f32_zero.
Proof.
  unfold sq_dist. intros Hfin.
  assert (Hgen : forall acc, acc = f32_zero ->
            foldl (fun acc xy => f32_add acc
                     (f32_mul (f32_sub xy.1 xy.2) (f32_sub xy.1 xy.2)))
              acc (zip a a) = f32_zero).
  { induction Hfin as [|x a Hx _ IH]; intros acc ->; [reflexivity|].
    cbn [zip zip_with foldl fst snd]. rewrite (f32_sub_self x Hx). apply IH. reflexivity. }
  apply Hgen. reflexivity.
Qed.

(** X8. The distance of a vector of numbers to itself is [0], on the scalar
    path and on the widened one, whose square root returns [0] at [0]. *)
Theorem euclidean_self_distance (hasAVX2 : bool) (a : list float32) :
  Forall is_finite a ->
  euclideanDistanceScalar a a = Some f32_zero /\
  euclideanDistanceAVX2 a a = Some f32_zero /\
  EuclideanDistance hasAVX2 a a = Some f32_zero.
Proof.
  intros Hfin.
  assert (Hs : euclideanDistanceScalar a a = Some f32_zero)
    by (rewrite (euclideanDistanceScalar_eq a a eq_refl), (sq_dist_self a Hfin);
        reflexivity).
  assert (Hv : euclideanDistanceAVX2 a a = Some f32_zero)
    by (rewrite (euclideanDistanceAVX2_eq a a eq_refl), (sq_dist_self a Hfin);
        reflexivity).
  split; [exact Hs|]. split; [exact Hv|].
  unfold EuclideanDistance. rewrite (length_eqb_false a a eq_refl).
  destruct (hasAVX2 && _); assumption.
Qed.

Lemma euclidean_self_distance_witness :
  EuclideanDistance true unit8 unit8 = Some f32_zero.
Proof.
  apply (euclidean_self_distance true unit8). repeat constructor.
Defined.

(** X9. The norm of a vector of zeros, the empty vector included, is [0] on
    both paths. *)
Theorem norm_of_zeros (hasAVX2 : bool) (a : list float32) :
  Forall is_zero a ->
  l2NormScalar a = Some f32_zero /\
  l2NormAVX2 a = Some f32_zero /\
  L2Norm hasAVX2 a = Some f32_zero.
Proof.
  intros Hz.
  assert (Hs : l2NormScalar a = Some f32_zero)
    by (rewrite l2NormScalar_eq, (sq_norm_zeros a Hz); reflexivity).
  assert (Hv : l2NormAVX2 a = Some f32_zero)
    by (rewrite l2NormAVX2_eq, (sq_norm_zeros a Hz); reflexivity).
  split; [exact Hs|]. split; [exact Hv|].
  unfold L2Norm. destruct (hasAVX2 && _); assumption.
Qed.

Lemma norm_of_zeros_witness :
  L2Norm true (replicate 9 (S754_zero true)) = Some f32_zero /\
  L2Norm false [] = Some f32_zero.
Proof.
  split.
  - apply (norm_of_zeros true (replicate 9 (S754_zero true))).
    repeat constructor; exists true; reflexivity.
  - apply (norm_of_zeros false []). constructor.
Defined.

(** *** Symmetry and composition *)

Lemma f32_mul_comm (x y : float32) : f32_mul x y = f32_mul y x.
Proof.
  unfold f32_mul. destruct x as [sx|sx| |sx mx ex], y as [sy|sy| |sy my ey]; cbn [SFmul];
    try reflexivity; try (rewrite (xorb_comm sx sy); reflexivity).
  rewrite (xorb_comm sx sy). 
  change (PosDef.Pos.mul mx my) with (Pos.mul mx my).
  change (PosDef.Pos.mul my mx) with (Pos.mul my mx).
  rewrite (Pos.mul_comm mx my).
  change (IntDef.Z.add ex ey) with (Z.add ex ey).
  change (IntDef.Z.add ey ex) with (Z.add ey ex).
  rewrite (Z.add_comm ex ey). reflexivity.
Qed.

(** The accumulators with the roles of the two vectors exchanged. *)
Lemma cos_fold_swap (a b : list float32) (st : cos_acc) :
  foldl cos_step (mkCosAcc (dot st) (normB st) (normA st)) (zip b a)
  = let r := foldl cos_step st (zip a b) in mkCosAcc (dot r) (normB r) (normA r).
Proof.
  revert b st. induction a as [|x a IH]; intros [|y b] st; try reflexivity.
  cbn [zip zip_with foldl]. unfold cos_step at 2 4. cbn [fst snd dot normA normB].
  rewrite <- (IH b). unfold cos_step at 2. cbn [fst snd dot normA normB].
  rewrite (f32_mul_comm y x). reflexivity.
Qed.

Lemma dot_fold (a b : list float32) (st : cos_acc) :
  dot (foldl cos_step st (zip a b))
  = foldl (fun acc xy => f32_add acc (f32_mul xy.1 xy.2)) (dot st) (zip a b).
Proof.
  revert b st. induction a as [|x a IH]; intros [|y b] st; try reflexivity.
  cbn [zip zip_with foldl]. rewrite IH. reflexivity.
Qed.

Lemma binary_round_negative (m : positive) (e : Z) :
  binary_round 24 128 true m e = SFopp (binary_round 24 128 false m e).
Proof.
  unfold binary_round. destruct (shl_align m e _) as [mz ez].
  unfold binary_round_aux. destruct (shr_fexp 24 128 (Z.pos mz) ez loc_Exact) as [mrs e'].
  destruct (shr_fexp 24 128 _ e' loc_Exact) as [mrs' e''].
  destruct (shr_m mrs') as [|p|p]; try reflexivity.
  destruct (IntDef.Z.leb e'' _); reflexivity.
Qed.

Lemma binary_normalize_opp (z e : Z) :
  binary_normalize 24 128 (- z) e false = binary_normalize 24 128 z e false \/
  binary_normalize 24 128 (- z) e false = SFopp (binary_normalize 24 128 z e false).
Proof.
  destruct z as [|p|p]; cbn [Z.opp binary_normalize].
  - left. reflexivity.
  - right. apply binary_round_negative.
  - right. change (binary_round 24 128 false p e = SFopp (binary_round 24 128 true p e)).
    rewrite binary_round_negative.
    destruct (binary_round 24 128 false p e) as [s|s| |s m' e']; try reflexivity;
      destruct s; reflexivity.
Qed.

Lemma f32_sub_swap (x y : float32) :
  f32_sub y x = f32_sub x y \/ f32_sub y x = SFopp (f32_sub x y).
Proof.
  unfold f32_sub.
  destruct x as [sx|sx| |sx mx ex], y as [sy|sy| |sy my ey]; cbn [SFsub SFopp];
    try (left; reflexivity); try (right; reflexivity);
    try (destruct sx, sy; (left; reflexivity) || (right; reflexivity)).
  change (IntDef.Z.min ey ex) with (Z.min ey ex).
  change (IntDef.Z.min ex ey) with (Z.min ex ey).
  rewrite (Z.min_comm ey ex).
  set (A := cond_Zopp sx (Z.pos (shl_align mx ex (Z.min ex ey)).1)).
  set (B := cond_Zopp sy (Z.pos (shl_align my ey (Z.min ex ey)).1)).
  change (IntDef.Z.sub B A) with (Z.sub B A).
  change (IntDef.Z.sub A B) with (Z.sub A B).
  replace (B - A) with (- (A - B)) by lia.
  apply binary_normalize_opp.
Qed.

Lemma f32_square_opp (d : float32) : f32_mul (SFopp d) (SFopp d) = f32_mul d d.
Proof. destruct d as [s|s| |s m e]; try reflexivity; destruct s; reflexivity. Qed.

Lemma sq_diff_swap (x y : float32) :
  f32_mul (f32_sub y x) (f32_sub y x) = f32_mul (f32_sub x y) (f32_sub x y).
Proof.
  destruct (f32_sub_swap x y) as [-> | ->]; [reflexivity | apply f32_square_opp].
Qed.


Lemma dot_sum_swap (a b : list float32) : dot_sum b a = dot_sum a b.
Proof.
  unfold dot_sum. generalize f32_zero. revert b.
  induction a as [|x a IH]; intros [|y b] acc; try reflexivity.
  cbn [zip zip_with foldl fst snd]. rewrite (f32_mul_comm y x). apply IH.
Qed.

Lemma sq_dist_swap (a b : list float32) : sq_dist b a = sq_dist a b.
Proof.
  unfold sq_dist. generalize f32_zero. revert b.
  induction a as [|x a IH]; intros [|y b] acc; try reflexivity.
  cbn [zip zip_with foldl fst snd]. rewrite (sq_diff_swap x y). apply IH.
Qed.

Lemma cos_finish_swap (sqrt : float32 -> float32) (a b : list float32) :
  cos_finish sqrt (foldl cos_step cos_acc0 (zip b a))
  = cos_finish sqrt (foldl cos_step cos_acc0 (zip a b)).
Proof.
  pose proof (cos_fold_swap a b cos_acc0) as Hswap. cbn [dot normA normB cos_acc0] in Hswap.
  change (mkCosAcc f32_zero f32_zero f32_zero) with cos_acc0 in Hswap.
  rewrite Hswap. cbv zeta. unfold cos_finish. cbn [dot normA normB].
  rewrite orb_comm, f32_mul_comm. reflexivity.
Qed.

(** X10. The three binary kernels are symmetric in their arguments, bit for
    bit, on every path and for any lengths: float32 multiplication commutes,
    and [(x - y)] and [(y - x)] have the same square. *)
Theorem kernels_symmetric (hasAVX2 : bool) (a b : list float32) :
  CosineSimilarity hasAVX2 a b = CosineSimilarity hasAVX2 b a /\
  EuclideanDistance hasAVX2 a b = EuclideanDistance hasAVX2 b a /\
  DotProduct hasAVX2 a b = DotProduct hasAVX2 b a.
Proof.
  unfold CosineSimilarity, EuclideanDistance, DotProduct.
  destruct (decide (length a = length b)) as [Hab|Hab].
  - rewrite (length_eqb_false a b Hab), (length_eqb_false b a (eq_sym Hab)).
    rewrite (cosineSimilarityAVX2_eq a b Hab), (cosineSimilarityAVX2_eq b a (eq_sym Hab)),
      (cosineSimilarityScalar_eq a b Hab), (cosineSimilarityScalar_eq b a (eq_sym Hab)),
      (euclideanDistanceAVX2_eq a b Hab), (euclideanDistanceAVX2_eq b a (eq_sym Hab)),
      (euclideanDistanceScalar_eq a b Hab), (euclideanDistanceScalar_eq b a (eq_sym Hab)),
      (dotProductAVX2_eq a b Hab), (dotProductAVX2_eq b a (eq_sym Hab)),
      (dotProductScalar_eq a b Hab), (dotProductScalar_eq b a (eq_sym Hab)).
    rewrite !(cos_finish_swap _ a b), (sq_dist_swap a b), (dot_sum_swap a b), <- Hab.
    repeat split; reflexivity.
  - rewrite (length_eqb_true a b Hab), (length_eqb_true b a (not_eq_sym Hab)).
    repeat split; reflexivity.
Qed.

(** X11. The cosine similarity is the dot product over the product of the
    norms, each as its own kernel returns it on the same path, unless one of
    the squared norms compares equal to zero, when it is [0]. *)
Theorem cosine_is_dot_over_norms (hasAVX2 : bool) (a b : list float32) :
  length a = length b ->
  exists d na nb,
    DotProduct hasAVX2 a b = Some d /\
    L2Norm hasAVX2 a = Some na /\
    L2Norm hasAVX2 b = Some nb /\
    CosineSimilarity hasAVX2 a b
    = Some (if f32_eqb (sq_norm a) f32_zero || f32_eqb (sq_norm b) f32_zero
            then f32_zero else f32_div d (f32_mul na nb)).
Proof.
  intros Hab. unfold DotProduct, L2Norm, CosineSimilarity.
  rewrite (length_eqb_false a b Hab), <- Hab.
  rewrite (cosineSimilarityAVX2_eq a b Hab), (cosineSimilarityScalar_eq a b Hab),
    (dotProductAVX2_eq a b Hab), (dotProductScalar_eq a b Hab),
    !l2NormAVX2_eq, !l2NormScalar_eq.
  unfold cos_finish.
  rewrite (normA_fold a b cos_acc0 Hab), (normB_fold a b cos_acc0 Hab), dot_fold.
  cbn [dot normA normB cos_acc0]. fold (sq_norm a) (sq_norm b) (dot_sum a b).
  destruct (hasAVX2 && _); do 3 eexists; repeat split; reflexivity.
Qed.

Lemma cosine_is_dot_over_norms_witness :
  exists d na nb,
    DotProduct false unit8 unit8 = Some d /\
    L2Norm false unit8 = Some na /\
    L2Norm false unit8 = Some nb /\
    CosineSimilarity false unit8 unit8
    = Some (if f32_eqb (sq_norm unit8) f32_zero || f32_eqb (sq_norm unit8) f32_zero
            then f32_zero else f32_div d (f32_mul na nb)).
Proof. apply (cosine_is_dot_over_norms false unit8 unit8). reflexivity. Defined.



End SimdFacts.

(** ** Bytes and fixed-width integers *)

Module BytesFacts.
Import GoInt Bytes.

Lemma Z_of_byte_range (b : byte) : 0 <= Z_of_byte b < 256.
Proof.
  unfold Z_of_byte. pose proof (Byte.to_N_bounded b). lia.
Qed.

Lemma Z_of_byte_of_Z (v : Z) : Z_of_byte (byte_of_Z v) = v mod 256.
Proof.
  unfold byte_of_Z, Z_of_byte.
  pose proof (Z.mod_pos_bound v 256 ltac:(lia)) as Hm.
  destruct (Byte.of_N (Z.to_N (v mod 256))) as [b|] eqn:Hb.
  - apply Byte.to_of_N in Hb. rewrite Hb. lia.
  - apply Byte.of_N_None_iff in Hb. lia.
Qed.

Lemma length_put_le (n : nat) (v : Z) : length (put_le n v) = n.
Proof. revert v. induction n as [|n IH]; intros v; simpl; [|rewrite IH]; reflexivity. Qed.

(** The low byte and the rest make up the whole. *)
Lemma lor_low_byte (v : Z) :
  0 <= v -> Z.lor (v mod 256) (Z.shiftl (Z.shiftr v 8) 8) = v.
Proof.
  intros Hv. apply Z.bits_inj'. intros i Hi.
  rewrite Z.lor_spec. change 256 with (2 ^ 8).
  destruct (Z.lt_ge_cases i 8) as [Hlt|Hge].
  - rewrite Z.mod_pow2_bits_low by lia.
    rewrite Z.shiftl_spec_low by lia. apply orb_false_r.
  - rewrite Z.mod_pow2_bits_high by lia.
    rewrite Z.shiftl_spec by lia. rewrite Z.shiftr_spec by lia.
    simpl. f_equal. lia.
Qed.

Lemma get_le_put_le (n : nat) (v : Z) :
  0 <= v < 2 ^ (8 * Z.of_nat n) -> get_le (put_le n v) = v.
Proof.
  revert v. induction n as [|n IH]; intros v Hv.
  - simpl in *. lia.
  - cbn [put_le get_le]. rewrite Z_of_byte_of_Z. rewrite IH.
    + apply lor_low_byte. lia.
    + rewrite Z.shiftr_div_pow2 by lia.
      replace (8 * Z.of_nat (S n)) with (8 + 8 * Z.of_nat n) in Hv by lia.
      rewrite Z.pow_add_r in Hv by lia. split.
      * apply Z.div_pos; lia.
      * apply Z.div_lt_upper_bound; lia.
Qed.

Lemma length_put_uint bo (n : nat) (v : Z) : length (put_uint bo n v) = n.
Proof.
  destruct bo; simpl; [apply length_put_le|].
  unfold put_be. rewrite length_rev. apply length_put_le.
Qed.

Lemma get_uint_put_uint bo (n : nat) (v : Z) :
  0 <= v < 2 ^ (8 * Z.of_nat n) -> get_uint bo (put_uint bo n v) = v.
Proof.
  intros Hv. destruct bo; simpl; [apply get_le_put_le, Hv|].
  unfold get_be, put_be. rewrite rev_involutive. apply get_le_put_le, Hv.
Qed.

Lemma uint64_of_int64_range (x : Z) : 0 <= uint64_of_int64 x < 2 ^ 64.
Proof. unfold uint64_of_int64. apply Z.mod_pos_bound. lia. Qed.

Lemma int64_of_uint64_of_int64 (x : Z) :
  in_int64 x -> int64_of_uint64 (uint64_of_int64 x) = x.
Proof.
  unfold in_int64, int64_min, int64_max, int64_of_uint64, uint64_of_int64, wrap64.
  intros Hx. rewrite Zplus_mod_idemp_l. rewrite Z.mod_small by lia. lia.
Qed.

Lemma ReadFull_app (x r : list byte) (n : nat) :
  length x = n -> ReadFull (x ++ r) n = inr (x, r).
Proof.
  intros <-. unfold ReadFull.
  destruct (Nat.leb_spec (length x) (length (x ++ r))) as [_|Hlt].
  - rewrite take_app_length, drop_app_length. reflexivity.
  - rewrite length_app in Hlt. lia.
Qed.

(** *** Decoding, then encoding *)

Lemma lor_byte_shift (b g : Z) :
  0 <= b < 256 -> 0 <= g -> Z.lor b (Z.shiftl g 8) = b + 256 * g.
Proof.
  intros Hb Hg.
  assert (Hland : Z.land b (Z.shiftl g 8) = 0).
  { apply Z.bits_inj'. intros i Hi. rewrite Z.land_spec, Z.bits_0.
    destruct (Z.lt_ge_cases i 8) as [Hlt|Hge].
    - rewrite Z.shiftl_spec_low by lia. apply andb_false_r.
    - rewrite <- (Z.mod_small b (2 ^ 8)) by (change (2 ^ 8) with 256; lia).
      rewrite Z.mod_pow2_bits_high by lia. reflexivity. }
  rewrite <- Z.lxor_lor by exact Hland.
  rewrite <- Z.add_nocarry_lxor by exact Hland.
  rewrite Z.shiftl_mul_pow2 by lia. change (2 ^ 8) with 256. lia.
Qed.

Lemma get_le_cons (b : byte) (bs : list byte) :
  0 <= get_le bs -> get_le (b :: bs) = Z_of_byte b + 256 * get_le bs.
Proof. intros Hg. cbn [get_le]. apply lor_byte_shift; [apply Z_of_byte_range | exact Hg]. Qed.

Lemma get_le_range (bs : list byte) : 0 <= get_le bs < 2 ^ (8 * Z.of_nat (length bs)).
Proof.
  induction bs as [|b bs IH]; [simpl; lia|].
  rewrite get_le_cons by lia. pose proof (Z_of_byte_range b) as Hb.
  replace (8 * Z.of_nat (length (b :: bs))) with (8 + 8 * Z.of_nat (length bs))
    by (cbn [length]; lia).
  rewrite Z.pow_add_r by lia. change (2 ^ 8) with 256. nia.
Qed.

Lemma byte_of_Z_of_byte (b : byte) : byte_of_Z (Z_of_byte b) = b.
Proof.
  unfold byte_of_Z. pose proof (Z_of_byte_range b) as Hb.
  rewrite Z.mod_small by lia. unfold Z_of_byte. rewrite N2Z.id, Byte.of_to_N. reflexivity.
Qed.

Lemma byte_of_Z_mod (v : Z) : byte_of_Z (v mod 256) = byte_of_Z v.
Proof. unfold byte_of_Z. rewrite Z.mod_mod by lia. reflexivity. Qed.

Lemma put_le_get_le (bs : list byte) : put_le (length bs) (get_le bs) = bs.
Proof.
  induction bs as [|b bs IH]; [reflexivity|].
  pose proof (get_le_range bs) as Hr. pose proof (Z_of_byte_range b) as Hb.
  rewrite get_le_cons by lia. cbn [length put_le]. f_equal.
  - rewrite <- byte_of_Z_mod.
    replace ((Z_of_byte b + 256 * get_le bs) mod 256) with (Z_of_byte b)
      by (replace (Z_of_byte b + 256 * get_le bs) with (Z_of_byte b + get_le bs * 256) by lia;
          rewrite Z.mod_add by lia; rewrite Z.mod_small; lia).
    apply byte_of_Z_of_byte.
  - rewrite Z.shiftr_div_pow2 by lia. change (2 ^ 8) with 256.
    replace ((Z_of_byte b + 256 * get_le bs) / 256) with (get_le bs); [exact IH|].
    replace (Z_of_byte b + 256 * get_le bs) with (Z_of_byte b + get_le bs * 256) by lia.
    rewrite Z.div_add by lia. rewrite Z.div_small; lia.
Qed.

Lemma put_uint_get_uint bo (bs : list byte) : put_uint bo (length bs) (get_uint bo bs) = bs.
Proof.
  destruct bo; simpl; [apply put_le_get_le|].
  unfold put_be, get_be. rewrite <- (length_rev bs), put_le_get_le. apply rev_involutive.
Qed.

Lemma get_uint_range bo (bs : list byte) :
  0 <= get_uint bo bs < 2 ^ (8 * Z.of_nat (length bs)).
Proof.
  destruct bo; simpl; [apply get_le_range|].
  unfold get_be. rewrite <- (length_rev bs). apply get_le_range.
Qed.

Lemma length_put_be (n : nat) (v : Z) : length (put_be n v) = n.
Proof. apply (length_put_uint BigEndian). Qed.

Lemma get_be_put_be (n : nat) (v : Z) :
  0 <= v < 2 ^ (8 * Z.of_nat n) -> get_be (put_be n v) = v.
Proof. apply (get_uint_put_uint BigEndian). Qed.

Lemma put_be_get_be (bs : list byte) : put_be (length bs) (get_be bs) = bs.
Proof. apply (put_uint_get_uint BigEndian). Qed.

Lemma get_be_range (bs : list byte) : 0 <= get_be bs < 2 ^ (8 * Z.of_nat (length bs)).
Proof. apply (get_uint_range BigEndian). Qed.

Lemma uint64_of_int64_of_uint64 (u : Z) :
  0 <= u < 2 ^ 64 -> uint64_of_int64 (int64_of_uint64 u) = u.
Proof.
  unfold uint64_of_int64, int64_of_uint64, wrap64. intros Hu.
  rewrite Zminus_mod_idemp_l.
  replace (u + 2 ^ 63 - 2 ^ 63) with u by lia. apply Z.mod_small. lia.
Qed.

Lemma int64_of_uint64_range (u : Z) : in_int64 (int64_of_uint64 u).
Proof. apply GoIntFacts.wrap64_in_range. Qed.

Lemma ReadFull_inr (r x r' : list byte) (n : nat) :
  ReadFull r n = inr (x, r') <-> r = x ++ r' /\ length x = n.
Proof.
  split.
  - unfold ReadFull. destruct (Nat.leb_spec n (length r)) as [Hle|Hlt].
    + intros [= <- <-]. rewrite take_drop, length_take. split; [reflexivity | lia].
    + destruct r; discriminate.
  - intros [-> Hn]. apply ReadFull_app, Hn.
Qed.

Lemma ReadFull_short (r : list byte) (n : nat) :
  (length r < n)%nat ->
  ReadFull r n = inl (match r with [] => EOF | _ :: _ => ErrUnexpectedEOF end).
Proof.
  intros Hlt. unfold ReadFull. destruct (Nat.leb_spec n (length r)) as [Hle|_]; [lia|].
  destruct r; reflexivity.
Qed.

End BytesFacts.

(** ** The framing of [pkg/codec] *)

Module CodecFacts.
Import Bytes BytesFacts Codec.

(** A frame of [pkg/codec] is the op, the length of the payload in four
    little-endian bytes, and the payload: five bytes more than the payload. *)
Lemma EncodeWALEntry_length (op : byte) (payloadBytes frame : list byte) :
  EncodeWALEntry op (Some payloadBytes) = inr frame ->
  length frame = (5 + length payloadBytes)%nat.
Proof.
  intros [= <-]. reflexivity.
Qed.


(** A header is only ever decoded with the magic of [pkg/codec]. *)
Lemma DecodeSnapshotHeader_magic (r : list byte) (h : SnapshotHeader) :
  DecodeSnapshotHeader r = inr h -> Magic h = SnapshotMagic.
Proof.
  unfold DecodeSnapshotHeader. destruct (ReadFull r 64) as [e|[buf rest]]; [discriminate|].
  match goal with |- context [negb (?m =? SnapshotMagic)] =>
    destruct (Z.eqb_spec m SnapshotMagic) as [Heq|Hne] end; simpl; [|discriminate].
  intros [= <-]. exact Heq.
Qed.

(** The header of [pkg/codec] starts with ["GIB2"] in little-endian order,
    and its decoder takes no other magic, the ["GRAM"] of snapshot files
    included. *)
Lemma codec_header_magic_is_GIB2 :
  let h m := mkSnapshotHeader m 1 4 0 0 0 0 0 0 0 in
  take 4 (EncodeSnapshotHeader (h SnapshotMagic)) = ["2"; "B"; "I"; "G"]%byte /\
  DecodeSnapshotHeader (EncodeSnapshotHeader (h SnapshotMagic)) = inr (h SnapshotMagic) /\
  DecodeSnapshotHeader (EncodeSnapshotHeader (h 0x4752414D)) = inl ErrInvalidSnapshotMagic.
Proof. repeat split; vm_compute; reflexivity. Qed.

(** *** More of codec.go *)


(** X16. A frame that was cut short is never decoded: any proper prefix of a
    frame gives an error of the reader. The error is [io.EOF], the error of
    a clean end of input, when the cut is before the frame, just after the op
    byte, or just after the length; otherwise it is [io.ErrUnexpectedEOF]. *)
Theorem wal_truncated_frame (op : byte) (payloadBytes frame : list byte) (k : nat) :
  Z.of_nat (length payloadBytes) < 2 ^ 32 ->
  EncodeWALEntry op (Some payloadBytes) = inr frame ->
  (k < length frame)%nat ->
  DecodeWALEntry (take k frame)
  = inl (ErrIO match k with
               | 0%nat | 1%nat | 5%nat => EOF
               | _ => ErrUnexpectedEOF
               end).
Proof.
  intros Hlen Henc Hk.
  assert (frame = op :: put_le 4 (Z.of_nat (length payloadBytes) mod 2 ^ 32)
                  ++ payloadBytes) as ->
    by (injection Henc as <-; reflexivity).
  clear Henc. rewrite Z.mod_small in * by lia.
  set (len := put_le 4 (Z.of_nat (length payloadBytes))) in *.
  assert (Hl4 : length len = 4%nat) by apply length_put_le.
  cbn [length] in Hk. rewrite length_app, Hl4 in Hk.
  destruct k as [|k]; [reflexivity|].
  unfold DecodeWALEntry. cbn [take].
  change (op :: take k (len ++ payloadBytes)) with ([op] ++ take k (len ++ payloadBytes)).
  rewrite (ReadFull_app [op] _ 1 eq_refl).
  destruct (Nat.lt_ge_cases k 4) as [Hk4|Hk4].
  - rewrite ReadFull_short by (rewrite length_take, length_app; lia).
    rewrite take_app_le by lia.
    destruct k as [|k]; [reflexivity|].
    destruct len as [|l0 len]; [discriminate|]. cbn [take].
    destruct k as [|[|[|k]]]; try reflexivity. lia.
  - rewrite take_app_ge by lia. rewrite Hl4.
    rewrite (ReadFull_app len _ 4 Hl4).
    unfold len at 1. rewrite get_le_put_le by (simpl; lia). rewrite Nat2Z.id.
    rewrite ReadFull_short by (rewrite length_take; lia).
    destruct k as [|[|[|[|k]]]]; try lia.
    replace (S (S (S (S k))) - 4)%nat with k by lia.
    destruct k as [|k]; [reflexivity|].
    destruct payloadBytes as [|p payloadBytes]; [simpl in Hk; lia|]. reflexivity.
Qed.

Lemma wal_truncated_frame_witness :
  DecodeWALEntry (take 1 ["p"; "002"; "000"; "000"; "000"; "{"; "}"]%byte)
  = inl (ErrIO EOF) /\
  DecodeWALEntry (take 6 ["p"; "002"; "000"; "000"; "000"; "{"; "}"]%byte)
  = inl (ErrIO ErrUnexpectedEOF).
Proof.
  split.
  - apply (wal_truncated_frame "p"%byte ["{"; "}"]%byte _ 1);
      [simpl; lia | reflexivity | simpl; lia].
  - apply (wal_truncated_frame "p"%byte ["{"; "}"]%byte _ 6);
      [simpl; lia | reflexivity | simpl; lia].
Defined.

(** The fields of an encoded header, where the decoder reads them. *)
Lemma header_slices (h : SnapshotHeader) :
  let buf := EncodeSnapshotHeader h in
  slice buf 0 4 = put_le 4 (Magic h) /\
  slice buf 4 6 = put_le 2 (Version h) /\
  slice buf 6 8 = put_le 2 (VectorDim h) /\
  slice buf 8 16 = put_le 8 (DocCount h) /\
  slice buf 16 24 = put_le 8 (TUCount h) /\
  slice buf 24 32 = put_le 8 (EntCount h) /\
  slice buf 32 40 = put_le 8 (RelCount h) /\
  slice buf 40 48 = put_le 8 (CommCount h) /\
  slice buf 48 56 = put_le 8 (QueryCount h) /\
  slice buf 56 64 = put_le 8 (uint64_of_int64 (CreatedAt h)).
Proof. repeat split; reflexivity. Qed.

Lemma EncodeSnapshotHeader_length (h : SnapshotHeader) :
  length (EncodeSnapshotHeader h) = 64%nat.
Proof. unfold EncodeSnapshotHeader. rewrite !length_app, !length_put_le. reflexivity. Qed.

(** X17. A header whose fields fit their types is read back from its 64
    bytes, whatever follows them, when its magic is [SnapshotMagic]; with any
    other magic the same bytes are refused. *)
Theorem snapshot_header_roundtrip (h : SnapshotHeader) (rest : list byte) :
  header_in_range h ->
  length (EncodeSnapshotHeader h) = 64%nat /\
  DecodeSnapshotHeader (EncodeSnapshotHeader h ++ rest)
  = if Magic h =? SnapshotMagic then inr h else inl ErrInvalidSnapshotMagic.
Proof.
  intros (Hm & Hv & Hd & Hdoc & Htu & Hent & Hrel & Hcomm & Hq & Hc).
  split; [apply EncodeSnapshotHeader_length|].
  unfold DecodeSnapshotHeader.
  rewrite (ReadFull_app _ rest 64 (EncodeSnapshotHeader_length h)).
  destruct (header_slices h) as (-> & -> & -> & -> & -> & -> & -> & -> & -> & ->).
  rewrite !get_le_put_le by (try apply uint64_of_int64_range; simpl; lia).
  rewrite int64_of_uint64_of_int64 by exact Hc.
  cbv zeta. cbn [Magic]. destruct h. cbn [Codec.Magic].
  destruct (_ =? SnapshotMagic); reflexivity.
Qed.

Lemma snapshot_header_roundtrip_witness :
  let h := mkSnapshotHeader SnapshotMagic 1 1536 10 200 30 40 5 6 (-1) in
  DecodeSnapshotHeader (EncodeSnapshotHeader h ++ ["x"]%byte) = inr h.
Proof.
  apply (snapshot_header_roundtrip
           (mkSnapshotHeader SnapshotMagic 1 1536 10 200 30 40 5 6 (-1)) ["x"]%byte).
  unfold header_in_range, GoInt.in_int64. simpl. vm_compute. intuition discriminate.
Defined.

Lemma slice_length (buf : list byte) (i j : nat) :
  (j <= length buf)%nat -> length (slice buf i j) = (j - i)%nat.
Proof. intros Hj. unfold slice. rewrite length_take, length_drop. lia. Qed.

(** The slices that the decoder reads make up the buffer. *)
Lemma slices_cover (buf : list byte) :
  length buf = 64%nat ->
  slice buf 0 4 ++ slice buf 4 6 ++ slice buf 6 8 ++ slice buf 8 16 ++ slice buf 16 24
  ++ slice buf 24 32 ++ slice buf 32 40 ++ slice buf 40 48 ++ slice buf 48 56
  ++ slice buf 56 64 = buf.
Proof.
  intros Hlen.
  assert (Hstep : forall i j k, (i <= j <= k)%nat ->
            slice buf i j ++ take (k - j) (drop j buf) = take (k - i) (drop i buf)).
  { intros i j k Hijk. unfold slice.
    replace (drop j buf) with (drop (j - i) (drop i buf)) by (rewrite drop_drop; f_equal; lia).
    replace (k - i)%nat with ((j - i) + (k - j))%nat by lia.
    apply take_take_drop. }
  change (slice buf 56 64) with (take (64 - 56) (drop 56 buf)).
  rewrite (Hstep 48 56 64)%nat, (Hstep 40 48 64)%nat, (Hstep 32 40 64)%nat,
    (Hstep 24 32 64)%nat, (Hstep 16 24 64)%nat, (Hstep 8 16 64)%nat, (Hstep 6 8 64)%nat,
    (Hstep 4 6 64)%nat, (Hstep 0 4 64)%nat by lia.
  rewrite drop_0. apply take_ge. lia.
Qed.

(** X18. [DecodeSnapshotHeader] reads nothing but encoded headers: a header
    that it returns has the magic [SnapshotMagic] and fields that fit their
    types, and its encoding is the first 64 bytes of the input, all of which
    the header accounts for. An input of fewer than 64 bytes is an error of
    the reader. *)
Theorem snapshot_header_decode_sound (r : list byte) :
  (forall h, DecodeSnapshotHeader r = inr h ->
     Magic h = SnapshotMagic /\ header_in_range h /\
     (64 <= length r)%nat /\ EncodeSnapshotHeader h = take 64 r) /\
  ((length r < 64)%nat ->
     DecodeSnapshotHeader r
     = inl (ErrIO match r with [] => EOF | _ :: _ => ErrUnexpectedEOF end)).
Proof.
  split.
  - intros h Hdec. split; [apply (DecodeSnapshotHeader_magic r h Hdec)|].
    unfold DecodeSnapshotHeader in Hdec.
    destruct (ReadFull r 64) as [?|[buf rest]] eqn:Hread; [discriminate|].
    apply ReadFull_inr in Hread as [-> Hlen]. cbv zeta in Hdec.
    destruct (negb _); [discriminate|].
    assert (Hs : forall i j, (j <= 64)%nat -> length (slice buf i j) = (j - i)%nat)
      by (intros i j Hj; apply slice_length; lia).
    assert (Hfield : forall i j, (j <= 64)%nat ->
              0 <= get_le (slice buf i j) < 2 ^ (8 * Z.of_nat (j - i)))
      by (intros i j Hj; rewrite <- (Hs i j Hj); apply get_le_range).
    injection Hdec as <-. split; [|split].
    + unfold header_in_range. cbn [Magic Version VectorDim DocCount TUCount EntCount
        RelCount CommCount QueryCount CreatedAt].
      split; [apply (Hfield 0 4)%nat; lia|]. split; [apply (Hfield 4 6)%nat; lia|].
      split; [apply (Hfield 6 8)%nat; lia|]. split; [apply (Hfield 8 16)%nat; lia|].
      split; [apply (Hfield 16 24)%nat; lia|]. split; [apply (Hfield 24 32)%nat; lia|].
      split; [apply (Hfield 32 40)%nat; lia|]. split; [apply (Hfield 40 48)%nat; lia|].
      split; [apply (Hfield 48 56)%nat; lia|]. apply int64_of_uint64_range.
    + rewrite length_app. lia.
    + rewrite take_app_length' by (symmetry; exact Hlen).
      unfold EncodeSnapshotHeader. cbn [Magic Version VectorDim DocCount TUCount EntCount
        RelCount CommCount QueryCount CreatedAt].
      rewrite uint64_of_int64_of_uint64 by (apply (Hfield 56 64)%nat; lia).
      assert (Hput : forall i j n, (j <= 64)%nat -> n = (j - i)%nat ->
                put_le n (get_le (slice buf i j)) = slice buf i j)
        by (intros i j n Hj ->; rewrite <- (Hs i j Hj); apply put_le_get_le).
      rewrite (Hput 0 4 4)%nat, (Hput 4 6 2)%nat, (Hput 6 8 2)%nat, (Hput 8 16 8)%nat,
        (Hput 16 24 8)%nat, (Hput 24 32 8)%nat, (Hput 32 40 8)%nat, (Hput 40 48 8)%nat,
        (Hput 48 56 8)%nat, (Hput 56 64 8)%nat by lia.
      apply slices_cover, Hlen.
  - intros Hshort. unfold DecodeSnapshotHeader. rewrite ReadFull_short by exact Hshort.
    reflexivity.
Qed.

(** *** Envelopes *)

Section EnvelopeFacts.
Context {Envelope : Type}.
Variable Marshal : Envelope -> option (list byte).
Variable Unmarshal : list byte -> option Envelope.

(** What [DecodeEnvelope] does on a codec byte, a length and what follows. *)
Lemma DecodeEnvelope_header (c : CodecType) (n : Z) (r : list byte) :
  0 <= n < 2 ^ 32 ->
  DecodeEnvelope Envelope Unmarshal (c :: put_be 4 n ++ r)
  = if maxFrame <? n then inl (ErrFrameTooLarge, c)
    else match ReadFull r (Z.to_nat n) with
         | inl e => inl (ErrRead e, c)
         | inr (payload, r) =>
             if decide (c = CodecProtobuf) then
               match Unmarshal payload with
               | None => inl (ErrProto, c)
               | Some env => inr (env, c, r)
               end
             else inl (ErrLegacyJSON, c)
         end.
Proof.
  intros Hn. unfold DecodeEnvelope.
  change (c :: put_be 4 n ++ r) with ([c] ++ put_be 4 n ++ r).
  rewrite (ReadFull_app [c] _ 1 eq_refl).
  rewrite (ReadFull_app (put_be 4 n) r 4 (length_put_be 4 n)).
  cbv zeta. cbn [hd].
  rewrite (get_be_put_be 4 n) by (simpl; lia). reflexivity.
Qed.

(** X19. An envelope whose marshalled form is at most 64 MiB is framed in
    five bytes more, and decoding the frame, whatever follows it, hands the
    same bytes to [proto.Unmarshal] and returns its result with the codec
    type [CodecProtobuf] and the rest of the input. *)
Theorem envelope_roundtrip (env : Envelope) (data rest : list byte) :
  Marshal env = Some data ->
  Z.of_nat (length data) <= maxFrame ->
  exists frame,
    EncodeEnvelope Envelope Marshal env = inr frame /\
    length frame = (5 + length data)%nat /\
    DecodeEnvelope Envelope Unmarshal (frame ++ rest)
    = match Unmarshal data with
      | Some env' => inr (env', CodecProtobuf, rest)
      | None => inl (ErrProto, CodecProtobuf)
      end.
Proof.
  intros Hm Hlen. unfold maxFrame in Hlen. unfold EncodeEnvelope. rewrite Hm.
  eexists. split; [reflexivity|]. split.
  - cbn [length]. rewrite length_app, length_put_be. reflexivity.
  - rewrite Z.mod_small by lia. cbn [app]. rewrite <- app_assoc.
    rewrite DecodeEnvelope_header by lia.
    destruct (Z.ltb_spec maxFrame (Z.of_nat (length data))) as [Hbig|_];
      [unfold maxFrame in Hbig; lia|].
    rewrite Nat2Z.id, (ReadFull_app data rest _ eq_refl).
    destruct (decide (CodecProtobuf = CodecProtobuf)) as [_|Hne]; [|done].
    destruct (Unmarshal data); reflexivity.
Qed.

(** X20. The encoder does not apply the limit of the decoder: an envelope
    whose marshalled form is larger than 64 MiB is framed without an error,
    and the decoder refuses that frame as too large. *)
Theorem envelope_limit_only_on_decode (env : Envelope) (data rest : list byte) :
  Marshal env = Some data ->
  maxFrame < Z.of_nat (length data) < 2 ^ 32 ->
  exists frame,
    EncodeEnvelope Envelope Marshal env = inr frame /\
    DecodeEnvelope Envelope Unmarshal (frame ++ rest) = inl (ErrFrameTooLarge, CodecProtobuf).
Proof.
  intros Hm Hlen. unfold EncodeEnvelope. rewrite Hm.
  eexists. split; [reflexivity|].
  rewrite Z.mod_small by (unfold maxFrame in Hlen; lia). cbn [app]. rewrite <- app_assoc.
  rewrite DecodeEnvelope_header by (unfold maxFrame in Hlen; lia).
  destruct (Z.ltb_spec maxFrame (Z.of_nat (length data))) as [_|Hsmall]; [reflexivity | lia].
Qed.

(** X21. [DecodeEnvelope] returns an envelope only for a protobuf frame: the
    input is then the codec byte [CodecProtobuf], the big-endian length of a
    payload of at most 64 MiB, the payload, which [proto.Unmarshal] turns
    into the envelope, and the rest. A complete frame of any other codec
    type, [CodecJSON] included, is read to its end and then refused; a length
    above 64 MiB is refused before the payload is read. *)
Theorem envelope_decode_sound (r : list byte) :
  (forall env c rest,
     DecodeEnvelope Envelope Unmarshal r = inr (env, c, rest) ->
     c = CodecProtobuf /\
     exists payload,
       Unmarshal payload = Some env /\ Z.of_nat (length payload) <= maxFrame /\
       r = CodecProtobuf :: put_be 4 (Z.of_nat (length payload)) ++ payload ++ rest) /\
  (forall c payload rest,
     c <> CodecProtobuf -> Z.of_nat (length payload) <= maxFrame ->
     r = c :: put_be 4 (Z.of_nat (length payload)) ++ payload ++ rest ->
     DecodeEnvelope Envelope Unmarshal r = inl (ErrLegacyJSON, c)) /\
  (forall c n rest,
     maxFrame < n < 2 ^ 32 -> r = c :: put_be 4 n ++ rest ->
     DecodeEnvelope Envelope Unmarshal r = inl (ErrFrameTooLarge, c)).
Proof.
  split; [|split].
  - intros env c rest. unfold DecodeEnvelope.
    destruct (ReadFull r 1) as [?|[codecByte r1]] eqn:Hc; [discriminate|].
    destruct (ReadFull r1 4) as [?|[len r2]] eqn:Hlen; [discriminate|]. cbv zeta.
    destruct (Z.ltb_spec maxFrame (get_be len)) as [|Hsmall]; [discriminate|].
    destruct (ReadFull r2 (Z.to_nat (get_be len))) as [?|[payload r3]] eqn:Hpay;
      [discriminate|].
    destruct (decide (hd Byte.x00 codecByte = CodecProtobuf)) as [Hproto|]; [|discriminate].
    destruct (Unmarshal payload) as [env'|] eqn:Hun; [|discriminate].
    intros Heq. assert (env' = env /\ hd Byte.x00 codecByte = c /\ r3 = rest)
      as (-> & <- & ->) by (repeat split; congruence). clear Heq.
    apply ReadFull_inr in Hc as [-> Hc], Hlen as [-> Hlen], Hpay as [-> Hpay].
    pose proof (get_be_range len) as Hrange.
    split; [exact Hproto|]. exists payload.
    rewrite Hpay, Z2Nat.id by lia. split; [exact Hun|]. split; [exact Hsmall|].
    rewrite <- Hproto.
    pose proof (put_be_get_be len) as Hput. rewrite Hlen in Hput. rewrite Hput.
    destruct codecByte as [|b [|? ?]]; try discriminate. reflexivity.
  - intros c payload rest Hc Hlen ->.
    rewrite DecodeEnvelope_header by (unfold maxFrame in Hlen; lia).
    destruct (Z.ltb_spec maxFrame (Z.of_nat (length payload))) as [|_]; [lia|].
    rewrite Nat2Z.id, (ReadFull_app payload rest _ eq_refl).
    destruct (decide (c = CodecProtobuf)); [done | reflexivity].
  - intros c n rest Hn ->.
    rewrite DecodeEnvelope_header by (unfold maxFrame in Hn; lia).
    destruct (Z.ltb_spec maxFrame n) as [_|]; [reflexivity | lia].
Qed.

End EnvelopeFacts.

Lemma envelope_roundtrip_witness :
  exists frame,
    EncodeEnvelope (list byte) Some ["a"; "b"]%byte = inr frame /\
    length frame = 7%nat /\
    DecodeEnvelope (list byte) Some (frame ++ ["z"]%byte)
    = inr (["a"; "b"]%byte, CodecProtobuf, ["z"]%byte).
Proof.
  apply (envelope_roundtrip Some Some ["a"; "b"]%byte ["a"; "b"]%byte ["z"]%byte);
    [reflexivity | unfold maxFrame; simpl; lia].
Defined.

Lemma envelope_limit_only_on_decode_witness :
  exists frame,
    EncodeEnvelope (list byte) Some (replicate (Z.to_nat (maxFrame + 1)) Byte.x00)
    = inr frame /\
    DecodeEnvelope (list byte) Some (frame ++ []) = inl (ErrFrameTooLarge, CodecProtobuf).
Proof.
  apply (envelope_limit_only_on_decode Some Some
           (replicate (Z.to_nat (maxFrame + 1)) Byte.x00)
           (replicate (Z.to_nat (maxFrame + 1)) Byte.x00) []); [reflexivity|].
  rewrite length_replicate, Z2Nat.id by (unfold maxFrame; lia). unfold maxFrame. lia.
Defined.

End CodecFacts.

(** ** The type converters and the id lists *)

Module ConvertersFacts.
Import Converters.

Lemma int32_id (x : Z) : int32 x = x <-> - 2 ^ 31 <= x < 2 ^ 31.
Proof.
  unfold int32. pose proof (Z.mod_pos_bound (x + 2 ^ 31) (2 ^ 32) ltac:(lia)) as Hm. split.
  - intros Hx. lia.
  - intros Hx. rewrite Z.mod_small by lia. lia.
Qed.

(** X22. Over the wire and back: a document and an entity come back without
    their attributes, a relationship without its text unit ids, and a text
    unit and a community with the token count and the level cut to 32 bits;
    every other field comes back as it was. So a text unit comes back
    unchanged exactly when its token count fits [int32], and a relationship
    exactly when it has no text unit ids. *)
Theorem converters_roundtrip :
  (forall d, ProtoToDocument (DocumentToProto d)
     = Graph.mkDocument (Graph.Document_ID d) (Graph.Document_ExternalID d)
         (Graph.Document_Filename d) (Graph.Document_Status d) ∅
         (Graph.Document_CreatedAt d)) /\
  (forall e, ProtoToEntity (EntityToProto e)
     = Graph.mkEntity (Graph.Entity_ID e) (Graph.Entity_ExternalID e) (Graph.Entity_Title e)
         (Graph.Entity_Type e) (Graph.Entity_Description e) ∅
         (Graph.Entity_TextUnitIDs e) (Graph.Entity_CreatedAt e)) /\
  (forall c, ProtoToCommunity (CommunityToProto c)
     = Graph.mkCommunity (Graph.Community_ID c) (Graph.Community_ExternalID c)
         (Graph.Community_Title c) (int32 (Graph.Community_Level c))
         (Graph.Community_EntityIDs c) (Graph.Community_RelationshipIDs c)
         (Graph.Community_Summary c) (Graph.Community_FullContent c)
         (Graph.Community_CreatedAt c)) /\
  (forall tu, ProtoToTextUnit (TextUnitToProto tu) = tu
     <-> - 2 ^ 31 <= Graph.TextUnit_TokenCount tu < 2 ^ 31) /\
  (forall r, ProtoToRelationship (RelationshipToProto r) = r
     <-> Graph.Relationship_TextUnitIDs r = []).
Proof.
  split; [reflexivity|]. split; [reflexivity|]. split; [reflexivity|]. split.
  - intros [id ext doc content ids tokens created].
    unfold ProtoToTextUnit, TextUnitToProto. cbn. rewrite <- int32_id. split.
    + intros [= Heq]. exact Heq.
    + intros ->. reflexivity.
  - intros [id ext src tgt ty descr w ids created].
    unfold ProtoToRelationship, RelationshipToProto. cbn. split.
    + intros [= Heq]. symmetry. exact Heq.
    + intros ->. reflexivity.
Qed.

End ConvertersFacts.

(** ** The id lists of text units, entities and relationships *)

Module GraphFacts.
Import Graph.

Lemma contains_elem_of (ids : list Z) (id : Z) : contains ids id = true <-> id ∈ ids.
Proof.
  induction ids as [|x ids IH]; cbn [contains].
  - rewrite elem_of_nil. split; [discriminate | tauto].
  - rewrite elem_of_cons. destruct (Z.eqb_spec x id) as [->|Hne].
    + split; [left; reflexivity | reflexivity].
    + rewrite IH. split; [right; assumption | intros [Heq|Hin]; [congruence | assumption]].
Qed.

Lemma elem_of_add_id (ids : list Z) (id x : Z) : x ∈ add_id ids id <-> x ∈ ids \/ x = id.
Proof.
  unfold add_id. destruct (contains ids id) eqn:Hc.
  - apply contains_elem_of in Hc. split; [left; assumption | intros [Hin| ->]; assumption].
  - rewrite elem_of_app, list_elem_of_singleton. reflexivity.
Qed.

Lemma NoDup_add_id (ids : list Z) (id : Z) : NoDup ids -> NoDup (add_id ids id).
Proof.
  intros Hnd. unfold add_id. destruct (contains ids id) eqn:Hc; [exact Hnd|].
  apply NoDup_app. split; [exact Hnd|]. split; [|apply NoDup_singleton].
  intros x Hin Hx. apply list_elem_of_singleton in Hx as ->.
  apply contains_elem_of in Hin. congruence.
Qed.

Lemma elem_of_remove_id_1 (ids : list Z) (id x : Z) : x ∈ remove_id ids id -> x ∈ ids.
Proof.
  induction ids as [|y ids IH]; cbn [remove_id]; [tauto|].
  destruct (Z.eqb_spec y id) as [->|Hne]; rewrite ?elem_of_cons; tauto.
Qed.

Lemma elem_of_remove_id (ids : list Z) (id x : Z) :
  NoDup ids -> x ∈ remove_id ids id <-> x ∈ ids /\ x <> id.
Proof.
  induction ids as [|y ids IH]; cbn [remove_id]; intros Hnd.
  - rewrite elem_of_nil. tauto.
  - apply NoDup_cons in Hnd as [Hy Hnd]. specialize (IH Hnd).
    destruct (Z.eqb_spec y id) as [->|Hne]; rewrite !elem_of_cons.
    + split; [intros Hin; split; [right; assumption | intros ->; contradiction]|].
      intros [[->|Hin] Hx]; [contradiction | assumption].
    + rewrite IH. split.
      * intros [->|[Hin Hx]]; [split; [left; reflexivity | congruence] | tauto].
      * intros [[->|Hin] Hx]; [left; reflexivity | right; tauto].
Qed.

Lemma NoDup_remove_id (ids : list Z) (id : Z) : NoDup ids -> NoDup (remove_id ids id).
Proof.
  induction ids as [|y ids IH]; cbn [remove_id]; intros Hnd; [constructor|].
  apply NoDup_cons in Hnd as [Hy Hnd].
  destruct (Z.eqb_spec y id) as [->|Hne]; [exact Hnd|].
  apply NoDup_cons. split; [|apply IH, Hnd].
  intros Hin. apply Hy. eapply elem_of_remove_id_1, Hin.
Qed.

Lemma remove_id_app_fresh (ids : list Z) (id : Z) :
  id ∉ ids -> remove_id (ids ++ [id]) id = ids.
Proof.
  induction ids as [|y ids IH]; cbn [remove_id app]; intros Hnot.
  - rewrite Z.eqb_refl. reflexivity.
  - apply not_elem_of_cons in Hnot as [Hne Hnot].
    destruct (Z.eqb_spec y id) as [->|_]; [contradiction|]. rewrite IH by exact Hnot.
    reflexivity.
Qed.

(** X23. The entity ids of a text unit behave as a set kept in order of
    arrival: on a list without duplicates, adding an id keeps the list free
    of duplicates and makes the id a member, beside the old members; removing
    an id takes it out and nothing else; and removing an id that was just
    added, and was new, gives the old list back. *)
Theorem entity_ids_are_a_set (t : TextUnit) (id : Z) :
  NoDup (TextUnit_EntityIDs t) ->
  NoDup (TextUnit_EntityIDs (TextUnit_AddEntityID id t)) /\
  (forall x, x ∈ TextUnit_EntityIDs (TextUnit_AddEntityID id t)
             <-> x ∈ TextUnit_EntityIDs t \/ x = id) /\
  NoDup (TextUnit_EntityIDs (TextUnit_RemoveEntityID id t)) /\
  (forall x, x ∈ TextUnit_EntityIDs (TextUnit_RemoveEntityID id t)
             <-> x ∈ TextUnit_EntityIDs t /\ x <> id) /\
  TextUnit_AddEntityID id (TextUnit_AddEntityID id t) = TextUnit_AddEntityID id t /\
  (id ∉ TextUnit_EntityIDs t ->
   TextUnit_RemoveEntityID id (TextUnit_AddEntityID id t) = t).
Proof.
  intros Hnd. destruct t as [tid ext doc content ids tokens created].
  unfold TextUnit_AddEntityID, TextUnit_RemoveEntityID.
  cbn [TextUnit_EntityIDs TextUnit_ID TextUnit_ExternalID TextUnit_DocumentID
       TextUnit_Content TextUnit_TokenCount TextUnit_CreatedAt] in *.
  split; [apply NoDup_add_id, Hnd|]. split; [intros x; apply elem_of_add_id|].
  split; [apply NoDup_remove_id, Hnd|]. split; [intros x; apply elem_of_remove_id, Hnd|].
  split.
  - f_equal. unfold add_id at 1.
    assert (Hin : contains (add_id ids id) id = true)
      by (apply contains_elem_of, elem_of_add_id; right; reflexivity).
    rewrite Hin. reflexivity.
  - intros Hnot. f_equal. unfold add_id.
    destruct (contains ids id) eqn:Hc; [apply contains_elem_of in Hc; contradiction|].
    apply remove_id_app_fresh, Hnot.
Qed.

Lemma entity_ids_are_a_set_witness :
  NoDup (TextUnit_EntityIDs
           (TextUnit_AddEntityID 7 (mkTextUnit 1 "chunk-001" 1 "text" [5; 7; 9] 3 0))).
Proof.
  apply (entity_ids_are_a_set (mkTextUnit 1 "chunk-001" 1 "text" [5; 7; 9] 3 0) 7).
  cbn [TextUnit_EntityIDs]. apply NoDup_ListNoDup. repeat constructor; simpl; lia.
Defined.

(** Without that condition only the first occurrence is cut out. *)
Lemma remove_id_first_only : remove_id [7; 5; 7] 7 = [5; 7].
Proof. reflexivity. Qed.

End GraphFacts.

(** ** WAL entries and snapshot files *)

Module BackupFacts.
Import GoInt Bytes BytesFacts XXHash Backup.

Lemma read_bytes_app (x r : list byte) (n : nat) :
  length x = n -> read_bytes n (x ++ r) = Some (x, r).
Proof.
  intros <-. unfold read_bytes.
  destruct (Nat.leb_spec (length x) (length (x ++ r))) as [_|Hlt].
  - rewrite take_app_length, drop_app_length. reflexivity.
  - rewrite length_app in Hlt. lia.
Qed.

Lemma length_entry_body bo e :
  length (entry_body bo e) = (25 + length (Key e) + length (Payload e))%nat.
Proof.
  unfold entry_body. rewrite !length_app, !length_put_uint. simpl. lia.
Qed.

(** The implementation agrees with the reference on its test vectors; the
    last is 63 bytes long and goes through every part of the algorithm. *)
Lemma xxHash64_vectors :
  xxHash64 [] = 0xef46db3751d8e999 /\
  xxHash64 ["a"]%byte = 0xd24ec4f1a98c6e5b /\
  xxHash64 ["a"; "s"; "d"; "f"]%byte = 0x415872f599cea71e /\
  xxHash64
    (String.list_byte_of_string
       "Call me Ishmael. Some years ago--never mind how long precisely-")
  = 0x02a2e85470d6fd96.
Proof. repeat split; vm_compute; reflexivity. Qed.

Lemma lxor_range (a b n : Z) :
  0 <= a < 2 ^ n -> 0 <= b < 2 ^ n -> 0 <= Z.lxor a b < 2 ^ n.
Proof.
  intros Ha Hb. split; [apply Z.lxor_nonneg; lia|].
  destruct (Z.eq_dec (Z.lxor a b) 0) as [->|Hne]; [lia|].
  assert (0 <= Z.lxor a b) by (apply Z.lxor_nonneg; lia).
  assert (Hn : 0 < n).
  { destruct (Z.lt_ge_cases 0 n) as [|Hle]; [assumption|].
    exfalso. apply Hne.
    assert (2 ^ n <= 1) by (destruct (Z.eq_dec n 0) as [->|]; [simpl; lia|];
                            rewrite Z.pow_neg_r by lia; lia).
    replace a with 0 by lia. replace b with 0 by lia. reflexivity. }
  apply Z.log2_lt_pow2; [lia|].
  eapply Z.le_lt_trans; [apply Z.log2_lxor; lia|].
  apply Z.max_lub_lt.
  - destruct (Z.eq_dec a 0) as [->|]; [simpl; lia | apply Z.log2_lt_pow2; lia].
  - destruct (Z.eq_dec b 0) as [->|]; [simpl; lia | apply Z.log2_lt_pow2; lia].
Qed.

Lemma shiftr_range (h k : Z) : 0 <= k -> 0 <= h < 2 ^ 64 -> 0 <= Z.shiftr h k < 2 ^ 64.
Proof.
  intros Hk Hh. rewrite Z.shiftr_div_pow2 by lia.
  assert (0 < 2 ^ k) by (apply Z.pow_pos_nonneg; lia). split.
  - apply Z.div_pos; lia.
  - apply Z.div_lt_upper_bound; nia.
Qed.

(** The checksum is a [u64]. *)
Lemma xxHash64_range (bs : list byte) : 0 <= xxHash64 bs < 2 ^ 64.
Proof.
  unfold xxHash64. destruct (32 <=? length bs)%nat.
  - destruct (stripes _ _ _ _ _ _) as [[[[v1 v2] v3] v4] rest].
    unfold avalanche. cbv zeta.
    apply lxor_range; [|apply shiftr_range; [lia|]]; apply Z.mod_pos_bound; lia.
  - unfold avalanche. cbv zeta.
    apply lxor_range; [|apply shiftr_range; [lia|]]; apply Z.mod_pos_bound; lia.
Qed.

(** C3. A WAL entry whose fields fit their widths is written as one type
    byte, the LSN in 8 bytes, the unix-nanoseconds timestamp in 8 bytes, the
    length of the key in 4 bytes and the key, the length of the payload in 4
    bytes and the payload, and last the xxHash64, in 8 bytes, of all the
    bytes of the entry before it; and decoding these bytes, whatever follows
    them, gives back the entry with the same type, LSN, timestamp, key and
    payload. *)
Theorem wal_entry_layout_roundtrip (bo : ByteOrder) (e : WALEntry) (rest : list byte) :
  entry_in_range e ->
  let bytes := encodeEntry bo e in
  let preceding := take (length bytes - 8) bytes in
  bytes =
    [EntryType e]
    ++ put_uint bo 8 (LSN e)
    ++ put_uint bo 8 (uint64_of_int64 (Timestamp e))
    ++ put_uint bo 4 (Z.of_nat (length (Key e))) ++ Key e
    ++ put_uint bo 4 (Z.of_nat (length (Payload e))) ++ Payload e
    ++ put_uint bo 8 (xxHash64 preceding) /\
  length bytes = (1 + 8 + 8 + 4 + length (Key e) + 4 + length (Payload e) + 8)%nat /\
  decodeEntry bo (bytes ++ rest) = inr (e, rest).
Proof.
  intros (Hlsn & Hts & Hkey & Hpayload) bytes preceding.
  assert (Hlen : length bytes = (33 + length (Key e) + length (Payload e))%nat).
  { unfold bytes, encodeEntry. rewrite length_app, length_entry_body, length_put_uint. lia. }
  assert (Hpre : preceding = entry_body bo e).
  { unfold preceding. rewrite Hlen. unfold bytes, encodeEntry.
    rewrite take_app_length'; [reflexivity|]. rewrite length_entry_body. lia. }
  split; [|split].
  - rewrite Hpre. unfold bytes, encodeEntry, entry_body.
    rewrite <- !app_assoc. reflexivity.
  - rewrite Hlen. lia.
  - unfold bytes, encodeEntry, decodeEntry.
    set (sum := put_uint bo 8 (xxHash64 (entry_body bo e))).
    unfold entry_body. rewrite <- !app_assoc.
    rewrite (read_bytes_app [EntryType e] _ 1 eq_refl).
    rewrite (read_bytes_app (put_uint bo 8 (LSN e)) _ 8 (length_put_uint _ _ _)).
    rewrite (read_bytes_app (put_uint bo 8 (uint64_of_int64 (Timestamp e))) _ 8
               (length_put_uint _ _ _)).
    rewrite (read_bytes_app (put_uint bo 4 (Z.of_nat (length (Key e)))) _ 4
               (length_put_uint _ _ _)).
    rewrite (get_uint_put_uint bo 4) by (simpl; lia). rewrite Nat2Z.id.
    rewrite (read_bytes_app (Key e) _ _ eq_refl).
    rewrite (read_bytes_app (put_uint bo 4 (Z.of_nat (length (Payload e)))) _ 4
               (length_put_uint _ _ _)).
    rewrite (get_uint_put_uint bo 4) by (simpl; lia). rewrite Nat2Z.id.
    rewrite (read_bytes_app (Payload e) _ _ eq_refl).
    rewrite (read_bytes_app sum rest 8 (length_put_uint _ _ _)).
    unfold sum. rewrite (get_uint_put_uint bo 8) by apply xxHash64_range.
    change ([EntryType e] ++ ?l) with (EntryType e :: l).
    rewrite Z.eqb_refl.
    rewrite (get_uint_put_uint bo 8) by (simpl; lia).
    rewrite (get_uint_put_uint bo 8) by apply uint64_of_int64_range.
    rewrite (int64_of_uint64_of_int64 _ Hts).
    destruct e; reflexivity.
Qed.

(** An insert of key [e:1] with LSN 1, in either byte order. *)
Lemma wal_entry_layout_roundtrip_witness :
  let e := mkWALEntry "001"%byte 1 1700000000000000000
             ["e"; ":"; "1"]%byte ["{"; "}"]%byte in
  length (encodeEntry LittleEndian e) = 38%nat /\
  decodeEntry LittleEndian (encodeEntry LittleEndian e ++ ["000"]%byte)
    = inr (e, ["000"]%byte) /\
  decodeEntry BigEndian (encodeEntry BigEndian e) = inr (e, []).
Proof.
  intros e.
  assert (Hrange : entry_in_range e)
    by (unfold entry_in_range, in_int64, int64_min, int64_max; simpl; lia).
  destruct (wal_entry_layout_roundtrip LittleEndian e ["000"]%byte Hrange)
    as (_ & Hlen & Hdec).
  destruct (wal_entry_layout_roundtrip BigEndian e [] Hrange) as (_ & _ & Hdec').
  rewrite app_nil_r in Hdec'. split; [exact Hlen|]. split; [exact Hdec | exact Hdec'].
Defined.

(** C4. A snapshot file begins with the four bytes [GRAM], which read as a
    big-endian integer are 0x4752414D, and the reader opens what the writer
    wrote; on a file whose first four bytes are anything else the reader
    fails with an error and returns no reader, so nothing of the file is
    loaded. *)
Theorem snapshot_reader_validates_magic (header_size : nat)
    (fields body bytes : list byte) :
  length fields = (header_size - 4)%nat ->
  take 4 bytes <> magic ->
  take 4 (snapshot_file fields body) = magic /\
  get_be magic = 0x4752414D /\
  NewSnapshotReader header_size (Some (snapshot_file fields body))
    = inr (mkSnapshotReader fields body) /\
  NewSnapshotReader header_size (Some bytes) = inl ErrInvalidMagic.
Proof.
  intros Hfields Hbad. split; [reflexivity|]. split; [reflexivity|]. split.
  - unfold NewSnapshotReader, snapshot_file.
    rewrite (read_bytes_app magic _ 4 eq_refl).
    rewrite bool_decide_eq_true_2 by reflexivity.
    rewrite (read_bytes_app fields body _ Hfields). reflexivity.
  - unfold NewSnapshotReader, read_bytes.
    destruct (4 <=? length bytes)%nat; [|reflexivity].
    rewrite bool_decide_eq_false_2 by exact Hbad. reflexivity.
Qed.

(** The file of [TestSnapshotReader_InvalidMagic]: a header that starts with
    [BAD!]. *)
Lemma snapshot_reader_validates_magic_witness :
  NewSnapshotReader 48 (Some (["B"; "A"; "D"; "!"]%byte ++ replicate 44 "000"%byte))
  = inl ErrInvalidMagic.
Proof.
  apply (snapshot_reader_validates_magic 48 (replicate 44 "000"%byte) []
           (["B"; "A"; "D"; "!"]%byte ++ replicate 44 "000"%byte)).
  - reflexivity.
  - discriminate.
Defined.

End BackupFacts.

(** ** The cleanup scheduler *)

Module EngineFacts.
Import Types Engine.

(** *** The heap *)

Lemma Less_Some (h : expiryHeap) i j a b :
  h !! i = Some a -> h !! j = Some b ->
  Less h i j = Some (expireAt a <? expireAt b).
Proof. intros Hi Hj. unfold Less. rewrite Hi, Hj. reflexivity. Qed.

Lemma Swap_Some (h : expiryHeap) i j a b :
  h !! i = Some a -> h !! j = Some b ->
  Swap h i j
  = Some (<[j := with_index (Z.of_nat j) a]> (<[i := with_index (Z.of_nat i) b]> h)).
Proof. intros Hi Hj. unfold Swap. rewrite Hi, Hj. reflexivity. Qed.

(** A swap permutes the entries, positions aside. *)
Lemma Swap_Permutation (h h' : expiryHeap) i j :
  Swap h i j = Some h' -> ident <$> h' ≡ₚ ident <$> h.
Proof.
  unfold Swap. destruct (h !! i) as [a|] eqn:Hi; [|discriminate].
  destruct (h !! j) as [b|] eqn:Hj; [|discriminate]. cbn [mbind option_bind].
  intros Heq.
  assert (h' = <[j:=with_index (Z.of_nat j) a]> (<[i:=with_index (Z.of_nat i) b]> h))
    as -> by congruence.
  rewrite !list_fmap_insert.
  change (ident (with_index (Z.of_nat j) a)) with (ident a).
  change (ident (with_index (Z.of_nat i) b)) with (ident b).
  apply Permutation_insert_swap; rewrite list_lookup_fmap; [rewrite Hi | rewrite Hj];
    reflexivity.
Qed.

Lemma child_gt p c : child p c -> (p < c)%nat.
Proof. unfold child. lia. Qed.

Lemma child_parent_unique p p' c : child p c -> child p' c -> p = p'.
Proof. unfold child. lia. Qed.

(** Sifting down restores heap order, and never runs out of fuel or range. *)
Lemma down_spec (fuel : nat) (h : expiryHeap) (i n : nat) :
  (n <= length h)%nat -> (n <= i + fuel)%nat -> down_inv h i n ->
  exists h',
    down fuel h i n = Some h' /\
    heap_ordered h' n /\
    length h' = length h /\
    ident <$> h' ≡ₚ ident <$> h /\
    (forall k, (n <= k)%nat -> h' !! k = h !! k).
Proof.
  revert h i. induction fuel as [|fuel IH]; intros h i Hn Hfuel [Hinv1 Hinv2].
  - exists h. repeat split; try done.
    intros p c a b Hc Hlt. apply Hinv1; [assumption..|].
    apply child_gt in Hc. lia.
  - cbn [down].
    destruct (Nat.leb_spec n (2 * i + 1)) as [Hnochild|Hj1].
    { exists h. repeat split; try done.
      intros p c a b Hc Hlt. apply Hinv1; [assumption..|].
      unfold child in Hc. lia. }
    destruct (lookup_lt_is_Some_2 h i ltac:(lia)) as [ei Hei].
    destruct (lookup_lt_is_Some_2 h (2 * i + 1) ltac:(lia)) as [e1 He1].
    (* the smaller child *)
    assert (Hmin : exists j ej,
               (if (2 * i + 1 + 1 <? n)%nat then Less h (2 * i + 1 + 1) (2 * i + 1)
                else Some false)
               = Some (bool_decide (j = 2 * i + 1 + 1)%nat) /\
               child i j /\ (j < n)%nat /\ h !! j = Some ej /\
               (forall c b, child i c -> (c < n)%nat -> h !! c = Some b ->
                            expireAt ej <= expireAt b)).
    { destruct (Nat.ltb_spec (2 * i + 1 + 1) n) as [Hj2|Hj2].
      - destruct (lookup_lt_is_Some_2 h (2 * i + 1 + 1) ltac:(lia)) as [e2 He2].
        rewrite (Less_Some h _ _ e2 e1 He2 He1).
        destruct (Z.ltb_spec (expireAt e2) (expireAt e1)) as [Hlt|Hge].
        + exists (2 * i + 1 + 1)%nat, e2. rewrite bool_decide_eq_true_2 by reflexivity.
          repeat split; try done; [unfold child; lia|].
          intros c b [->| ->] Hc Hb.
          * rewrite He1 in Hb. injection Hb as <-. lia.
          * replace (2 * i + 2)%nat with (2 * i + 1 + 1)%nat in Hb by lia.
            rewrite He2 in Hb. injection Hb as <-. lia.
        + exists (2 * i + 1)%nat, e1. rewrite bool_decide_eq_false_2 by lia.
          repeat split; try done; [unfold child; lia|].
          intros c b [->| ->] Hc Hb.
          * rewrite He1 in Hb. injection Hb as <-. lia.
          * replace (2 * i + 2)%nat with (2 * i + 1 + 1)%nat in Hb by lia.
            rewrite He2 in Hb. injection Hb as <-. lia.
      - exists (2 * i + 1)%nat, e1. rewrite bool_decide_eq_false_2 by lia.
        repeat split; try done; [unfold child; lia|].
        intros c b [->| ->] Hc Hb; [|lia].
        rewrite He1 in Hb. injection Hb as <-. lia. }
    destruct Hmin as (j & ej & -> & Hchild & Hjn & Hej & Hmin).
    assert (Hj : (if bool_decide (j = (2 * i + 1 + 1)%nat)
                  then (2 * i + 1 + 1)%nat else (2 * i + 1)%nat) = j).
    { case_bool_decide; [congruence | unfold child in Hchild; lia]. }
    rewrite Hj. clear Hj.
    rewrite (Less_Some h j i ej ei Hej Hei).
    destruct (Z.ltb_spec (expireAt ej) (expireAt ei)) as [Hlt|Hge]; cbn [negb].
    + (* the child goes up *)
      rewrite (Swap_Some h i j ei ej Hei Hej).
      set (h1 := <[j:=with_index (Z.of_nat j) ei]> (<[i:=with_index (Z.of_nat i) ej]> h)).
      pose proof (child_gt _ _ Hchild) as Hij.
      assert (Hlen1 : length h1 = length h) by (unfold h1; rewrite !length_insert; reflexivity).
      assert (H1j : h1 !! j = Some (with_index (Z.of_nat j) ei)).
      { unfold h1. apply list_lookup_insert_eq. rewrite length_insert. lia. }
      assert (H1i : h1 !! i = Some (with_index (Z.of_nat i) ej)).
      { unfold h1. rewrite list_lookup_insert_ne by lia.
        apply list_lookup_insert_eq. lia. }
      assert (H1k : forall k, k <> i -> k <> j -> h1 !! k = h !! k).
      { intros k Hki Hkj. unfold h1. rewrite !list_lookup_insert_ne by lia. reflexivity. }
      destruct (IH h1 j) as (h' & Hdown & Hord & Hlen & Hperm & Hrest).
      * lia.
      * lia.
      * split.
        -- intros p c a b Hc Hcn Hpj Ha Hb.
           destruct (decide (p = i)) as [->|Hpi].
           ++ rewrite H1i in Ha. injection Ha as <-. cbn [with_index expireAt].
              destruct (decide (c = j)) as [->|Hcj].
              ** rewrite H1j in Hb. injection Hb as <-. cbn [with_index expireAt]. lia.
              ** rewrite H1k in Hb by (apply child_gt in Hc; lia). eauto.
           ++ rewrite H1k in Ha by assumption.
              destruct (decide (c = i)) as [->|Hci].
              ** rewrite H1i in Hb. injection Hb as <-. cbn [with_index expireAt].
                 eapply (Hinv2 p j); eauto.
              ** destruct (decide (c = j)) as [->|Hcj].
                 { exfalso. apply Hpi. eapply child_parent_unique; eauto. }
                 rewrite H1k in Hb by assumption. eapply Hinv1; eauto.
        -- intros p c a b Hp Hc Hcn Ha Hb.
           assert (p = i) as -> by (eapply child_parent_unique; eauto).
           rewrite H1i in Ha. injection Ha as <-. cbn [with_index expireAt].
           rewrite H1k in Hb by (apply child_gt in Hc; lia).
           eapply (Hinv1 j c); eauto. lia.
      * exists h'. split; [exact Hdown|]. split; [exact Hord|].
        split; [lia|]. split.
        -- rewrite Hperm. apply (Swap_Permutation h h1 i j).
           apply Swap_Some; assumption.
        -- intros k Hk. rewrite Hrest by assumption. apply H1k; lia.
    + (* the entry stays *)
      exists h. repeat split; try done.
      intros p c a b Hc Hcn Ha Hb.
      destruct (decide (p = i)) as [->|Hpi]; [|eapply Hinv1; eauto].
      rewrite Hei in Ha. injection Ha as <-.
      specialize (Hmin c b Hc Hcn Hb). lia.
Qed.

(** [heap.Pop] on a heap that is not empty returns its root, an entry that
    expires first, and leaves a heap of the other entries. *)
Lemma heap_Pop_spec (h : expiryHeap) (root : sessionExpiry) :
  h !! 0%nat = Some root -> heap_ordered h (length h) ->
  exists h',
    heap_Pop h = Some (with_index (-1) root, h') /\
    S (length h') = length h /\
    heap_ordered h' (length h') /\
    ident <$> h ≡ₚ ident root :: (ident <$> h').
Proof.
  intros Hroot Hord. unfold heap_Pop, Len.
  pose proof (lookup_lt_Some _ _ _ Hroot) as Hlen.
  set (n := (length h - 1)%nat).
  destruct (lookup_lt_is_Some_2 h n ltac:(lia)) as [lst Hlast].
  rewrite (Swap_Some h 0 n root lst Hroot Hlast). cbn [mbind option_bind].
  set (h1 := <[n:=with_index (Z.of_nat n) root]> (<[0%nat:=with_index (Z.of_nat 0) lst]> h)).
  assert (Hlen1 : length h1 = length h) by (unfold h1; rewrite !length_insert; reflexivity).
  assert (H1n : h1 !! n = Some (with_index (Z.of_nat n) root)).
  { unfold h1. apply list_lookup_insert_eq. rewrite length_insert. lia. }
  assert (H1k : forall k, k <> 0%nat -> k <> n -> h1 !! k = h !! k).
  { intros k Hk0 Hkn. unfold h1. rewrite !list_lookup_insert_ne by lia. reflexivity. }
  destruct (down_spec n h1 0 n) as (h2 & Hdown & Hord2 & Hlen2 & Hperm2 & Hrest2).
  - lia.
  - lia.
  - split.
    + intros p c a b Hc Hcn Hp0 Ha Hb. pose proof (child_gt _ _ Hc).
      rewrite H1k in Ha by lia. rewrite H1k in Hb by lia.
      eapply Hord; eauto. lia.
    + intros p c a b Hp. unfold child in Hp. lia.
  - rewrite Hdown. cbn [mbind option_bind]. unfold Pop. rewrite Hlen2, Hlen1.
    fold n. rewrite (Hrest2 n) by lia. rewrite H1n. cbn [mbind option_bind].
    exists (take n h2). split; [reflexivity|].
    assert (Htake : length (take n h2) = n) by (rewrite length_take; lia).
    split; [lia|]. split.
    + rewrite Htake. intros p c a b Hc Hcn Ha Hb. pose proof (child_gt _ _ Hc).
      rewrite lookup_take_lt in Ha by lia. rewrite lookup_take_lt in Hb by lia.
      eapply Hord2; eauto.
    + assert (Hh2 : h2 = take n h2 ++ [with_index (Z.of_nat n) root]).
      { rewrite <- (take_S_r h2 n) by (rewrite (Hrest2 n) by lia; exact H1n).
        symmetry. apply take_ge. lia. }
      rewrite <- (Swap_Permutation h h1 0 n (Swap_Some h 0 n root lst Hroot Hlast)).
      rewrite <- Hperm2. rewrite Hh2 at 1.
      rewrite fmap_app. cbn [fmap list_fmap].
      rewrite Permutation_app_comm. reflexivity.
Qed.

(** In a heap no entry expires before the root. *)
Lemma heap_root_first (h : expiryHeap) (root : sessionExpiry) :
  heap_ordered h (length h) -> h !! 0%nat = Some root ->
  Forall (fun e => expireAt root <= expireAt e) h.
Proof.
  intros Hord Hroot. apply Forall_lookup. intros k.
  induction k as [k IH] using lt_wf_ind. intros e He.
  destruct k as [|k]; [rewrite Hroot in He; injection He as <-; lia|].
  pose proof (lookup_lt_Some _ _ _ He) as Hk.
  set (p := (k / 2)%nat).
  assert (Hc : child p (S k)).
  { unfold child, p. pose proof (Nat.div_mod_eq k 2).
    pose proof (Nat.mod_upper_bound k 2 ltac:(lia)). lia. }
  pose proof (child_gt _ _ Hc) as Hp.
  destruct (lookup_lt_is_Some_2 h p ltac:(lia)) as [ep Hep].
  specialize (IH p Hp ep Hep). pose proof (Hord p (S k) ep e Hc Hk Hep He). lia.
Qed.

(** *** The first loop of [cleanup] *)

(** The loop ends within its fuel; the entries it popped are due, in the
    order of [toRemove], and none of those it left is. *)
Lemma collect_spec (fuel : nat) (now : Z) (s : SessionCleanupScheduler)
    (acc : list string) :
  (length (heap s) <= fuel)%nat -> heap_ordered (heap s) (length (heap s)) ->
  exists s' popped,
    collect fuel now s acc = Some (s', acc ++ popped.*1) /\
    ident <$> heap s ≡ₚ popped ++ (ident <$> heap s') /\
    Forall (fun k => k.2 <= now) popped /\
    Forall (fun e => now < expireAt e) (heap s') /\
    heap_ordered (heap s') (length (heap s')) /\
    heapIndex s' = heapIndex s ∖ list_to_set popped.*1.
Proof.
  revert s acc. induction fuel as [|fuel IH]; intros s acc Hfuel Hord.
  - exists s, []. cbn [collect fmap list_fmap]. rewrite app_nil_r.
    assert (heap s = []) as Hnil by (apply length_zero_iff_nil; lia).
    split; [reflexivity|]. split; [reflexivity|]. split; [constructor|].
    split; [rewrite Hnil; constructor|]. split; [exact Hord|].
    rewrite list_to_set_nil. symmetry. apply difference_empty_L.
  - cbn [collect]. destruct (heap s !! 0%nat) as [root|] eqn:Hroot.
    + destruct (Z.leb_spec (expireAt root) now) as [Hdue|Hnot].
      * destruct (heap_Pop_spec (heap s) root Hroot Hord)
          as (h' & Hpop & Hlen & Hord' & Hperm).
        rewrite Hpop. cbn [mbind option_bind].
        change (sessionID (with_index (-1) root)) with (sessionID root).
        destruct (IH (mkScheduler h' (heapIndex s ∖ {[sessionID root]}))
                    (acc ++ [sessionID root]))
          as (s' & popped & Hcollect & Hperm' & Hdue' & Hleft & Hord'' & Hidx);
          [cbn [heap]; lia | exact Hord' |].
        cbn [heap heapIndex] in *.
        exists s', (ident root :: popped). split.
        { rewrite Hcollect. cbn [fmap list_fmap ident fst].
          rewrite <- app_assoc. reflexivity. }
        split; [rewrite Hperm, Hperm'; reflexivity|].
        split; [constructor; [exact Hdue | exact Hdue']|].
        split; [exact Hleft|]. split; [exact Hord''|].
        rewrite Hidx. cbn [fmap list_fmap ident fst]. rewrite list_to_set_cons.
        apply set_eq. intros x.
        rewrite !elem_of_difference, elem_of_union, elem_of_singleton. tauto.
      * exists s, []. cbn [fmap list_fmap]. rewrite app_nil_r.
        split; [reflexivity|]. split; [reflexivity|]. split; [constructor|].
        split; [|split; [exact Hord|]].
        -- eapply Forall_impl; [apply (heap_root_first _ _ Hord Hroot)|].
           intros e He. simpl in He. lia.
        -- rewrite list_to_set_nil. symmetry. apply difference_empty_L.
    + exists s, []. cbn [fmap list_fmap]. rewrite app_nil_r.
      apply lookup_ge_None_1 in Hroot.
      assert (heap s = []) as Hnil by (apply length_zero_iff_nil; lia).
      split; [reflexivity|]. split; [reflexivity|]. split; [constructor|].
      split; [rewrite Hnil; constructor|]. split; [exact Hord|].
      rewrite list_to_set_nil. symmetry. apply difference_empty_L.
Qed.

(** *** The second loop of [cleanup] *)

Lemma evict_one_dom (now : Z) (m : gmap string Session) (id id' : string) :
  id' ∈ dom (evict_one now m id) ->  id' ∈ dom m.
Proof.
  unfold evict_one. destruct (m !! id) as [sess|]; [|done].
  destruct (IsExpired sess now); [|done]. rewrite dom_delete_L.
  intros Hin. apply elem_of_difference in Hin. apply Hin.
Qed.

(** A session leaves the map at a check only if it is the one checked and
    it is expired at the time the check reads. *)
Lemma evict_one_gone (now : Z) (m : gmap string Session) (id id' : string) :
  id' ∈ dom m -> id' ∉ dom (evict_one now m id) ->
  id' = id /\ exists sess, m !! id = Some sess /\ IsExpired sess now = true.
Proof.
  unfold evict_one. intros Hin Hout.
  destruct (m !! id) as [sess|] eqn:Hsess; [|done].
  destruct (IsExpired sess now) eqn:Hexp; [|done].
  rewrite dom_delete_L in Hout.
  destruct (decide (id' = id)) as [->|Hne]; [eauto|].
  exfalso. apply Hout. apply elem_of_difference. split; [exact Hin|].
  rewrite elem_of_singleton. exact Hne.
Qed.

Lemma evict_sound (clock : nat -> Z)
    (env : nat -> gmap string Session -> gmap string Session)
    (toRemove : list string) (k : nat) (m : gmap string Session) (id : string) :
  keeps_keys env ->
  id ∈ dom m -> id ∉ dom (evict clock env k toRemove m) ->
  exists j sess,
    toRemove !! j = Some id /\
    seen_at clock env k toRemove m j !! id = Some sess /\
    IsExpired sess (clock (k + j)%nat) = true.
Proof.
  intros Henv. revert k m. induction toRemove as [|id0 toRemove IH]; intros k m Hin Hout.
  - done.
  - cbn [evict] in Hout.
    destruct (decide (id ∈ dom (evict_one (clock k) (env k m) id0))) as [Hstill|Hgone].
    + destruct (IH (S k) _ Hstill Hout) as (j & sess & Hj & Hseen & Hexp).
      exists (S j), sess. split; [exact Hj|]. split; [exact Hseen|].
      replace (k + S j)%nat with (S k + j)%nat by lia. exact Hexp.
    + destruct (evict_one_gone (clock k) (env k m) id0 id) as (-> & sess & Hsess & Hexp);
        [rewrite Henv; exact Hin | exact Hgone |].
      exists 0%nat, sess. split; [reflexivity|]. split; [exact Hsess|].
      rewrite Nat.add_0_r. exact Hexp.
Qed.

Lemma evict_dom (clock : nat -> Z)
    (env : nat -> gmap string Session -> gmap string Session)
    (toRemove : list string) (k : nat) (m : gmap string Session) (id : string) :
  keeps_keys env ->
  id ∈ dom (evict clock env k toRemove m) -> id ∈ dom m.
Proof.
  intros Henv. revert k m. induction toRemove as [|id0 toRemove IH]; intros k m Hin.
  - exact Hin.
  - cbn [evict] in Hin. apply IH in Hin. apply evict_one_dom in Hin.
    rewrite Henv in Hin. exact Hin.
Qed.

(** *** The claim *)

(** C7. When [cleanup] runs on a scheduler whose heap is in heap order, it
    pops the heap entries that are due at [now], all of them and no other,
    and collects their session ids in [toRemove]. A session that was in the
    engine's map and is not after the pass was popped, and at the check
    made for it, its expiry predicate held for the session as it then was
    and for the time that check read. A session for which the predicate
    does not hold whenever it is checked, because it was touched in the
    meantime, stays in the map. The pass adds no session. *)
Theorem cleanup_evicts_only_expired (now : Z) (clock : nat -> Z)
    (env : nat -> gmap string Session -> gmap string Session)
    (s : SessionCleanupScheduler) (sessions : gmap string Session) :
  heap_ordered (heap s) (Len (heap s)) ->
  keeps_keys env ->
  exists s' toRemove popped,
    let sessions' := evict clock env 0 toRemove sessions in
    cleanup now clock env s sessions = Some (s', sessions') /\
    popped.*1 = toRemove /\
    ident <$> heap s ≡ₚ popped ++ (ident <$> heap s') /\
    Forall (fun k => k.2 <= now) popped /\
    Forall (fun e => now < expireAt e) (heap s') /\
    heapIndex s' = heapIndex s ∖ list_to_set toRemove /\
    (forall id, id ∈ dom sessions -> id ∉ dom sessions' ->
       exists j sess,
         toRemove !! j = Some id /\
         seen_at clock env 0 toRemove sessions j !! id = Some sess /\
         IsExpired sess (clock j) = true) /\
    (forall id, id ∈ dom sessions ->
       (forall j sess,
          toRemove !! j = Some id ->
          seen_at clock env 0 toRemove sessions j !! id = Some sess ->
          IsExpired sess (clock j) = false) ->
       id ∈ dom sessions') /\
    dom sessions' ⊆ dom sessions.
Proof.
  intros Hord Henv.
  destruct (collect_spec (Len (heap s)) now s [] (le_n _) Hord)
    as (s' & popped & Hcollect & Hperm & Hdue & Hleft & _ & Hidx).
  rewrite app_nil_l in Hcollect.
  exists s', popped.*1, popped. cbv zeta.
  assert (Hsound : forall id, id ∈ dom sessions ->
            id ∉ dom (evict clock env 0 popped.*1 sessions) ->
            exists j sess,
              popped.*1 !! j = Some id /\
              seen_at clock env 0 popped.*1 sessions j !! id = Some sess /\
              IsExpired sess (clock j) = true).
  { intros id Hin Hout. apply (evict_sound clock env _ 0 sessions id Henv Hin Hout). }
  split; [unfold cleanup; rewrite Hcollect; reflexivity|].
  split; [reflexivity|]. split; [exact Hperm|]. split; [exact Hdue|].
  split; [exact Hleft|]. split; [exact Hidx|]. split; [exact Hsound|]. split.
  - intros id Hin Hfresh.
    destruct (decide (id ∈ dom (evict clock env 0 popped.*1 sessions))) as [|Hout];
      [assumption|].
    destruct (Hsound id Hin Hout) as (j & sess & Hj & Hseen & Hexp).
    rewrite (Hfresh j sess Hj Hseen) in Hexp. discriminate.
  - intros id Hin. apply (evict_dom clock env _ 0 sessions id Henv Hin).
Qed.

Lemma example_heap_ordered :
  heap_ordered (heap example_scheduler) (Len (heap example_scheduler)).
Proof.
  intros p c a b Hc Hlt Ha Hb. unfold child in Hc. cbn in Hlt.
  assert (p = 0%nat) as -> by lia.
  assert (c = 1%nat \/ c = 2%nat) as [-> | ->] by lia;
    cbn in Ha, Hb; injection Ha as <-; injection Hb as <-; cbn; lia.
Qed.

Lemma example_env_keeps_keys : keeps_keys example_env.
Proof.
  intros [|[|k]] m; try reflexivity. unfold example_env. apply dom_alter_L.
Qed.

Lemma cleanup_evicts_only_expired_witness :
  exists s' toRemove,
    cleanup 200 example_clock example_env example_scheduler example_sessions
    = Some (s', evict example_clock example_env 0 toRemove example_sessions).
Proof.
  destruct (cleanup_evicts_only_expired 200 example_clock example_env
              example_scheduler example_sessions
              example_heap_ordered example_env_keeps_keys)
    as (s' & toRemove & popped & Hcleanup & _).
  exists s', toRemove. exact Hcleanup.
Defined.

(** The pass on the example: [a] and [b] are popped; [a] is evicted, [b],
    touched before its check, and [c], not due, are still in the map. *)
Lemma cleanup_example :
  exists s' sessions',
    cleanup 200 example_clock example_env example_scheduler example_sessions
    = Some (s', sessions') /\
    ident <$> heap s' = [("c", 900)] /\
    sessions' !! "a" = None /\
    LastAccess <$> sessions' !! "b" = Some 200 /\
    is_Some (sessions' !! "c").
Proof.
  eexists _, _. split; [vm_compute; reflexivity|].
  split; [reflexivity|]. split; [reflexivity|]. split; [reflexivity|].
  eexists. reflexivity.
Qed.

End EngineFacts.

(** ** [container/heap] *)

Module HeapFacts.
Import Heap.

Section Moved.
Context {H X : Type} `{!Interface H X}.

(** [down] reports a move exactly when it swapped. *)
Lemma down_moved (fuel : nat) (h h' : H) (i0 i n : nat) (moved : bool) :
  (i0 <= i)%nat ->
  down fuel h i0 i n = Some (h', moved) ->
  ((i0 < i)%nat -> moved = true) /\ (moved = false -> h' = h /\ i = i0).
Proof.
  revert h i. induction fuel as [|fuel IH]; intros h i Hle; cbn [down].
  - intros [= <- <-]. split.
    + intros Hlt. apply Nat.ltb_lt, Hlt.
    + intros Hm. apply Nat.ltb_ge in Hm. split; [reflexivity | lia].
  - cbv zeta.
    assert (Hstop : Some (h, (i0 <? i)%nat) = Some (h', moved) ->
              ((i0 < i)%nat -> moved = true) /\ (moved = false -> h' = h /\ i = i0)).
    { intros [= <- <-]. split.
      - intros Hlt. apply Nat.ltb_lt, Hlt.
      - intros Hm. apply Nat.ltb_ge in Hm. split; [reflexivity | lia]. }
    destruct (n <=? _)%nat; [exact Hstop|].
    destruct (if (_ <? n)%nat then _ else _) as [right_less|]; [|discriminate].
    destruct (Less h _ i) as [less|]; [|discriminate].
    destruct less; cbn [negb]; [|exact Hstop].
    destruct (Swap h i _) as [h1|]; [|discriminate].
    intros Hdown. apply IH in Hdown as [Hlt _]; [|destruct right_less; lia].
    assert (Hm : moved = true) by (apply Hlt; destruct right_less; lia).
    split; [intros _; exact Hm | intros Hf; congruence].
Qed.

End Moved.

Section Simulation.
Context {H1 X1 H2 X2 : Type} `{!Interface H1 X1} `{!Interface H2 X2}.

(** Two implementations, related by [R] so that [Less] agrees and every swap
    of the second is a swap of the first: the loops of the second are loops
    of the first. *)
Variable R : H1 -> H2 -> Prop.
Hypothesis R_Less : forall a b i j, R a b -> Less a i j = Less b i j.
Hypothesis R_Swap : forall a b i j b',
  R a b -> Swap b i j = Some b' -> exists a', Swap a i j = Some a' /\ R a' b'.

Lemma up_simulates (fuel : nat) (a : H1) (b b' : H2) (j : nat) :
  R a b -> up fuel b j = Some b' -> exists a', up fuel a j = Some a' /\ R a' b'.
Proof.
  revert a b j. induction fuel as [|fuel IH]; intros a b j HR; cbn [up].
  - intros [= <-]. exists a. split; [reflexivity | exact HR].
  - cbv zeta. rewrite (R_Less a b _ _ HR).
    destruct (_ =? j)%nat; [intros [= <-]; exists a; split; [reflexivity | exact HR]|].
    destruct (Less b j _) as [less|]; [|discriminate].
    destruct less; cbn [negb]; [|intros [= <-]; exists a; split; [reflexivity | exact HR]].
    destruct (Swap b _ j) as [b1|] eqn:Hswap; [|discriminate].
    destruct (R_Swap a b _ _ b1 HR Hswap) as (a1 & -> & HR1).
    apply IH, HR1.
Qed.

Lemma down_simulates (fuel : nat) (a : H1) (b b' : H2) (i0 i n : nat) (moved : bool) :
  R a b -> down fuel b i0 i n = Some (b', moved) ->
  exists a', down fuel a i0 i n = Some (a', moved) /\ R a' b'.
Proof.
  revert a b i. induction fuel as [|fuel IH]; intros a b i HR; cbn [down].
  - intros [= <- <-]. exists a. split; [reflexivity | exact HR].
  - cbv zeta.
    destruct (n <=? _)%nat;
      [intros [= <- <-]; exists a; split; [reflexivity | exact HR]|].
    rewrite (R_Less a b (2 * i + 1 + 1) (2 * i + 1) HR).
    destruct (if (_ <? n)%nat then _ else _) as [right_less|]; [|discriminate].
    rewrite (R_Less a b _ i HR).
    destruct (Less b _ i) as [less|]; [|discriminate].
    destruct less; cbn [negb];
      [|intros [= <- <-]; exists a; split; [reflexivity | exact HR]].
    destruct (Swap b i _) as [b1|] eqn:Hswap; [|discriminate].
    destruct (R_Swap a b _ _ b1 HR Hswap) as (a1 & -> & HR1).
    apply IH, HR1.
Qed.

Lemma down_or_up_simulates (a : H1) (b b' : H2) (i n : nat) :
  R a b -> down_or_up b i n = Some b' ->
  exists a', down_or_up a i n = Some a' /\ R a' b'.
Proof.
  intros HR. unfold down_or_up.
  destruct (down n b i i n) as [[b1 moved]|] eqn:Hdown; [|discriminate].
  destruct (down_simulates n a b b1 i i n moved HR Hdown) as (a1 & -> & HR1).
  cbn [mbind option_bind]. destruct moved; cbn [negb].
  - intros [= <-]. exists a1. split; [reflexivity | exact HR1].
  - apply up_simulates, HR1.
Qed.

End Simulation.

End HeapFacts.

(** ** The scheduler with its entries behind pointers *)

Module SchedulerFacts.
Import GoInt Engine EngineFacts Scheduler.

(** *** The loops on a slice of entries *)

(** [down] of the interface, on a slice of entries, is the [down] above. *)
Lemma down_value (fuel : nat) (h : expiryHeap) (i0 i n : nat) :
  fst <$> Heap.down fuel h i0 i n = down fuel h i n.
Proof.
  revert h i. induction fuel as [|fuel IH]; intros h i; cbn [Heap.down down]; [reflexivity|].
  cbv zeta. change (@Heap.Less expiryHeap sessionExpiry value_heap) with Less.
  change (@Heap.Swap expiryHeap sessionExpiry value_heap) with Swap.
  destruct (n <=? _)%nat; [reflexivity|].
  destruct (if (_ <? n)%nat then _ else _) as [right_less|]; [|reflexivity].
  destruct (Less h _ i) as [less|]; [|reflexivity].
  destruct less; cbn [negb]; [|reflexivity].
  destruct (Swap h i _) as [h1|]; [|reflexivity]. apply IH.
Qed.

Lemma down_value_spec (fuel : nat) (h : expiryHeap) (i n : nat) :
  (n <= length h)%nat -> (n <= i + fuel)%nat -> down_inv h i n ->
  exists h' moved,
    Heap.down fuel h i i n = Some (h', moved) /\
    heap_ordered h' n /\ length h' = length h /\
    (forall k, (n <= k)%nat -> h' !! k = h !! k).
Proof.
  intros Hn Hfuel Hinv.
  destruct (down_spec fuel h i n Hn Hfuel Hinv) as (h' & Hdown & Hord & Hlen & _ & Hrest).
  rewrite <- (down_value fuel h i i n) in Hdown.
  destruct (Heap.down fuel h i i n) as [[h1 moved]|]; [|discriminate].
  injection Hdown as ->. exists h', moved. done.
Qed.

(** An entry that expires no later than its children stays where it is. *)
Lemma down_stays (fuel : nat) (h : expiryHeap) (i0 i n : nat) (e : sessionExpiry) :
  (n <= length h)%nat -> h !! i = Some e ->
  (forall c b, child i c -> (c < n)%nat -> h !! c = Some b -> expireAt e <= expireAt b) ->
  Heap.down fuel h i0 i n = Some (h, (i0 <? i)%nat).
Proof.
  intros Hn He Hchildren. destruct fuel as [|fuel]; cbn [Heap.down]; [reflexivity|].
  cbv zeta. change (@Heap.Less expiryHeap sessionExpiry value_heap) with Less.
  destruct (Nat.leb_spec n (2 * i + 1)) as [|Hj1]; [reflexivity|].
  destruct (lookup_lt_is_Some_2 h (2 * i + 1) ltac:(lia)) as [e1 He1].
  assert (Hpick : exists right_less ej,
            (if (2 * i + 1 + 1 <? n)%nat then Less h (2 * i + 1 + 1) (2 * i + 1)
             else Some false) = Some right_less /\
            h !! (if right_less then (2 * i + 1 + 1)%nat else (2 * i + 1)%nat) = Some ej /\
            expireAt e <= expireAt ej).
  { destruct (Nat.ltb_spec (2 * i + 1 + 1) n) as [Hj2|Hj2].
    - destruct (lookup_lt_is_Some_2 h (2 * i + 1 + 1) ltac:(lia)) as [e2 He2].
      rewrite (Less_Some h _ _ e2 e1 He2 He1).
      destruct (expireAt e2 <? expireAt e1); eexists _, _; (split; [reflexivity|]).
      + split; [exact He2|]. apply (Hchildren (2 * i + 1 + 1)%nat); [right; lia | lia | exact He2].
      + split; [exact He1|]. apply (Hchildren (2 * i + 1)%nat); [left; lia | lia | exact He1].
    - exists false, e1. split; [reflexivity|]. split; [exact He1|].
      apply (Hchildren (2 * i + 1)%nat); [left; lia | lia | exact He1]. }
  destruct Hpick as (right_less & ej & -> & Hej & Hle).
  rewrite (Less_Some h _ _ ej e Hej He).
  destruct (Z.ltb_spec (expireAt ej) (expireAt e)) as [|_]; [lia|]. reflexivity.
Qed.

(** Sifting up restores heap order when only the entry at [j] may expire
    before its parent. *)
Lemma up_value_spec (fuel : nat) (h : expiryHeap) (j n : nat) :
  (j < n <= length h)%nat -> (j < fuel)%nat -> up_inv h j n ->
  exists h',
    Heap.up fuel h j = Some h' /\
    heap_ordered h' n /\ length h' = length h /\
    (forall k, (j < k)%nat -> h' !! k = h !! k).
Proof.
  revert h j. induction fuel as [|fuel IH]; intros h j Hj Hfuel [Hinv1 Hinv2]; [lia|].
  cbn [Heap.up]. cbv zeta.
  change (@Heap.Less expiryHeap sessionExpiry value_heap) with Less.
  change (@Heap.Swap expiryHeap sessionExpiry value_heap) with Swap.
  destruct (Nat.eqb_spec ((j - 1) / 2) j) as [Hroot|Hparent].
  { exists h. split; [reflexivity|]. split; [|done].
    intros p c a b Hc Hlt. apply Hinv1; [assumption..|].
    assert (j = 0)%nat by (destruct j as [|j]; [reflexivity|];
      pose proof (Nat.Div0.div_le_upper_bound (S j - 1) 2 j ltac:(lia)); lia).
    apply child_gt in Hc. lia. }
  set (i := ((j - 1) / 2)%nat) in *.
  assert (Hchild : child i j).
  { unfold child, i. pose proof (Nat.div_mod_eq (j - 1) 2) as Hdm.
    pose proof (Nat.mod_upper_bound (j - 1) 2 ltac:(lia)) as Hm.
    destruct j as [|j]; [simpl in *; lia|]. lia. }
  pose proof (child_gt _ _ Hchild) as Hij.
  destruct (lookup_lt_is_Some_2 h j ltac:(lia)) as [ej Hej].
  destruct (lookup_lt_is_Some_2 h i ltac:(lia)) as [ei Hei].
  rewrite (Less_Some h j i ej ei Hej Hei).
  destruct (Z.ltb_spec (expireAt ej) (expireAt ei)) as [Hless|Hge]; cbn [negb].
  2:{ exists h. split; [reflexivity|]. split; [|done].
      intros p c a b Hc Hlt Hp Hcb.
      destruct (decide (c = j)) as [->|Hcj]; [|apply (Hinv1 p c); assumption].
      assert (p = i) as -> by (eapply child_parent_unique; eassumption).
      rewrite Hei in Hp. rewrite Hej in Hcb. injection Hp as <-. injection Hcb as <-. lia. }
  rewrite (Swap_Some h i j ei ej Hei Hej).
  set (h1 := <[j:=with_index (Z.of_nat j) ei]> (<[i:=with_index (Z.of_nat i) ej]> h)).
  assert (Hlen1 : length h1 = length h) by (unfold h1; rewrite !length_insert; reflexivity).
  assert (Hat_j : h1 !! j = Some (with_index (Z.of_nat j) ei))
    by (unfold h1; apply list_lookup_insert_eq; rewrite length_insert; lia).
  assert (Hat_i : h1 !! i = Some (with_index (Z.of_nat i) ej))
    by (unfold h1; rewrite list_lookup_insert_ne by lia;
        apply list_lookup_insert_eq; lia).
  assert (Hother : forall k, k <> i -> k <> j -> h1 !! k = h !! k)
    by (intros k Hki Hkj; unfold h1; rewrite !list_lookup_insert_ne by lia; reflexivity).
  destruct (IH h1 i) as (h' & Hup & Hord & Hlen & Hrest).
  - lia.
  - lia.
  - split.
    + intros p c a b Hc Hlt Hci Hp Hcb.
      destruct (decide (c = j)) as [->|Hcj].
      * assert (p = i) as -> by (eapply child_parent_unique; eassumption).
        rewrite Hat_i in Hp. rewrite Hat_j in Hcb.
        injection Hp as <-. injection Hcb as <-. cbn. lia.
      * rewrite (Hother c Hci Hcj) in Hcb.
        destruct (decide (p = i)) as [->|Hpi].
        { rewrite Hat_i in Hp. injection Hp as <-. cbn.
          pose proof (Hinv1 i c ei b Hc Hlt Hcj Hei Hcb). lia. }
        destruct (decide (p = j)) as [->|Hpj].
        { rewrite Hat_j in Hp. injection Hp as <-. cbn.
          apply (Hinv2 i c ei b Hchild Hc Hlt Hei Hcb). }
        rewrite (Hother p Hpi Hpj) in Hp. apply (Hinv1 p c a b); assumption.
    + intros p c a b Hpi Hic Hlt Hp Hcb.
      pose proof (child_gt _ _ Hpi) as Hlt_pi.
      rewrite (Hother p ltac:(lia) ltac:(lia)) in Hp.
      pose proof (Hinv1 p i a ei Hpi ltac:(lia) ltac:(lia) Hp Hei) as Hpei.
      destruct (decide (c = j)) as [->|Hcj].
      * rewrite Hat_j in Hcb. injection Hcb as <-. cbn. exact Hpei.
      * pose proof (child_gt _ _ Hic) as Hlt_ic.
        rewrite (Hother c ltac:(lia) Hcj) in Hcb.
        pose proof (Hinv1 i c ei b Hic Hlt Hcj Hei Hcb). lia.
  - exists h'. split; [exact Hup|]. split; [exact Hord|]. split; [lia|].
    intros k Hk. rewrite (Hrest k ltac:(lia)). apply Hother; lia.
Qed.


Lemma heap_ordered_up_inv (h : expiryHeap) (j n : nat) :
  (j < n <= length h)%nat -> heap_ordered h n -> up_inv h j n.
Proof.
  intros Hj Hord. split.
  - intros p c a b Hc Hlt _. apply Hord; assumption.
  - intros p c a b Hpj Hjc Hlt Hp Hcb.
    destruct (lookup_lt_is_Some_2 h j ltac:(lia)) as [ej Hej].
    pose proof (Hord p j a ej Hpj ltac:(lia) Hp Hej).
    pose proof (Hord j c ej b Hjc Hlt Hej Hcb). lia.
Qed.

(** [down] and then, if the entry did not move, [up]: what [heap.Fix] and
    [heap.Remove] do to the one entry that may be out of order. *)
Lemma fix_core (h : expiryHeap) (k n : nat) :
  (k < n <= length h)%nat -> fix_inv h k n ->
  exists h2,
    Heap.down_or_up h k n = Some h2 /\
    heap_ordered h2 n /\ length h2 = length h /\
    (forall i, (n <= i)%nat -> h2 !! i = h !! i).
Proof.
  intros Hk [Hinv1 Hinv2]. unfold Heap.down_or_up.
  destruct (lookup_lt_is_Some_2 h k ltac:(lia)) as [e He].
  assert (Hcase : (forall p a, child p k -> h !! p = Some a -> expireAt a <= expireAt e) \/
                  (exists p a, child p k /\ h !! p = Some a /\ expireAt e < expireAt a)).
  { destruct k as [|k]; [left; intros p a Hc; apply child_gt in Hc; lia|].
    set (p0 := (k / 2)%nat).
    assert (Hc0 : child p0 (S k)).
    { unfold child, p0. pose proof (Nat.div_mod_eq k 2) as Hdm.
      pose proof (Nat.mod_upper_bound k 2 ltac:(lia)) as Hm. lia. }
    pose proof (child_gt _ _ Hc0) as Hlt0.
    destruct (lookup_lt_is_Some_2 h p0 ltac:(lia)) as [a0 Ha0].
    destruct (Z.le_gt_cases (expireAt a0) (expireAt e)) as [Hle|Hgt].
    - left. intros p a Hc Hp.
      assert (p = p0) as -> by (eapply child_parent_unique; eassumption).
      rewrite Ha0 in Hp. injection Hp as <-. exact Hle.
    - right. exists p0, a0. done. }
  destruct Hcase as [Hparent|(p0 & a0 & Hc0 & Ha0 & Hgt)].
  - assert (Hdinv : down_inv h k n).
    { split; [|exact Hinv2]. intros p c a b Hc Hlt Hpk Hp Hcb.
      destruct (decide (c = k)) as [->|Hck]; [|apply (Hinv1 p c); assumption].
      rewrite He in Hcb. injection Hcb as <-. apply (Hparent p); assumption. }
    destruct (down_value_spec n h k n ltac:(lia) ltac:(lia) Hdinv)
      as (h1 & moved & Hdown & Hord1 & Hlen1 & Hrest1).
    rewrite Hdown. cbn [mbind option_bind]. destruct moved; cbn [negb].
    + exists h1. done.
    + destruct (up_value_spec (S k) h1 k n ltac:(lia) ltac:(lia)) as (h2 & Hup & Hord2 & Hlen2 & Hrest2).
      { apply heap_ordered_up_inv; [lia | exact Hord1]. }
      exists h2. split; [exact Hup|]. split; [exact Hord2|].
      split; [lia|]. intros i Hi. rewrite (Hrest2 i ltac:(lia)). apply Hrest1, Hi.
  - assert (Hchildren : forall c b, child k c -> (c < n)%nat -> h !! c = Some b ->
                          expireAt e <= expireAt b).
    { intros c b Hc Hlt Hcb. pose proof (Hinv2 p0 c a0 b Hc0 Hc Hlt Ha0 Hcb). lia. }
    rewrite (down_stays n h k k n e ltac:(lia) He Hchildren).
    rewrite Nat.ltb_irrefl. cbn [mbind option_bind negb].
    destruct (up_value_spec (S k) h k n ltac:(lia) ltac:(lia)) as (h2 & Hup & Hord2 & Hlen2 & Hrest2).
    { split; [|exact Hinv2]. intros p c a b Hc Hlt Hck Hp Hcb.
      destruct (decide (p = k)) as [->|Hpk]; [|apply (Hinv1 p c); assumption].
      rewrite He in Hp. injection Hp as <-. apply (Hchildren c); assumption. }
    exists h2. split; [exact Hup|]. split; [exact Hord2|].
    split; [exact Hlen2|]. intros i Hi. apply Hrest2. lia.
Qed.

(** Heap order with one entry replaced. *)
Lemma replaced_fix_inv (h : expiryHeap) (k : nat) (e e' : sessionExpiry) :
  heap_ordered h (length h) -> h !! k = Some e ->
  fix_inv (<[k := e']> h) k (length h).
Proof.
  intros Hord He. split.
  - intros p c a b Hc Hlt Hpk Hck Hp Hcb.
    rewrite list_lookup_insert_ne in Hp, Hcb by lia. apply (Hord p c); assumption.
  - intros p c a b Hpk Hkc Hlt Hp Hcb.
    pose proof (child_gt _ _ Hpk). pose proof (child_gt _ _ Hkc).
    rewrite list_lookup_insert_ne in Hp, Hcb by lia.
    pose proof (Hord p k a e Hpk ltac:(lia) Hp He).
    pose proof (Hord k c e b Hkc Hlt He Hcb). lia.
Qed.

Lemma heap_ordered_take (h : expiryHeap) (n : nat) :
  heap_ordered h n -> heap_ordered (take n h) (length (take n h)).
Proof.
  intros Hord p c a b Hc Hlt Hp Hcb. rewrite length_take in Hlt.
  pose proof (child_gt _ _ Hc).
  rewrite lookup_take_lt in Hp, Hcb by lia. apply (Hord p c); [assumption | lia | assumption..].
Qed.

(** [heap.Push] on a slice of entries in heap order. *)
Lemma Push_value (h : expiryHeap) (item : sessionExpiry) :
  heap_ordered h (length h) ->
  exists h',
    Heap.up (S (length h)) (Push h item) (length h) = Some h' /\
    heap_ordered h' (length h') /\ length h' = S (length h).
Proof.
  intros Hord. unfold Push.
  set (h1 := h ++ [with_index (Z.of_nat (length h)) item]).
  assert (Hlen1 : length h1 = S (length h)) by (unfold h1; rewrite length_app; simpl; lia).
  destruct (up_value_spec (S (length h)) h1 (length h) (S (length h)) ltac:(lia) ltac:(lia))
    as (h' & Hup & Hord' & Hlen' & _).
  { split.
    - intros p c a b Hc Hlt Hcn Hp Hcb. pose proof (child_gt _ _ Hc).
      unfold h1 in Hp, Hcb. rewrite lookup_app_l in Hp, Hcb by lia.
      apply (Hord p c); [assumption | lia | assumption..].
    - intros p c a b _ Hc Hlt. apply child_gt in Hc. lia. }
  exists h'. split; [exact Hup|]. rewrite Hlen', Hlen1. done.
Qed.

(** [heap.Remove], before the [Pop]: the entry to remove is the last one, and
    the others are in heap order. *)
Lemma Remove_value (h : expiryHeap) (k : nat) (e : sessionExpiry) :
  heap_ordered h (length h) -> h !! k = Some e ->
  exists h2 e',
    (if negb (length h - 1 =? k)%nat
     then h1 ← Swap h k (length h - 1); Heap.down_or_up h1 k (length h - 1)
     else Some h) = Some h2 /\
    heap_ordered h2 (length h - 1) /\ length h2 = length h /\
    h2 !! (length h - 1)%nat = Some e' /\ ident e' = ident e.
Proof.
  intros Hord He. pose proof (lookup_lt_Some _ _ _ He) as Hk.
  set (n := (length h - 1)%nat).
  destruct (Nat.eqb_spec n k) as [Hnk|Hnk]; cbn [negb].
  { exists h, e. split; [reflexivity|]. split.
    - intros p c a b Hc Hlt. apply Hord; [assumption | lia].
    - rewrite Hnk. done. }
  destruct (lookup_lt_is_Some_2 h n ltac:(lia)) as [lst Hlst].
  rewrite (Swap_Some h k n e lst He Hlst). cbn [mbind option_bind].
  set (hs := <[n:=with_index (Z.of_nat n) e]> (<[k:=with_index (Z.of_nat k) lst]> h)).
  assert (Hlens : length hs = length h) by (unfold hs; rewrite !length_insert; reflexivity).
  assert (Hother : forall i, i <> k -> i <> n -> hs !! i = h !! i)
    by (intros i Hik Hin; unfold hs; rewrite !list_lookup_insert_ne by lia; reflexivity).
  destruct (fix_core hs k n ltac:(lia)) as (h2 & Hfix & Hord2 & Hlen2 & Hrest2).
  { split.
    - intros p c a b Hc Hlt Hpk Hck Hp Hcb. pose proof (child_gt _ _ Hc).
      rewrite (Hother p ltac:(lia) ltac:(lia)) in Hp.
      rewrite (Hother c ltac:(lia) ltac:(lia)) in Hcb.
      apply (Hord p c); [assumption | lia | assumption..].
    - intros p c a b Hpk Hkc Hlt Hp Hcb.
      pose proof (child_gt _ _ Hpk). pose proof (child_gt _ _ Hkc).
      rewrite (Hother p ltac:(lia) ltac:(lia)) in Hp.
      rewrite (Hother c ltac:(lia) ltac:(lia)) in Hcb.
      pose proof (Hord p k a e Hpk ltac:(lia) Hp He).
      pose proof (Hord k c e b Hkc ltac:(lia) He Hcb). lia. }
  exists h2, (with_index (Z.of_nat n) e). split; [exact Hfix|]. split; [exact Hord2|].
  split; [lia|]. split; [|reflexivity].
  rewrite (Hrest2 n ltac:(lia)). unfold hs. apply list_lookup_insert_eq.
  rewrite length_insert. lia.
Qed.


(** *** The heap of pointers and the slice of entries *)

Lemma holds_length m0 s0 (h : memHeap) (b : expiryHeap) :
  holds m0 s0 h b -> length (slots h) = length b.
Proof. intros (_ & _ & Hall & _). apply (Forall2_length _ _ _ Hall). Qed.

Lemma holds_view m0 s0 (h : memHeap) (b : expiryHeap) : holds m0 s0 h b -> view h = b.
Proof.
  intros (_ & _ & Hall & _). unfold view.
  induction Hall as [|a o s b Ha _ IH]; [reflexivity|].
  cbn [omap list_omap]. rewrite Ha. f_equal. exact IH.
Qed.

Lemma holds_Less m0 s0 (h : memHeap) (b : expiryHeap) (i j : nat) :
  holds m0 s0 h b -> mLess h i j = Less b i j.
Proof.
  intros Hh. pose proof (holds_length _ _ _ _ Hh) as Hlen.
  destruct Hh as (_ & _ & Hall & _). unfold mLess, Less.
  assert (Hat : forall k,
            (slots h !! k ≫= fun a => objects h !! a) = b !! k).
  { intros k. destruct (b !! k) as [o|] eqn:Hb.
    - destruct (Forall2_lookup_r _ _ _ _ _ Hall Hb) as (a & -> & Ha). exact Ha.
    - apply lookup_ge_None in Hb. rewrite (lookup_ge_None_2 (slots h) k) by lia. reflexivity. }
  rewrite <- (Hat i), <- (Hat j).
  destruct (slots h !! i) as [a|]; [|reflexivity]. cbn [mbind option_bind].
  destruct (objects h !! a) as [x|]; [|reflexivity]. cbn [mbind option_bind].
  destruct (slots h !! j) as [a'|]; [|reflexivity]. cbn [mbind option_bind].
  destruct (objects h !! a') as [y|]; reflexivity.
Qed.

Lemma indexed_Swap (b : expiryHeap) (i j : nat) (oi oj : sessionExpiry) :
  indexed b ->
  indexed (<[j := with_index (Z.of_nat j) oi]> (<[i := with_index (Z.of_nat i) oj]> b)).
Proof.
  intros Hidx k e Hk.
  apply list_lookup_insert_Some in Hk as [(-> & <- & _)|[_ Hk]]; [reflexivity|].
  apply list_lookup_insert_Some in Hk as [(-> & <- & _)|[_ Hk]]; [reflexivity|].
  apply Hidx, Hk.
Qed.

Lemma holds_Swap m0 s0 (h : memHeap) (b : expiryHeap) (i j : nat) (b' : expiryHeap) :
  holds m0 s0 h b -> Swap b i j = Some b' ->
  exists h', mSwap h i j = Some h' /\ holds m0 s0 h' b'.
Proof.
  intros Hh Hswap. pose proof (holds_length _ _ _ _ Hh) as Hlen.
  destruct Hh as (Hnd & Hperm & Hall & Hidx & Hframe).
  unfold Swap in Hswap.
  destruct (b !! i) as [oi|] eqn:Hbi; [|discriminate].
  destruct (b !! j) as [oj|] eqn:Hbj; [|discriminate].
  cbn [mbind option_bind] in Hswap. injection Hswap as <-.
  destruct (Forall2_lookup_r _ _ _ _ _ Hall Hbi) as (ai & Hai & Hoi).
  destruct (Forall2_lookup_r _ _ _ _ _ Hall Hbj) as (aj & Haj & Hoj).
  pose proof (lookup_lt_Some _ _ _ Hai) as Hi.
  pose proof (lookup_lt_Some _ _ _ Haj) as Hj.
  set (s := <[j:=ai]> (<[i:=aj]> (slots h))).
  assert (Hsj : s !! j = Some ai)
    by (unfold s; apply list_lookup_insert_eq; rewrite length_insert; lia).
  assert (Hsi : s !! i = Some (if decide (i = j) then ai else aj)).
  { unfold s. destruct (decide (i = j)) as [->|Hij].
    - apply list_lookup_insert_eq. rewrite length_insert. lia.
    - rewrite list_lookup_insert_ne by lia. apply list_lookup_insert_eq. lia. }
  assert (Hsk : forall k, k <> i -> k <> j -> s !! k = slots h !! k)
    by (intros k Hki Hkj; unfold s; rewrite !list_lookup_insert_ne by lia; reflexivity).
  assert (Hperm' : s ≡ₚ slots h) by (apply Permutation_insert_swap; assumption).
  set (x := if decide (i = j) then ai else aj) in *.
  assert (Hox : objects h !! x = Some (if decide (i = j) then oi else oj))
    by (unfold x; destruct (decide (i = j)); assumption).
  set (ox := if decide (i = j) then oi else oj) in *.
  set (m1 := <[x := with_index (Z.of_nat i) ox]> (objects h)).
  assert (Hoy : m1 !! ai = Some (if decide (i = j) then with_index (Z.of_nat i) oi else oi)).
  { unfold m1, x, ox. destruct (decide (i = j)) as [->|Hij].
    - apply lookup_insert_eq.
    - rewrite lookup_insert_ne; [exact Hoi|].
      intros ->. apply Hij. symmetry. eapply NoDup_lookup; eassumption. }
  exists (mkMemHeap (<[ai := with_index (Z.of_nat j) oi]> m1) s). split.
  { unfold mSwap. rewrite Haj, Hai. cbn [mbind option_bind]. fold s.
    rewrite Hsi. cbn [mbind option_bind]. rewrite Hox. cbn [mbind option_bind]. fold m1.
    rewrite Hsj. cbn [mbind option_bind]. rewrite Hoy. cbn [mbind option_bind].
    destruct (decide (i = j)); reflexivity. }
  split; [cbn [slots]; rewrite Hperm'; exact Hnd|].
  split; [cbn [slots]; rewrite Hperm'; exact Hperm|].
  split; [|split; [apply indexed_Swap, Hidx|]].
  - cbn [slots objects]. apply Forall2_same_length_lookup. split.
    { unfold s. rewrite !length_insert. exact Hlen. }
    intros k a o Hka Hko.
    destruct (decide (k = j)) as [->|Hkj].
    { rewrite Hsj in Hka. injection Hka as <-.
      rewrite list_lookup_insert_eq in Hko by (rewrite length_insert; lia).
      injection Hko as <-. apply lookup_insert_eq. }
    rewrite list_lookup_insert_ne in Hko by lia.
    destruct (decide (k = i)) as [->|Hki].
    { rewrite Hsi in Hka. injection Hka as <-.
      rewrite list_lookup_insert_eq in Hko by lia. injection Hko as <-.
      unfold x. destruct (decide (i = j)) as [|Hij]; [lia|].
      rewrite lookup_insert_ne.
      - unfold m1, x, ox. destruct (decide (i = j)); [lia|]. apply lookup_insert_eq.
      - intros ->. apply Hij. eapply NoDup_lookup; eassumption. }
    rewrite list_lookup_insert_ne in Hko by lia.
    rewrite (Hsk k Hki Hkj) in Hka.
    destruct (Forall2_lookup_l _ _ _ _ _ Hall Hka) as (o' & Ho' & Ha).
    assert (o' = o) as -> by congruence.
    rewrite lookup_insert_ne
      by (intros ->; apply Hki; eapply NoDup_lookup; eassumption).
    unfold m1. rewrite lookup_insert_ne; [exact Ha|].
    unfold x. destruct (decide (i = j)); intros ->;
      [apply Hki | apply Hkj]; eapply NoDup_lookup; eassumption.
  - intros a. cbn [objects]. rewrite <- (Hframe a).
    destruct (decide (a = ai)) as [->|Hne].
    { rewrite lookup_insert_eq, Hoi. reflexivity. }
    rewrite lookup_insert_ne by congruence. unfold m1.
    destruct (decide (a = x)) as [->|Hne'].
    { rewrite lookup_insert_eq, Hox. unfold ox. destruct (decide (i = j)); reflexivity. }
    rewrite lookup_insert_ne by congruence. reflexivity.
Qed.


(** *** The scheduler *)

Lemma ident_parts (x y : option sessionExpiry) :
  ident <$> x = ident <$> y ->
  sessionID <$> x = sessionID <$> y /\ expireAt <$> x = expireAt <$> y.
Proof.
  destruct x as [[]|], y as [[]|]; cbn; try discriminate; [|done].
  unfold ident. cbn. intros [= -> ->]. done.
Qed.

Lemma frame_refl (h : memHeap) : frame (objects h) h.
Proof. intros x. reflexivity. Qed.

Lemma allocated_Forall2 (m : gmap addr sessionExpiry) (s : list addr) :
  (forall a, a ∈ s -> is_Some (m !! a)) ->
  Forall2 (fun a o => m !! a = Some o) s (omap (fun a => m !! a) s).
Proof.
  induction s as [|a s IH]; intros Hall; [constructor|].
  destruct (Hall a ltac:(left)) as [o Ho]. cbn [omap list_omap]. rewrite Ho.
  constructor; [exact Ho|]. apply IH. intros a' Ha'. apply Hall. right. exact Ha'.
Qed.

(** A well-formed scheduler holds the entries of its view. *)
Lemma wf_holds (s : PtrScheduler) :
  well_formed s ->
  holds (objects (pheap s)) (slots (pheap s)) (pheap s) (view (pheap s)).
Proof.
  intros (Hnd & Hidx & _ & _).
  assert (Hall : Forall2 (fun a o => objects (pheap s) !! a = Some o)
                   (slots (pheap s)) (view (pheap s))).
  { apply allocated_Forall2. intros a Ha. apply list_elem_of_lookup in Ha as [k Hk].
    destruct (Hidx k a Hk) as (o & Ho & _). eexists; exact Ho. }
  split; [exact Hnd|]. split; [reflexivity|]. split; [exact Hall|].
  split; [|apply frame_refl].
  intros k e Hk. destruct (Forall2_lookup_r _ _ _ _ _ Hall Hk) as (a & Ha & Hae).
  destruct (Hidx k a Ha) as (o & Ho & Hi). congruence.
Qed.

(** What [heapIndex] is to the heap. *)
Definition indexes (idx : gmap string addr) (m : gmap addr sessionExpiry)
    (s : list addr) : Prop :=
  forall id a, idx !! id = Some a <->
    a ∈ s /\ exists o, m !! a = Some o /\ sessionID o = id.

Lemma indexes_transfer (idx : gmap string addr) (m m' : gmap addr sessionExpiry)
    (s s' : list addr) :
  indexes idx m s -> s' ≡ₚ s ->
  (forall x, x ∈ s -> sessionID <$> m' !! x = sessionID <$> m !! x) ->
  indexes idx m' s'.
Proof.
  intros Hidx Hperm Hsame id a. rewrite (Hidx id a), Hperm. split.
  - intros (Hin & o & Ho & Hid). split; [exact Hin|].
    specialize (Hsame a Hin). rewrite Ho in Hsame.
    destruct (m' !! a) as [o'|]; [|discriminate]. exists o'. split; [reflexivity|].
    cbn in Hsame. congruence.
  - intros (Hin & o & Ho & Hid). split; [exact Hin|].
    specialize (Hsame a Hin). rewrite Ho in Hsame.
    destruct (m !! a) as [o'|]; [|discriminate]. exists o'. split; [reflexivity|].
    cbn in Hsame. congruence.
Qed.

(** From the entries that a heap of pointers holds to a well-formed
    scheduler. *)
Lemma holds_wf m0 s0 (h : memHeap) (b : expiryHeap) (idx : gmap string addr) :
  holds m0 s0 h b -> heap_ordered b (length b) ->
  indexes idx (objects h) (slots h) ->
  well_formed (mkPtrScheduler h idx).
Proof.
  intros Hh Hord Hidx. pose proof (holds_view _ _ _ _ Hh) as Hview.
  pose proof (holds_length _ _ _ _ Hh) as Hlen.
  destruct Hh as (Hnd & _ & Hall & Hpos & _).
  split; [exact Hnd|]. split; [|split; [exact Hidx|]].
  - intros k a Hk. cbn [pheap] in *.
    destruct (Forall2_lookup_l _ _ _ _ _ Hall Hk) as (o & Ho & Ha).
    exists o. split; [exact Ha | apply (Hpos k o Ho)].
  - cbn [pheap]. rewrite Hview, Hlen. exact Hord.
Qed.

Lemma expiries_lookup (s : PtrScheduler) (id : string) :
  expiries s !! id = pindex s !! id ≫= fun a => expireAt <$> objects (pheap s) !! a.
Proof. unfold expiries. apply lookup_omap. Qed.

(** Where the entry of a tracked session is. *)
Lemma wf_position (s : PtrScheduler) (id : string) (a : addr) :
  well_formed s -> pindex s !! id = Some a ->
  exists k o,
    slots (pheap s) !! k = Some a /\ objects (pheap s) !! a = Some o /\
    sessionID o = id /\ index o = Z.of_nat k /\ view (pheap s) !! k = Some o.
Proof.
  intros Hwf Hid. pose proof (wf_holds s Hwf) as (_ & _ & Hall & _).
  destruct Hwf as (_ & Hidx & Hmap & _).
  apply Hmap in Hid as (Hin & o & Ho & Hsid).
  apply list_elem_of_lookup in Hin as [k Hk].
  destruct (Hidx k a Hk) as (o' & Ho' & Hi).
  assert (o' = o) as -> by congruence.
  destruct (Forall2_lookup_l _ _ _ _ _ Hall Hk) as (o'' & Hv & Ho'').
  assert (o'' = o) as -> by congruence.
  exists k, o. done.
Qed.

(** [UpdateSession] keeps the scheduler well formed, and sets the expiry time
    of the session, and of no other. *)
Lemma UpdateSession_spec (id : string) (t : Z) (s : PtrScheduler) :
  well_formed s ->
  exists s',
    UpdateSession id t s = Some s' /\ well_formed s' /\
    expiries s' = <[id := t]> (expiries s).
Proof.
  intros Hwf. pose proof (wf_holds s Hwf) as Hholds.
  pose proof Hwf as (Hnd & Hidx & Hmap & Hord).
  pose proof (holds_length _ _ _ _ Hholds) as Hlen.
  unfold UpdateSession. destruct s as [[m sl] idx]. cbn [pheap pindex objects slots] in *.
  destruct (idx !! id) as [a|] eqn:Hid.
  - (* the session is tracked *)
    destruct (wf_position _ id a Hwf Hid) as (k & o & Hk & Ho & Hsid & Hi & Hv).
    cbn [pheap pindex objects slots] in *.
    rewrite Ho. cbn [mbind option_bind].
    set (m1 := <[a := with_expireAt t o]> m).
    set (b1 := <[k := with_expireAt t o]> (view (mkMemHeap m sl))).
    assert (Hh1 : holds m1 sl (mkMemHeap m1 sl) b1).
    { destruct Hholds as (_ & _ & Hall & Hpos & _).
      split; [exact Hnd|]. split; [reflexivity|]. split; [|split; [|apply frame_refl]].
      - cbn [slots objects] in *. apply Forall2_same_length_lookup. split.
        { unfold b1. rewrite length_insert. exact Hlen. }
        intros i x y Hx Hy. unfold b1 in Hy.
        apply list_lookup_insert_Some in Hy as [(-> & <- & _)|[Hik Hy]].
        + assert (x = a) as -> by congruence. apply lookup_insert_eq.
        + destruct (Forall2_lookup_l _ _ _ _ _ Hall Hx) as (y' & Hy' & Hxy).
          assert (y' = y) as -> by congruence.
          unfold m1. rewrite lookup_insert_ne; [exact Hxy|].
          intros ->. apply Hik. eapply NoDup_lookup; eassumption.
      - intros i e He. unfold b1 in He.
        apply list_lookup_insert_Some in He as [(-> & <- & _)|[_ He]]; [exact Hi|].
        apply (Hpos i e He). }
    assert (Hfix : fix_inv b1 k (length b1)).
    { unfold b1. rewrite length_insert. apply (replaced_fix_inv _ k o).
      - rewrite <- Hlen. exact Hord.
      - exact Hv. }
    pose proof (lookup_lt_Some _ _ _ Hk) as Hklt.
    assert (Hlen1 : length b1 = length sl) by (unfold b1; rewrite length_insert; lia).
    destruct (fix_core b1 k (length b1) ltac:(lia) Hfix) as (b2 & Hrun & Hord2 & Hlen2 & _).
    destruct (@HeapFacts.down_or_up_simulates memHeap addr expiryHeap sessionExpiry mem_heap
                value_heap (holds m1 sl) (holds_Less m1 sl)
                (holds_Swap m1 sl) (mkMemHeap m1 sl) b1 b2 k (length b1) Hh1 Hrun)
      as (h2 & Hrun2 & Hh2).
    unfold Fix_at. rewrite Hi.
    destruct (Z.eqb_spec (Z.of_nat k) (-1)) as [|_]; [lia|].
    destruct (Z.ltb_spec (Z.of_nat k) 0) as [|_]; [lia|].
    rewrite Nat2Z.id. unfold Heap.heap_Fix.
    change (Heap.Len (mkMemHeap m1 sl)) with (length sl). rewrite <- Hlen1, Hrun2.
    cbn [mbind option_bind]. eexists. split; [reflexivity|].
    pose proof Hh2 as (_ & Hperm2 & _ & _ & Hframe2). cbn [objects] in Hframe2.
    split.
    + apply (holds_wf m1 sl h2 b2 idx Hh2); [rewrite Hlen2; exact Hord2|].
      apply (indexes_transfer idx m (objects h2) sl (slots h2) Hmap Hperm2).
      intros x _. destruct (ident_parts _ _ (Hframe2 x)) as [-> _].
      unfold m1. destruct (decide (x = a)) as [->|Hne].
      * rewrite lookup_insert_eq, Ho. reflexivity.
      * rewrite lookup_insert_ne by congruence. reflexivity.
    + apply map_eq. intros id'. rewrite expiries_lookup. cbn [pindex pheap].
      destruct (decide (id' = id)) as [->|Hne].
      * rewrite lookup_insert_eq, Hid. cbn [mbind option_bind].
        destruct (ident_parts _ _ (Hframe2 a)) as [_ ->].
        unfold m1. rewrite lookup_insert_eq. reflexivity.
      * rewrite lookup_insert_ne by congruence. rewrite expiries_lookup.
        cbn [pindex pheap objects].
        destruct (idx !! id') as [a'|] eqn:Hid'; [|reflexivity]. cbn [mbind option_bind].
        destruct (ident_parts _ _ (Hframe2 a')) as [_ ->].
        unfold m1. rewrite lookup_insert_ne; [reflexivity|].
        intros ->. apply Hmap in Hid' as (_ & o' & Ho' & Hsid'). congruence.
  - (* a new session *)
    set (a := fresh (dom m)).
    assert (Ha : m !! a = None) by (apply not_elem_of_dom, is_fresh).
    assert (Hnotin : a ∉ sl).
    { intros Hin. apply list_elem_of_lookup in Hin as [k Hk].
      destruct (Hidx k a Hk) as (o & Ho & _). congruence. }
    set (item := mkSessionExpiry id t 0).
    set (m1 := <[a := item]> m).
    unfold Heap.heap_Push. cbn [Heap.Push mem_heap]. unfold mPush.
    cbn [objects slots]. fold m1.
    assert (Hm1a : m1 !! a = Some item) by apply lookup_insert_eq.
    rewrite Hm1a. cbn [mbind option_bind].
    set (m2 := <[a := with_index (Z.of_nat (length sl)) item]> m1).
    set (h1 := mkMemHeap m2 (sl ++ [a])).
    change (Heap.Len h1) with (length (sl ++ [a])).
    rewrite length_app. cbn [length]. replace (length sl + 1 - 1)%nat with (length sl) by lia.
    replace (length sl + 1)%nat with (S (length sl)) by lia.
    set (b := view (mkMemHeap m sl)) in *.
    assert (Hh1 : holds m2 (sl ++ [a]) h1 (Push b item)).
    { destruct Hholds as (_ & _ & Hall & Hpos & _). cbn [slots objects] in *.
      split; [|split; [reflexivity|split; [|split; [|apply frame_refl]]]].
      - cbn [slots]. apply NoDup_app. split; [exact Hnd|]. split; [|apply NoDup_singleton].
        intros x Hx Hx'. apply list_elem_of_singleton in Hx' as ->. contradiction.
      - cbn [slots objects]. unfold Push. apply Forall2_app.
        + eapply Forall2_impl; [exact Hall|]. cbn. intros x y Hxy.
          unfold m2, m1. rewrite !lookup_insert_ne; [exact Hxy|..]; intros ->; congruence.
        + constructor; [|constructor]. rewrite <- Hlen. apply lookup_insert_eq.
      - intros i e He. unfold Push in He.
        apply lookup_app_Some in He as [He|[Hge He]]; [apply (Hpos i e He)|].
        apply list_lookup_singleton_Some in He as [Hi <-].
        unfold with_index. cbn [index]. lia. }
    destruct (Push_value b item ltac:(rewrite <- Hlen; exact Hord))
      as (b2 & Hup & Hord2 & Hlen2).
    rewrite <- Hlen in Hup.
    destruct (@HeapFacts.up_simulates memHeap addr expiryHeap sessionExpiry mem_heap
                value_heap (holds m2 (sl ++ [a])) (holds_Less m2 (sl ++ [a]))
                (holds_Swap m2 (sl ++ [a])) _ h1 (Push b item) b2 _ Hh1 Hup)
      as (h2 & -> & Hh2).
    cbn [mbind option_bind]. eexists. split; [reflexivity|].
    pose proof Hh2 as (_ & Hperm2 & _ & _ & Hframe2).
    assert (Hm2 : forall x, x <> a -> m2 !! x = m !! x)
      by (intros x Hx; unfold m2, m1; rewrite !lookup_insert_ne by congruence; reflexivity).
    assert (Hm2a : m2 !! a = Some (with_index (Z.of_nat (length sl)) item))
      by apply lookup_insert_eq.
    split.
    + apply (holds_wf m2 (sl ++ [a]) h2 b2 _ Hh2 Hord2).
      apply (indexes_transfer _ m2 (objects h2) (sl ++ [a]) (slots h2)); [|exact Hperm2|].
      * intros id' a'. rewrite elem_of_app, list_elem_of_singleton. split.
        { destruct (decide (id' = id)) as [->|Hne].
          - rewrite lookup_insert_eq. intros [= <-]. split; [right; reflexivity|].
            eexists. split; [exact Hm2a | reflexivity].
          - rewrite lookup_insert_ne by congruence. intros Hid'.
            apply Hmap in Hid' as (Hin & o & Ho & Hsid). split; [left; exact Hin|].
            exists o. rewrite Hm2 by (intros ->; contradiction). done. }
        { intros ([Hin| ->] & o & Ho & Hsid).
          - rewrite Hm2 in Ho by (intros ->; contradiction).
            assert (Hid' : idx !! id' = Some a') by (apply Hmap; eauto).
            rewrite lookup_insert_ne; [exact Hid' | congruence].
          - rewrite Hm2a in Ho. injection Ho as <-. cbn in Hsid. subst id'.
            apply lookup_insert_eq. }
      * intros x _. destruct (ident_parts _ _ (Hframe2 x)) as [-> _]. reflexivity.
    + apply map_eq. intros id'. rewrite expiries_lookup. cbn [pindex pheap].
      destruct (decide (id' = id)) as [->|Hne].
      * rewrite !lookup_insert_eq. cbn [mbind option_bind].
        destruct (ident_parts _ _ (Hframe2 a)) as [_ ->]. rewrite Hm2a. reflexivity.
      * rewrite !lookup_insert_ne by congruence. rewrite expiries_lookup.
        cbn [pindex pheap objects].
        destruct (idx !! id') as [a'|] eqn:Hid'; [|reflexivity]. cbn [mbind option_bind].
        destruct (ident_parts _ _ (Hframe2 a')) as [_ ->].
        rewrite Hm2; [reflexivity|].
        intros ->. apply Hmap in Hid' as (Hin & _). contradiction.
Qed.


(** [heap.Remove] at the position of the entry of a session: the entry
    leaves the heap, and with its session out of [heapIndex] the scheduler is
    well formed. *)
Lemma heap_Remove_spec (s : PtrScheduler) (id : string) (a : addr) (k : nat) :
  well_formed s -> pindex s !! id = Some a -> slots (pheap s) !! k = Some a ->
  exists h3 o3,
    Heap.heap_Remove (pheap s) k = Some (a, h3) /\
    objects h3 !! a = Some o3 /\ sessionID o3 = id /\
    length (slots h3) = (length (slots (pheap s)) - 1)%nat /\
    well_formed (mkPtrScheduler h3 (delete id (pindex s))) /\
    expiries (mkPtrScheduler h3 (delete id (pindex s))) = delete id (expiries s).
Proof.
  intros Hwf Hid Hk. pose proof (wf_holds s Hwf) as Hholds.
  pose proof Hwf as (Hnd & Hidx & Hmap & Hord).
  pose proof (holds_length _ _ _ _ Hholds) as Hlen.
  destruct (wf_position _ id a Hwf Hid) as (k' & o & Hk' & Ho & Hsid & Hi & Hv).
  assert (k' = k) as -> by (eapply NoDup_lookup; eassumption). clear Hk'.
  destruct s as [[m sl] idx]. cbn [pheap pindex objects slots] in *.
  set (b := view (mkMemHeap m sl)) in *.
  pose proof (lookup_lt_Some _ _ _ Hk) as Hklt.
  destruct (Remove_value b k o ltac:(rewrite <- Hlen; exact Hord) Hv)
    as (b2 & e' & Hrun & Hord2 & Hlen2 & Hlast & Hident).
  rewrite <- Hlen in Hrun, Hord2, Hlast.
  (* the same run on the pointers *)
  assert (Hsim : exists h2,
            (if negb (length sl - 1 =? k)%nat
             then h1 ← mSwap (mkMemHeap m sl) k (length sl - 1);
                  Heap.down_or_up h1 k (length sl - 1)
             else Some (mkMemHeap m sl)) = Some h2 /\ holds m sl h2 b2).
  { destruct (negb (length sl - 1 =? k)%nat).
    - destruct (Swap b k (length sl - 1)) as [b1|] eqn:Hswap; [|discriminate].
      destruct (holds_Swap m sl _ b _ _ b1 Hholds Hswap) as (h1 & -> & Hh1).
      cbn [mbind option_bind] in *.
      apply (@HeapFacts.down_or_up_simulates memHeap addr expiryHeap sessionExpiry mem_heap
               value_heap (holds m sl) (holds_Less m sl) (holds_Swap m sl) h1 b1 b2 _ _
               Hh1 Hrun).
    - injection Hrun as <-. exists (mkMemHeap m sl). split; [reflexivity | exact Hholds]. }
  destruct Hsim as (h2 & Hrun2 & Hh2).
  unfold Heap.heap_Remove. change (Heap.Len (mkMemHeap m sl)) with (length sl).
  cbv zeta. change (@Heap.Swap memHeap addr mem_heap) with mSwap. rewrite Hrun2.
  cbn [mbind option_bind]. change (@Heap.Pop memHeap addr mem_heap h2) with (mPop h2).
  pose proof (holds_length _ _ _ _ Hh2) as Hlen_h2.
  pose proof Hh2 as (Hnd2 & Hperm2 & Hall2 & Hpos2 & Hframe2).
  assert (Hlen_sl : length (slots h2) = length sl) by (rewrite Hperm2; reflexivity).
  (* the last pointer is the one of the session *)
  destruct (Forall2_lookup_r _ _ _ _ _ Hall2 Hlast) as (a' & Ha' & He').
  assert (a' = a) as ->.
  { assert (Hin : a' ∈ sl) by (rewrite <- Hperm2; apply list_elem_of_lookup; eauto).
    pose proof (Hframe2 a') as Hfr. rewrite He' in Hfr.
    destruct (m !! a') as [o'|] eqn:Ho'; [|discriminate]. cbn in Hfr.
    assert (Hid' : idx !! id = Some a').
    { apply Hmap. split; [exact Hin|]. exists o'. split; [exact Ho'|].
      unfold ident in *. congruence. }
    congruence. }
  unfold mPop. rewrite Hlen_sl.
  destruct (Nat.eqb_spec (length sl) 0) as [|_]; [lia|].
  rewrite Ha'. cbn [mbind option_bind]. rewrite He'. cbn [mbind option_bind].
  set (n := (length sl - 1)%nat) in *.
  set (m3 := <[a := with_index (-1) e']> (objects h2)).
  exists (mkMemHeap m3 (take n (slots h2))), (with_index (-1) e').
  split; [reflexivity|]. split; [apply lookup_insert_eq|].
  split; [unfold ident in Hident; cbn; congruence|].
  split; [cbn [slots]; rewrite length_take; lia|].
  assert (Hsplit : slots h2 = take n (slots h2) ++ [a]).
  { rewrite <- (take_drop n (slots h2)) at 1. f_equal.
    rewrite (drop_S _ a n Ha'). rewrite drop_ge by lia. reflexivity. }
  assert (Hnd3 : NoDup (take n (slots h2)) /\ a ∉ take n (slots h2)).
  { rewrite Hsplit in Hnd2. apply NoDup_app in Hnd2 as (Hnd3 & Hdisj & _).
    split; [exact Hnd3|]. intros Hin. apply (Hdisj a Hin). left. }
  destruct Hnd3 as [Hnd3 Hnotin].
  assert (Hm3 : forall x, x <> a -> m3 !! x = objects h2 !! x)
    by (intros x Hx; unfold m3; apply lookup_insert_ne; congruence).
  assert (Hh3 : holds m3 (take n (slots h2)) (mkMemHeap m3 (take n (slots h2))) (take n b2)).
  { split; [exact Hnd3|]. split; [reflexivity|]. split; [|split; [|apply frame_refl]].
    - cbn [slots objects]. apply Forall2_same_length_lookup. split.
      { rewrite !length_take. lia. }
      intros i x y Hx Hy.
      assert (Hxin : x ∈ take n (slots h2)) by (apply list_elem_of_lookup; eauto).
      apply lookup_take_Some in Hx as [Hx _]. apply lookup_take_Some in Hy as [Hy _].
      destruct (Forall2_lookup_l _ _ _ _ _ Hall2 Hx) as (y' & Hy' & Hxy).
      assert (y' = y) as -> by congruence.
      rewrite Hm3; [exact Hxy|]. intros ->. contradiction.
    - intros i e He. apply (Hpos2 i e). apply lookup_take_Some in He as [He _]. exact He. }
  assert (Hmem : forall x, x ∈ take n (slots h2) <-> x ∈ sl /\ x <> a).
  { intros x. rewrite <- Hperm2. rewrite Hsplit at 2.
    rewrite elem_of_app, list_elem_of_singleton. split.
    - intros Hx. split; [left; exact Hx|]. intros ->. contradiction.
    - intros [[Hx| ->] Hne]; [exact Hx | contradiction]. }
  split.
  - apply (holds_wf _ _ _ _ _ Hh3); [apply heap_ordered_take, Hord2|].
    cbn [objects slots]. intros id' x. rewrite lookup_delete_Some, Hmem. split.
    + intros [Hne Hid']. pose proof Hid' as Hid''.
      apply Hmap in Hid' as (Hin & ox & Hox & Hsid').
      assert (Hxa : x <> a) by (intros ->; congruence).
      split; [split; assumption|]. rewrite (Hm3 x Hxa).
      pose proof (Hframe2 x) as Hfr. rewrite Hox in Hfr.
      destruct (objects h2 !! x) as [o2|]; [|discriminate].
      exists o2. split; [reflexivity|]. cbn in Hfr. unfold ident in Hfr. congruence.
    + intros ([Hin Hxa] & o2 & Ho2 & Hsid'). rewrite (Hm3 x Hxa) in Ho2.
      pose proof (Hframe2 x) as Hfr. rewrite Ho2 in Hfr.
      destruct (m !! x) as [ox|] eqn:Hox; [|discriminate].
      assert (Hid' : idx !! id' = Some x).
      { apply Hmap. split; [exact Hin|]. exists ox. split; [exact Hox|].
        cbn in Hfr. unfold ident in Hfr. congruence. }
      split; [|exact Hid']. intros <-. congruence.
  - apply map_eq. intros id'. rewrite expiries_lookup. cbn [pindex pheap objects].
    destruct (decide (id' = id)) as [->|Hne].
    + rewrite !lookup_delete_eq. reflexivity.
    + rewrite !lookup_delete_ne by congruence. rewrite expiries_lookup.
      cbn [pindex pheap objects].
      destruct (idx !! id') as [x|] eqn:Hid'; [|reflexivity]. cbn [mbind option_bind].
      assert (Hxa : x <> a).
      { intros ->. apply Hmap in Hid' as (_ & ox & Hox & Hsid'). congruence. }
      rewrite (Hm3 x Hxa). destruct (ident_parts _ _ (Hframe2 x)) as [_ ->]. reflexivity.
Qed.

(** [RemoveSession] keeps the scheduler well formed, and forgets the
    session, and no other. *)
Lemma RemoveSession_spec (id : string) (s : PtrScheduler) :
  well_formed s ->
  exists s',
    RemoveSession id s = Some s' /\ well_formed s' /\
    expiries s' = delete id (expiries s).
Proof.
  intros Hwf. unfold RemoveSession. destruct (pindex s !! id) as [a|] eqn:Hid.
  2:{ exists s. split; [reflexivity|]. split; [exact Hwf|].
      symmetry. apply delete_id. rewrite expiries_lookup, Hid. reflexivity. }
  destruct (wf_position _ id a Hwf Hid) as (k & o & Hk & Ho & Hsid & Hi & Hv).
  destruct (heap_Remove_spec s id a k Hwf Hid Hk) as (h3 & o3 & Hrun & _ & _ & _ & Hwf3 & Hexp).
  rewrite Ho. cbn [mbind option_bind]. unfold Remove_at. rewrite Hi.
  destruct (Z.ltb_spec (Z.of_nat k) 0) as [|_]; [lia|]. rewrite Nat2Z.id, Hrun.
  cbn [mbind option_bind]. eexists. split; [reflexivity|]. split; assumption.
Qed.


(** *** What the scheduler tracks *)

Lemma new_well_formed : well_formed NewSessionCleanupScheduler.
Proof.
  split; [constructor|]. split; [intros k a Hk; discriminate|]. split.
  - intros id a. cbn. rewrite lookup_empty, elem_of_nil. split; [discriminate | tauto].
  - intros p c a b _ Hlt. cbn in Hlt. lia.
Qed.

(** The sessions and expiry times are those of the entries of the heap, and
    no two entries are of one session. *)
Lemma expiries_view (s : PtrScheduler) :
  well_formed s ->
  NoDup (sessionID <$> view (pheap s)) /\
  expiries s = list_to_map (ident <$> view (pheap s)).
Proof.
  intros Hwf. pose proof (wf_holds s Hwf) as (_ & _ & Hall & Hpos & _).
  pose proof Hwf as (Hnd & Hidx & Hmap & _).
  assert (Hnodup : NoDup (sessionID <$> view (pheap s))).
  { apply NoDup_fmap_2_strong.
    - intros x y Hx Hy Hsid.
      apply list_elem_of_lookup in Hx as [i Hi]. apply list_elem_of_lookup in Hy as [j Hj].
      destruct (Forall2_lookup_r _ _ _ _ _ Hall Hi) as (ax & Hax & Hox).
      destruct (Forall2_lookup_r _ _ _ _ _ Hall Hj) as (ay & Hay & Hoy).
      assert (Hix : pindex s !! sessionID x = Some ax)
        by (apply Hmap; split; [apply list_elem_of_lookup; eauto | eauto]).
      assert (Hiy : pindex s !! sessionID y = Some ay)
        by (apply Hmap; split; [apply list_elem_of_lookup; eauto | eauto]).
      congruence.
    - apply NoDup_alt. intros i j x Hi Hj.
      pose proof (Hpos i x Hi). pose proof (Hpos j x Hj). lia. }
  split; [exact Hnodup|].
  assert (Hfst : (ident <$> view (pheap s)).*1 = sessionID <$> view (pheap s))
    by (rewrite <- list_fmap_compose; reflexivity).
  apply map_eq. intros id. apply option_eq. intros t.
  rewrite <- elem_of_list_to_map by (rewrite Hfst; exact Hnodup).
  rewrite expiries_lookup, list_elem_of_fmap. split.
  - destruct (pindex s !! id) as [a|] eqn:Hid; [|discriminate]. cbn [mbind option_bind].
    destruct (wf_position s id a Hwf Hid) as (k & o & Hk & Ho & Hsid & _ & Hv).
    rewrite Ho. intros [= <-]. exists o. split; [unfold ident; congruence|].
    apply list_elem_of_lookup. eauto.
  - intros (o & Hident & Hin). apply list_elem_of_lookup in Hin as [k Hk].
    destruct (Forall2_lookup_r _ _ _ _ _ Hall Hk) as (a & Ha & Ho).
    assert (Hid : pindex s !! sessionID o = Some a)
      by (apply Hmap; split; [apply list_elem_of_lookup; eauto | eauto]).
    unfold ident in Hident. injection Hident as -> ->.
    rewrite Hid. cbn [mbind option_bind]. rewrite Ho. reflexivity.
Qed.

Lemma tracked_count (s : PtrScheduler) :
  well_formed s -> size (expiries s) = length (slots (pheap s)).
Proof.
  intros Hwf. destruct (expiries_view s Hwf) as [Hnodup ->].
  rewrite map_size_list_to_map by (rewrite <- list_fmap_compose; exact Hnodup).
  rewrite length_fmap. symmetry. apply (holds_length _ _ _ _ (wf_holds s Hwf)).
Qed.

(** The entry at the root is of the session that expires first. *)
Lemma root_is_earliest (s : PtrScheduler) (a0 : addr) :
  well_formed s -> slots (pheap s) !! 0%nat = Some a0 ->
  exists o0,
    objects (pheap s) !! a0 = Some o0 /\
    expiries s !! sessionID o0 = Some (expireAt o0) /\
    forall id t, expiries s !! id = Some t -> expireAt o0 <= t.
Proof.
  intros Hwf Hroot. pose proof (wf_holds s Hwf) as Hholds.
  pose proof (holds_length _ _ _ _ Hholds) as Hlen.
  pose proof Hholds as (_ & _ & Hall & _).
  pose proof Hwf as (_ & Hidx & Hmap & Hord).
  destruct (Forall2_lookup_l _ _ _ _ _ Hall Hroot) as (o0 & Hv0 & Ho0).
  exists o0. split; [exact Ho0|]. split.
  - rewrite expiries_lookup.
    assert (Hid : pindex s !! sessionID o0 = Some a0)
      by (apply Hmap; split; [apply list_elem_of_lookup; eauto | eauto]).
    rewrite Hid. cbn [mbind option_bind]. rewrite Ho0. reflexivity.
  - intros id t. rewrite expiries_lookup.
    destruct (pindex s !! id) as [a|] eqn:Hid; [|discriminate]. cbn [mbind option_bind].
    destruct (wf_position s id a Hwf Hid) as (k & o & _ & Ho & _ & _ & Hv).
    rewrite Ho. intros [= <-].
    rewrite Hlen in Hord. pose proof (heap_root_first _ o0 Hord Hv0) as Hfirst.
    rewrite Forall_lookup in Hfirst. apply (Hfirst k o Hv).
Qed.

Lemma tracked_none (s : PtrScheduler) :
  well_formed s -> (expiries s = ∅ <-> slots (pheap s) = []).
Proof.
  intros Hwf. pose proof (tracked_count s Hwf) as Hcount. split.
  - intros Hempty. rewrite Hempty, map_size_empty in Hcount.
    apply length_zero_iff_nil. lia.
  - intros Hnil. rewrite Hnil in Hcount. apply map_size_empty_iff. exact Hcount.
Qed.

Lemma run_spec (ops : list sched_op) (s : PtrScheduler) :
  well_formed s ->
  exists s',
    run ops s = Some s' /\ well_formed s' /\ expiries s' = foldl record (expiries s) ops.
Proof.
  revert s. induction ops as [|op ops IH]; intros s Hwf.
  - exists s. done.
  - assert (Hstep : exists s1, step s op = Some s1 /\ well_formed s1 /\
                      expiries s1 = record (expiries s) op).
    { destruct op as [id t|id]; [apply UpdateSession_spec | apply RemoveSession_spec];
        exact Hwf. }
    destruct Hstep as (s1 & Hs1 & Hwf1 & Hexp1).
    destruct (IH s1 Hwf1) as (s' & Hrun & Hwf' & Hexp').
    exists s'. cbn [run foldl]. rewrite Hs1. cbn [mbind option_bind].
    rewrite <- Hexp1. done.
Qed.

Lemma example_tracked_well_formed :
  well_formed example_tracked /\
  expiries example_tracked = <["c" := 200]> (<["b" := 100]> (<["a" := 300]> ∅)).
Proof.
  unfold example_tracked.
  destruct (run_spec [OpUpdate "a" 300; OpUpdate "b" 100; OpUpdate "c" 200]
              NewSessionCleanupScheduler new_well_formed) as (s' & -> & Hwf & Hexp).
  change (default NewSessionCleanupScheduler (Some s')) with s'.
  split; [exact Hwf|]. rewrite Hexp. reflexivity.
Qed.

(** X24. [UpdateSession] never panics on a well-formed scheduler and leaves
    it well formed: the heap in heap order, every entry at the index that it
    records, and [heapIndex] pointing at the entries of the heap, one per
    session. It sets the expiry time of the session, tracked before or not,
    and changes that of no other. *)
Theorem update_session_sets_expiry (id : string) (t : Z) (s : PtrScheduler) :
  well_formed s ->
  exists s',
    UpdateSession id t s = Some s' /\ well_formed s' /\
    expiries s' = <[id := t]> (expiries s).
Proof. apply UpdateSession_spec. Qed.

Lemma update_session_sets_expiry_witness :
  exists s',
    UpdateSession "b" 50 example_tracked = Some s' /\ well_formed s' /\
    expiries s' = <["b" := 50]> (expiries example_tracked).
Proof.
  apply (update_session_sets_expiry "b" 50 example_tracked).
  apply example_tracked_well_formed.
Defined.

(** X25. [RemoveSession] never panics on a well-formed scheduler and leaves
    it well formed; it forgets the session, if it was tracked, and keeps
    every other session with its expiry time. *)
Theorem remove_session_forgets (id : string) (s : PtrScheduler) :
  well_formed s ->
  exists s',
    RemoveSession id s = Some s' /\ well_formed s' /\
    expiries s' = delete id (expiries s).
Proof. apply RemoveSession_spec. Qed.

Lemma remove_session_forgets_witness :
  exists s',
    RemoveSession "b" example_tracked = Some s' /\ well_formed s' /\
    expiries s' = delete "b" (expiries example_tracked).
Proof.
  apply (remove_session_forgets "b" example_tracked).
  apply example_tracked_well_formed.
Defined.

(** X26. On a well-formed scheduler [GetStats] reports the number of
    sessions that have an expiry time, and as next expiration the earliest of
    these times, which is the time of one of the sessions; with no session
    it reports [0]. *)
Theorem stats_report_earliest (s : PtrScheduler) :
  well_formed s ->
  exists st,
    GetStats s = Some st /\
    TrackedSessions st = Z.of_nat (size (expiries s)) /\
    (expiries s = ∅ -> NextExpiration st = 0) /\
    (expiries s <> ∅ -> exists id, expiries s !! id = Some (NextExpiration st)) /\
    (forall id t, expiries s !! id = Some t -> NextExpiration st <= t).
Proof.
  intros Hwf. unfold GetStats, getNextExpirationUnlocked.
  rewrite (tracked_count s Hwf). pose proof (tracked_none s Hwf) as Hnone.
  destruct (slots (pheap s)) as [|a0 sl] eqn:Hslots.
  - cbn. eexists. split; [reflexivity|]. cbn [TrackedSessions NextExpiration].
    assert (Hempty : expiries s = ∅) by (apply Hnone; reflexivity).
    split; [reflexivity|]. split; [reflexivity|]. split; [intros Hne; contradiction|].
    intros id t. rewrite Hempty, lookup_empty. discriminate.
  - destruct (root_is_earliest s a0 Hwf ltac:(rewrite Hslots; reflexivity))
      as (o0 & Ho0 & Hmin & Hle).
    cbn [length Nat.eqb lookup list_lookup mbind option_bind]. rewrite Ho0.
    cbn [mbind option_bind]. eexists. split; [reflexivity|].
    cbn [TrackedSessions NextExpiration]. split; [reflexivity|].
    split; [intros Hempty; apply Hnone in Hempty; discriminate|].
    split; [intros _; eexists; exact Hmin | exact Hle].
Qed.

Lemma stats_report_earliest_witness :
  exists st,
    GetStats example_tracked = Some st /\
    TrackedSessions st = Z.of_nat (size (expiries example_tracked)) /\
    (expiries example_tracked = ∅ -> NextExpiration st = 0) /\
    (expiries example_tracked <> ∅ ->
     exists id, expiries example_tracked !! id = Some (NextExpiration st)) /\
    (forall id t, expiries example_tracked !! id = Some t -> NextExpiration st <= t).
Proof. apply (stats_report_earliest example_tracked), example_tracked_well_formed. Defined.

(** X27. [getNextDelay] on a well-formed scheduler: with no session the
    delay is an hour; otherwise it is at least [minDelay], and no longer than
    the later of [minDelay] and the time from [now] to the expiry of any
    session, provided these times fit [int64]. *)
Theorem next_delay_bounds (minDelay now : Z) (s : PtrScheduler) :
  well_formed s ->
  (forall id t, expiries s !! id = Some t -> in_int64 (t - now)) ->
  exists d,
    getNextDelay minDelay now s = Some d /\
    (expiries s = ∅ -> d = Hour) /\
    (expiries s <> ∅ ->
     minDelay <= d /\
     forall id t, expiries s !! id = Some t -> d <= Z.max minDelay (t - now)).
Proof.
  intros Hwf Hfit. unfold getNextDelay. pose proof (tracked_none s Hwf) as Hnone.
  destruct (slots (pheap s)) as [|a0 sl] eqn:Hslots.
  - cbn. exists Hour. split; [reflexivity|]. split; [reflexivity|].
    intros Hne. exfalso. apply Hne, Hnone. reflexivity.
  - destruct (root_is_earliest s a0 Hwf ltac:(rewrite Hslots; reflexivity))
      as (o0 & Ho0 & Hmin & Hle).
    cbn [length Nat.eqb lookup list_lookup mbind option_bind]. rewrite Ho0.
    cbn [mbind option_bind]. eexists. split; [reflexivity|].
    split; [intros Hempty; apply Hnone in Hempty; discriminate|]. intros _.
    rewrite (GoIntFacts.sub64_exact _ _ (Hfit _ _ Hmin)).
    destruct (Z.ltb_spec (expireAt o0 - now) minDelay) as [Hlt|Hge].
    + split; [lia|]. intros id t _. lia.
    + split; [lia|]. intros id t Ht. pose proof (Hle id t Ht). lia.
Qed.

Lemma next_delay_bounds_witness :
  exists d,
    getNextDelay (100 * Millisecond) 40 example_tracked = Some d /\
    (expiries example_tracked = ∅ -> d = Hour) /\
    (expiries example_tracked <> ∅ ->
     100 * Millisecond <= d /\
     forall id t, expiries example_tracked !! id = Some t ->
                  d <= Z.max (100 * Millisecond) (t - 40)).
Proof.
  apply (next_delay_bounds (100 * Millisecond) 40 example_tracked).
  - apply example_tracked_well_formed.
  - intros id t. destruct example_tracked_well_formed as [_ ->].
    intros Ht. apply lookup_insert_Some in Ht as [[_ <-]|[_ Ht]]; [vm_compute; split; discriminate|].
    apply lookup_insert_Some in Ht as [[_ <-]|[_ Ht]]; [vm_compute; split; discriminate|].
    apply lookup_insert_Some in Ht as [[_ <-]|[_ Ht]]; [vm_compute; split; discriminate|].
    rewrite lookup_empty in Ht. discriminate.
Defined.

(** X28. Whatever calls of [UpdateSession] and [RemoveSession] are made on a
    new scheduler, in whatever order, none panics, the scheduler stays well
    formed, so that its heap is in the order that [cleanup] relies on, and
    the expiry times that it holds are those of the last [UpdateSession] of
    each session that was not removed since. *)
Theorem scheduler_tracks_calls (ops : list sched_op) :
  exists s,
    run ops NewSessionCleanupScheduler = Some s /\
    well_formed s /\
    heap_ordered (view (pheap s)) (Len (view (pheap s))) /\
    expiries s = foldl record ∅ ops.
Proof.
  destruct (run_spec ops NewSessionCleanupScheduler new_well_formed)
    as (s & Hrun & Hwf & Hexp).
  exists s. split; [exact Hrun|]. split; [exact Hwf|]. split; [|exact Hexp].
  unfold Len. rewrite <- (holds_length _ _ _ _ (wf_holds s Hwf)). apply Hwf.
Qed.


(** *** The first loop of [cleanup], on the pointers *)

(** Swapping an entry with itself changes nothing. *)
Lemma mSwap_same (h : memHeap) (i : nat) (a : addr) (o : sessionExpiry) :
  slots h !! i = Some a -> objects h !! a = Some o -> index o = Z.of_nat i ->
  mSwap h i i = Some h.
Proof.
  intros Ha Ho Hi. destruct h as [m sl]. cbn [slots objects] in *.
  unfold mSwap. cbn [slots objects]. rewrite Ha. cbn [mbind option_bind].
  rewrite list_insert_insert_eq, (list_insert_id sl i a Ha), Ha. cbn [mbind option_bind].
  rewrite Ho. cbn [mbind option_bind].
  assert (Hsame : with_index (Z.of_nat i) o = o)
    by (destruct o; unfold with_index; cbn in *; congruence).
  rewrite Hsame, (insert_id m a o Ho), Ho. cbn [mbind option_bind].
  rewrite Hsame, (insert_id m a o Ho). reflexivity.
Qed.

(** On a well-formed scheduler [heap.Pop] is [heap.Remove] at the root. *)
Lemma heap_Pop_as_Remove (s : PtrScheduler) :
  well_formed s -> Heap.heap_Pop (pheap s) = Heap.heap_Remove (pheap s) 0.
Proof.
  intros (_ & Hidx & _ & _). unfold Heap.heap_Pop, Heap.heap_Remove. cbv zeta.
  change (Heap.Len (pheap s)) with (length (slots (pheap s))).
  change (@Heap.Swap memHeap addr mem_heap) with mSwap.
  change (@Heap.Pop memHeap addr mem_heap) with mPop.
  destruct (Nat.eqb_spec (length (slots (pheap s)) - 1) 0) as [Hn|Hn]; cbn [negb].
  - rewrite Hn. cbn [Heap.down].
    destruct (slots (pheap s) !! 0%nat) as [a|] eqn:Ha.
    + destruct (Hidx 0%nat a Ha) as (o & Ho & Hi).
      rewrite (mSwap_same (pheap s) 0 a o Ha Ho Hi). reflexivity.
    + unfold mSwap. rewrite Ha. cbn [mbind option_bind].
      apply lookup_ge_None in Ha. unfold mPop.
      destruct (Nat.eqb_spec (length (slots (pheap s))) 0) as [|Hne]; [reflexivity | lia].
  - destruct (mSwap (pheap s) 0 _) as [h1|]; [|reflexivity]. cbn [mbind option_bind].
    unfold Heap.down_or_up.
    destruct (Heap.down _ h1 0 0 _) as [[h2 moved]|]; [|reflexivity].
    cbn [mbind option_bind]. destruct moved; reflexivity.
Qed.

Lemma collect_expired_spec (fuel : nat) (now : Z) (s : PtrScheduler) (acc : list string) :
  well_formed s -> (length (slots (pheap s)) <= fuel)%nat ->
  exists s' popped,
    collect_expired fuel now s acc = Some (s', acc ++ popped) /\
    well_formed s' /\ NoDup popped /\
    (forall id, id ∈ popped <-> exists t, expiries s !! id = Some t /\ t <= now) /\
    (forall id t, expiries s' !! id = Some t <-> expiries s !! id = Some t /\ now < t).
Proof.
  revert s acc. induction fuel as [|fuel IH]; intros s acc Hwf Hfuel.
  - assert (Hnil : slots (pheap s) = []) by (apply length_zero_iff_nil; lia).
    apply (tracked_none s Hwf) in Hnil.
    exists s, []. rewrite app_nil_r. split; [reflexivity|]. split; [exact Hwf|].
    split; [constructor|]. split.
    + intros id. rewrite elem_of_nil, Hnil. split; [tauto|].
      intros (t & Ht & _). rewrite lookup_empty in Ht. discriminate.
    + intros id t. rewrite Hnil, lookup_empty. split; [discriminate | tauto].
  - cbn [collect_expired].
    destruct (slots (pheap s)) as [|a0 sl] eqn:Hslots.
    { assert (Hnil : expiries s = ∅) by (apply (tracked_none s Hwf); exact Hslots).
      exists s, []. rewrite app_nil_r. cbn. split; [reflexivity|]. split; [exact Hwf|].
      split; [constructor|]. split.
      - intros id. rewrite elem_of_nil, Hnil. split; [tauto|].
        intros (t & Ht & _). rewrite lookup_empty in Ht. discriminate.
      - intros id t. rewrite Hnil, lookup_empty. split; [discriminate | tauto]. }
    assert (Hroot : slots (pheap s) !! 0%nat = Some a0) by (rewrite Hslots; reflexivity).
    destruct (root_is_earliest s a0 Hwf Hroot) as (o0 & Ho0 & Hmin & Hle).
    cbn [length Nat.eqb lookup list_lookup mbind option_bind]. rewrite Ho0.
    cbn [mbind option_bind].
    destruct (Z.leb_spec (expireAt o0) now) as [Hdue|Hlater].
    + assert (Hid0 : pindex s !! sessionID o0 = Some a0).
      { rewrite expiries_lookup in Hmin.
        destruct (pindex s !! sessionID o0) as [a|] eqn:Hid; [|discriminate].
        destruct (wf_position s _ a Hwf Hid) as (k & o & Hk & Ho & Hsid & _ & _).
        destruct Hwf as (_ & _ & Hmap & _).
        assert (Hid' : pindex s !! sessionID o0 = Some a0)
          by (apply Hmap; split; [apply list_elem_of_lookup; eauto | eauto]).
        congruence. }
      destruct (heap_Remove_spec s (sessionID o0) a0 0 Hwf Hid0 Hroot)
        as (h3 & o3 & Hrun & Ho3 & Hsid3 & Hlen3 & Hwf3 & Hexp3).
      rewrite (heap_Pop_as_Remove s Hwf), Hrun. cbn [mbind option_bind].
      rewrite Ho3. cbn [mbind option_bind]. rewrite Hsid3.
      set (s1 := mkPtrScheduler h3 (delete (sessionID o0) (pindex s))) in *.
      destruct (IH s1 (acc ++ [sessionID o0]) Hwf3) as (s' & popped & Hcol & Hwf' & Hnd & Hpop & Hleft).
      { cbn [s1 pheap]. rewrite Hlen3, Hslots in *. cbn [length] in *. lia. }
      exists s', (sessionID o0 :: popped). rewrite Hcol, <- app_assoc.
      split; [reflexivity|]. split; [exact Hwf'|].
      assert (Hgone : expiries s1 !! sessionID o0 = None)
        by (rewrite Hexp3; apply lookup_delete_eq).
      split; [|split].
      * apply NoDup_cons. split; [|exact Hnd]. intros Hin.
        apply Hpop in Hin as (t & Ht & _). congruence.
      * intros id. rewrite elem_of_cons, Hpop, Hexp3. split.
        { intros [->|(t & Ht & Hdue')]; [eauto|].
          apply lookup_delete_Some in Ht as [_ Ht]. eauto. }
        { intros (t & Ht & Hdue'). destruct (decide (id = sessionID o0)) as [|Hne];
            [left; assumption|].
          right. exists t. rewrite lookup_delete_ne by congruence. done. }
      * intros id t. rewrite Hleft, Hexp3, lookup_delete_Some. split.
        { intros [[_ Ht] Hlt]. done. }
        { intros [Ht Hlt]. split; [|exact Hlt]. split; [|exact Ht].
          intros <-. rewrite Hmin in Ht. injection Ht as <-. lia. }
    + exists s, []. rewrite app_nil_r. split; [reflexivity|]. split; [exact Hwf|].
      split; [constructor|]. split.
      * intros id. rewrite elem_of_nil. split; [tauto|].
        intros (t & Ht & Hdue). pose proof (Hle id t Ht). lia.
      * intros id t. split; [|tauto]. intros Ht. split; [exact Ht|].
        pose proof (Hle id t Ht). lia.
Qed.

(** X29. The first loop of [cleanup] on a well-formed scheduler: no panic;
    the sessions it collects are those whose expiry time is not after [now],
    each once, and they leave [heapIndex]; the scheduler stays well formed
    and keeps the other sessions with their expiry times. *)
Theorem cleanup_collects_due (now : Z) (s : PtrScheduler) :
  well_formed s ->
  exists s' toRemove,
    collect_expired (length (slots (pheap s))) now s [] = Some (s', toRemove) /\
    well_formed s' /\ NoDup toRemove /\
    (forall id, id ∈ toRemove <-> exists t, expiries s !! id = Some t /\ t <= now) /\
    (forall id t, expiries s' !! id = Some t <-> expiries s !! id = Some t /\ now < t).
Proof.
  intros Hwf. apply (collect_expired_spec _ now s [] Hwf). lia.
Qed.

Lemma cleanup_collects_due_witness :
  exists s' toRemove,
    collect_expired (length (slots (pheap example_tracked))) 250 example_tracked []
    = Some (s', toRemove) /\
    well_formed s' /\ NoDup toRemove /\
    (forall id, id ∈ toRemove <->
                exists t, expiries example_tracked !! id = Some t /\ t <= 250) /\
    (forall id t, expiries s' !! id = Some t <->
                  expiries example_tracked !! id = Some t /\ 250 < t).
Proof. apply (cleanup_collects_due 250 example_tracked), example_tracked_well_formed. Defined.

End SchedulerFacts.
